(** * Public verifiable secret sharing (share/pvss) over an abstract group

    A shallow embedding of [share/pvss/pvss.go], of the group interface of
    [abstract/group.go] and of the self-describing encoding of
    [abstract/marshal.go].

    Go values are modelled as follows.
    - [int] is [Z]; the code only compares lengths and thresholds, so no
      wrap-around arises.
    - A slice is a [list]; a [nil] slice is [[]].
    - A nullable pointer or interface result is an [option]; [nil] is [None].
    - [error] is the type [error] below; a [nil] error is [None].
    - A function with several results returns the tuple of them.

    The operations are embedded twice. On values, a point or a scalar is
    its value and an operation is a function, of the random stream where
    it draws from it; what the operations return is stated on this
    embedding. On the store (module [Heap]), a point or a scalar is the
    address of an object that methods overwrite; that the operations
    leave their inputs as they are is stated on this one, and the
    operations on the store are proved to return what the operations on
    values return. *)

From Stdlib Require Import String ZArith List Bool Lia Field FinFun.
From Stdlib Require DecimalString.
Import ListNotations.

(** ** abstract/group.go: the interface of scalars and points

    [SecretInterface] (the scalars of [pvss.go]) and [PointInterface] set
    their receiver to the result of the operation and return it; a method
    is modelled by the function from its arguments to the value the
    receiver holds afterwards. *)

Class Group := {
  Scalar : Type;
  Point : Type;
  Scalar_Equal : Scalar -> Scalar -> bool;
  Scalar_SetInt64 : Z -> Scalar;
  Scalar_Zero : Scalar;
  Scalar_Add : Scalar -> Scalar -> Scalar;
  Scalar_Sub : Scalar -> Scalar -> Scalar;
  Scalar_Neg : Scalar -> Scalar;
  Scalar_One : Scalar;
  Scalar_Mul : Scalar -> Scalar -> Scalar;
  Scalar_Div : Scalar -> Scalar -> Scalar;
  Scalar_Inv : Scalar -> Scalar;
  Point_Equal : Point -> Point -> bool;
  Point_Null : Point;
  Point_Base : Point;
  Point_Add : Point -> Point -> Point;
  Point_Sub : Point -> Point -> Point;
  Point_Neg : Point -> Point;
  (** [Point_Mul p s] is the receiver after [Mul(p, s)]: [p] encrypted by
      the scalar [s]. *)
  Point_Mul : Point -> Scalar -> Point
}.

Declare Scope scalar_scope.
Delimit Scope scalar_scope with F.
Notation "0" := Scalar_Zero : scalar_scope.
Notation "1" := Scalar_One : scalar_scope.
Infix "+" := Scalar_Add : scalar_scope.
Infix "*" := Scalar_Mul : scalar_scope.
Infix "-" := Scalar_Sub : scalar_scope.
Infix "/" := Scalar_Div : scalar_scope.
Notation "- x" := (Scalar_Neg x) : scalar_scope.
Notation "/ x" := (Scalar_Inv x) : scalar_scope.

Declare Scope point_scope.
Delimit Scope point_scope with P.
Infix "+" := Point_Add : point_scope.
Infix "*" := Point_Mul : point_scope.

(** "Any implementation is also expected to satisfy the standard
    homomorphism properties": the scalars form a field and the points a
    module over it. *)
Class GroupLaws (g : Group) : Prop := {
  Scalar_field :
    field_theory Scalar_Zero Scalar_One Scalar_Add Scalar_Mul Scalar_Sub
      Scalar_Neg Scalar_Div Scalar_Inv (@eq Scalar);
  Scalar_Equal_eq : forall a b : Scalar, Scalar_Equal a b = true <-> a = b;
  Point_Equal_eq : forall P Q : Point, Point_Equal P Q = true <-> P = Q;
  Point_Add_comm : forall P Q : Point, (P + Q = Q + P)%P;
  Point_Add_assoc : forall P Q R : Point, (P + (Q + R) = (P + Q) + R)%P;
  Point_Add_Null : forall P : Point, (P + Point_Null = P)%P;
  Point_Add_Neg : forall P : Point, (P + Point_Neg P = Point_Null)%P;
  Point_Sub_def : forall P Q : Point, Point_Sub P Q = (P + Point_Neg Q)%P;
  Point_Mul_One : forall P : Point, (P * 1%F = P)%P;
  Point_Mul_Mul : forall (P : Point) (a b : Scalar),
      ((P * a) * b = P * (a * b)%F)%P;
  Point_Mul_Add_r : forall (P : Point) (a b : Scalar),
      (P * (a + b)%F = P * a + P * b)%P;
  Point_Mul_Add_l : forall (P Q : Point) (a : Scalar),
      ((P + Q) * a = P * a + Q * a)%P
}.

(** ** Polynomials over the scalars *)

Section Polynomials.

Context {g : Group} {gl : GroupLaws g}.

Local Open Scope scalar_scope.

(** Horner evaluation of the coefficient list [p] (constant term first)
    at [x]. *)
Definition horner (p : list Scalar) (x : Scalar) : Scalar :=
  fold_right (fun c v => v * x + c) 0 p.

Fixpoint ssum (l : list Scalar) : Scalar :=
  match l with
  | [] => 0
  | a :: r => a + ssum r
  end.

Fixpoint sprod (l : list Scalar) : Scalar :=
  match l with
  | [] => 1
  | a :: r => a * sprod r
  end.

(** Every element of a list together with the others, in their order. *)
Fixpoint picks {A : Type} (pre l : list A) : list (A * list A) :=
  match l with
  | [] => []
  | a :: r => (a, pre ++ r) :: picks (pre ++ [a]) r
  end.

(** *** Polynomial functions given by a bounded number of coefficients *)

Definition polyfun (m : nat) (f : Scalar -> Scalar) : Prop :=
  exists p, (length p <= m)%nat /\ forall x, f x = horner p x.

Fixpoint padd (p q : list Scalar) : list Scalar :=
  match p, q with
  | [], _ => q
  | _, [] => p
  | a :: p', b :: q' => (a + b) :: padd p' q'
  end.

(** *** Lagrange interpolation

    [basis_num o z] is the product of [xj - z] over the other nodes [o];
    the basis polynomial of the node [x] is [basis_num o z / basis_num o x]. *)

Definition basis_num (o : list Scalar) (z : Scalar) : Scalar :=
  sprod (map (fun xj => xj - z) o).

Definition interp (f : Scalar -> Scalar) (ps : list (Scalar * list Scalar))
    (z : Scalar) : Scalar :=
  ssum (map (fun xo => f (fst xo) * (basis_num (snd xo) z
                                     / basis_num (snd xo) (fst xo))) ps).

End Polynomials.

(** ** Errors

    The four error values of [pvss.go]; [errorForeign] stands for an error
    value created by another package ([share] or [proof]). *)

Inductive error : Type :=
| errorTooFewShares
| errorDifferentLengths
| errorEncVerification
| errorDecVerification
| errorForeign (msg : string).

(** What a call into another package that follows the convention
    "values or error" hands back. *)
Inductive result (A : Type) : Type :=
| Ok (a : A)
| Err (err : error).
Arguments Ok {A} a.
Arguments Err {A} err.

(** ** State

    A computation that reads and changes a state of type [S]. *)

Definition State (S A : Type) : Type := S -> A * S.

Definition ret {S A : Type} (a : A) : State S A := fun s => (a, s).

Definition bind {S A B : Type} (m : State S A) (k : A -> State S B)
    : State S B :=
  fun s => let (a, s') := m s in k a s'.

Notation "x <- m ;; k" := (bind m (fun x => k))
  (at level 61, m at next level, right associativity).

(** ** random.Stream

    The global random stream is the state of the computations that draw
    from it: the sequence of scalars that the successive [Pick] calls
    return. *)

Section Random.

Context {g : Group}.

Definition Stream : Type := nat -> Scalar.

Definition Rand (A : Type) : Type := State Stream A.

(** [suite.Scalar().Pick(random.Stream)] *)
Definition Scalar_Pick : Rand Scalar :=
  fun r => (r 0%nat, fun i => r (S i)).

Fixpoint Scalar_Picks (k : nat) : Rand (list Scalar) :=
  match k with
  | O => ret []
  | S k' => c <- Scalar_Pick ;; cs <- Scalar_Picks k' ;; ret (c :: cs)
  end.

End Random.

(** ** Package share *)

Module PriShare.

Record t {g : Group} : Type := mk { I : Z; V : Scalar }.
Arguments mk {g} I V.

End PriShare.

Abbreviation PriShare := PriShare.t.

Module PubShare.

Record t {g : Group} : Type := mk { I : Z; V : Point }.
Arguments mk {g} I V.

End PubShare.

Abbreviation PubShare := PubShare.t.

Section Share.

Context {g : Group}.

Local Open Scope Z_scope.

Record PriPoly : Type := { coeffs : list Scalar }.

Record PubPoly : Type := { b : Point; commits : list Point }.

(** Modelled from the spec: [share.NewPriPoly], which src/ does not
    contain. "Draw a random degree-(t-1) polynomial over the scalar field
    whose constant term equals secret": the secret followed by [t-1]
    coefficients picked from the stream. *)
Definition NewPriPoly (t : Z) (s : Scalar) : Rand PriPoly :=
  cs <- Scalar_Picks (Z.to_nat (t - 1)) ;;
  ret {| coeffs := s :: cs |}.

(** Modelled from the spec: [PriPoly.Eval], which src/ does not
    contain. "evaluate(polynomial, index) -> (index, scalarValue)", the
    index being the interpolation point. *)
Definition PriPoly_Eval (p : PriPoly) (i : Z) : PriShare :=
  PriShare.mk i (horner (coeffs p) (Scalar_SetInt64 i)).

(** The indices [1..n]. *)
Definition indices_upto (n : Z) : list Z :=
  map (fun k => Z.of_nat k + 1) (seq 0 (Z.to_nat n)).

(** Modelled from the spec: [PriPoly.Shares], which src/ does not
    contain. "Evaluate it at indices 1..n to obtain plaintext shares
    (i, v_i)". *)
Definition PriPoly_Shares (p : PriPoly) (n : Z) : list PriShare :=
  map (PriPoly_Eval p) (indices_upto n).

(** Modelled from the spec: [PriPoly.Commit], which src/ does not
    contain. "same coefficients, committed via scalar multiplication of
    H". *)
Definition PriPoly_Commit (p : PriPoly) (base : Point) : PubPoly :=
  {| b := base; commits := map (fun c => (base * c)%P) (coeffs p) |}.

(** Modelled from the spec: [PubPoly.Eval], which src/ does not
    contain. "evaluateCommitment(commitmentPolynomial, index) ->
    (index, pointValue)": Horner evaluation in the group. *)
Definition PubPoly_Eval (p : PubPoly) (i : Z) : PubShare :=
  let xi := Scalar_SetInt64 i in
  PubShare.mk i
    (fold_right (fun c v => (v * xi + c)%P) Point_Null (commits p)).

(** The Lagrange coefficient at 0 of the node [xi] among the nodes
    [others]. *)
Definition lagrange_coeff (xi : Scalar) (others : list Scalar) : Scalar :=
  let num := fold_left (fun num xj => (num * xj)%F) others 1%F in
  let den := fold_left (fun den xj => (den * (xj - xi))%F) others 1%F in
  (num / den)%F.

Definition share_node (s : PubShare) : Scalar :=
  Scalar_SetInt64 (PubShare.I s).

(** Modelled from the spec: [share.RecoverCommit], which src/ does not
    contain. "recoverFromShares(pointShares, t, n) -> point using
    threshold-many (index, point) pairs", a "Lagrange-style recovery in
    the group, using each share's index as the interpolation point". *)
Definition RecoverCommit (shares : list PubShare) (t n : Z)
    : option Point * option error :=
  if Z.of_nat (length shares) <? t then
    (None, Some (errorForeign "share: too few shares"))
  else
    let Acc :=
      fold_left
        (fun Acc so =>
           (Acc + PubShare.V (fst so)
                  * lagrange_coeff (share_node (fst so))
                      (map share_node (snd so)))%P)
        (picks [] shares) Point_Null in
    (Some Acc, None).

End Share.

(** ** Package proof: discrete-logarithm equality proofs

    src/ has the callers only. The spec gives the interface:
    "prove(base1, target1, base2, target2, exponent) -> proof" and
    "verify(proof, base1, target1, base2, target2) -> bool", with batched
    variants; it is a parameter of the development. *)

Class ProofPkg (g : Group) := {
  DLEQProof : Type;
  (** [NewDLEQProof(suite, G, H, x)] returns the proof with [xG] and [xH]. *)
  NewDLEQProof :
    Point -> Point -> Scalar -> Rand (result (DLEQProof * Point * Point));
  NewDLEQProofBatch :
    list Point -> list Point -> list Scalar ->
    Rand (result (list DLEQProof * list Point * list Point));
  (** [p.Verify(suite, G, H, xG, xH)] *)
  DLEQProof_Verify : DLEQProof -> Point -> Point -> Point -> Point -> bool
}.

(** "These are assumed correct": an honestly generated proof is returned
    with the two encrypted base points and verifies against them. *)
Class ProofPkgLaws (g : Group) (pp : ProofPkg g) : Prop := {
  NewDLEQProof_complete :
    forall (G H : Point) (x : Scalar) (r : Stream),
    exists p r',
      NewDLEQProof G H x r = (Ok (p, (G * x)%P, (H * x)%P), r') /\
      DLEQProof_Verify p G H (G * x)%P (H * x)%P = true;
  NewDLEQProofBatch_complete :
    forall (Gs Hs : list Point) (xs : list Scalar) (r : Stream),
      length Gs = length Hs -> length Hs = length xs ->
      exists ps r',
        NewDLEQProofBatch Gs Hs xs r
        = (Ok (ps, map (fun Gx => (fst Gx * snd Gx)%P) (combine Gs xs),
                   map (fun Hx => (fst Hx * snd Hx)%P) (combine Hs xs)), r') /\
        Forall2 (fun p GHx =>
                   DLEQProof_Verify p (fst (fst GHx)) (snd (fst GHx))
                     (fst (fst GHx) * snd GHx)%P
                     (snd (fst GHx) * snd GHx)%P = true)
                ps (combine (combine Gs Hs) xs)
}.

(** ** share/pvss/pvss.go *)

(** [PubVerShare] is a public verifiable share: the share [S] and the
    proof [P]. *)

Module PubVerShare.

Record t {g : Group} {pp : ProofPkg g} : Type :=
  mk { S : PubShare; P : DLEQProof }.
Arguments mk {g pp} S P.

End PubVerShare.

Abbreviation PubVerShare := PubVerShare.t.

Section PVSS.

Context {g : Group} {pp : ProofPkg g}.

Local Open Scope Z_scope.

(** The second loop of [EncShares]:
    [encShares[i] = &PubVerShare{{indices[i], sX[i]}, *proofs[i]}]. *)
Fixpoint EncShares_pack (indices : list Z) (sX : list Point)
    (proofs : list DLEQProof) : list PubVerShare :=
  match indices, sX, proofs with
  | i :: indices', sx :: sX', p :: proofs' =>
      PubVerShare.mk (PubShare.mk i sx) p
      :: EncShares_pack indices' sX' proofs'
  | _, _, _ => []
  end.

(** [EncShares] creates encrypted PVSS shares using the public keys in
    [X] and provides a NIZK encryption consistency proof for each share.
    [priPoly.Shares(n)] returns [n] shares, so the loop that fills
    [indices], [values] and [HS] for [i < n] maps over them. *)
Definition EncShares (H : Point) (X : list Point) (secret : Scalar) (t : Z)
    : Rand (list PubVerShare * option PubPoly * option error) :=
  let n := Z.of_nat (length X) in
  priPoly <- NewPriPoly t secret ;;
  let priShares := PriPoly_Shares priPoly n in
  let pubPoly := PriPoly_Commit priPoly H in
  let indices := map PriShare.I priShares in
  let values := map PriShare.V priShares in
  let HS := map (fun _ => H) priShares in
  res <- NewDLEQProofBatch HS X values ;;
  match res with
  | Err err => ret ([], None, Some err)
  | Ok (proofs, _, sX) =>
      ret (EncShares_pack indices sX proofs, Some pubPoly, None)
  end.

(** [VerifyEncShare] checks that the encrypted share [sX] satisfies
    [log_H(sH) == log_X(sX)] where [sH] is the public commitment computed
    by evaluating the public commitment polynomial at the encrypted
    share's index. *)
Definition VerifyEncShare (H X : Point) (poly : PubPoly)
    (encShare : PubVerShare) : option error :=
  let sH := PubPoly_Eval poly (PubShare.I (PubVerShare.S encShare)) in
  if negb (DLEQProof_Verify (PubVerShare.P encShare) H X (PubShare.V sH)
             (PubShare.V (PubVerShare.S encShare)))
  then Some errorEncVerification
  else None.

(** The loop of [VerifyEncShareBatch] from index [i] on, with the good
    public keys [K] and the good encrypted shares [E] collected so far;
    the three slices have the same length. *)
Fixpoint VerifyEncShareBatch_loop (H : Point) (X : list Point)
    (polys : list PubPoly) (encShares : list PubVerShare)
    (K : list Point) (E : list PubVerShare)
    : list Point * list PubVerShare :=
  match X, polys, encShares with
  | Xi :: X', poly :: polys', encShare :: encShares' =>
      match VerifyEncShare H Xi poly encShare with
      | None =>
          VerifyEncShareBatch_loop H X' polys' encShares'
            (K ++ [Xi]) (E ++ [encShare])
      | Some _ => VerifyEncShareBatch_loop H X' polys' encShares' K E
      end
  | _, _, _ => (K, E)
  end.

Definition VerifyEncShareBatch (H : Point) (X : list Point)
    (polys : list PubPoly) (encShares : list PubVerShare)
    : list Point * list PubVerShare * option error :=
  if negb (length X =? length polys)%nat
     || negb (length polys =? length encShares)%nat
  then ([], [], Some errorDifferentLengths)
  else
    let (K, E) := VerifyEncShareBatch_loop H X polys encShares [] [] in
    (K, E, None).

(** [DecShare] first verifies the encrypted share against the encryption
    consistency proof and, if valid, decrypts it and creates a decryption
    consistency proof. *)
Definition DecShare (H X : Point) (poly : PubPoly) (x : Scalar)
    (encShare : PubVerShare) : Rand (option PubVerShare * option error) :=
  match VerifyEncShare H X poly encShare with
  | Some err => ret (None, Some err)
  | None =>
      let G := Point_Base in
      let V := (PubShare.V (PubVerShare.S encShare) * Scalar_Inv x)%P in
      let ps := PubShare.mk (PubShare.I (PubVerShare.S encShare)) V in
      res <- NewDLEQProof G V x ;;
      match res with
      | Err err => ret (None, Some err)
      | Ok (P, _, _) => ret (Some (PubVerShare.mk ps P), None)
      end
  end.

Fixpoint DecShareBatch_loop (H : Point) (X : list Point)
    (polys : list PubPoly) (x : Scalar) (encShares : list PubVerShare)
    (K : list Point) (E D : list PubVerShare)
    : Rand (list Point * list PubVerShare * list PubVerShare) :=
  match X, polys, encShares with
  | Xi :: X', poly :: polys', encShare :: encShares' =>
      res <- DecShare H Xi poly x encShare ;;
      match res with
      | (Some ds, None) =>
          DecShareBatch_loop H X' polys' x encShares'
            (K ++ [Xi]) (E ++ [encShare]) (D ++ [ds])
      | _ => DecShareBatch_loop H X' polys' x encShares' K E D
      end
  | _, _, _ => ret (K, E, D)
  end.

Definition DecShareBatch (H : Point) (X : list Point)
    (polys : list PubPoly) (x : Scalar) (encShares : list PubVerShare)
    : Rand (list Point * list PubVerShare * list PubVerShare
            * option error) :=
  if negb (length X =? length polys)%nat
     || negb (length polys =? length encShares)%nat
  then ret ([], [], [], Some errorDifferentLengths)
  else
    KED <- DecShareBatch_loop H X polys x encShares [] [] [] ;;
    ret (fst (fst KED), snd (fst KED), snd KED, None).

(** [VerifyDecShare] checks that the decrypted share [sG] satisfies
    [log_G(X) == log_sG(sX)]. *)
Definition VerifyDecShare (G X : Point) (encShare decShare : PubVerShare)
    : option error :=
  if negb (DLEQProof_Verify (PubVerShare.P decShare) G
             (PubShare.V (PubVerShare.S decShare)) X
             (PubShare.V (PubVerShare.S encShare)))
  then Some errorDecVerification
  else None.

Fixpoint VerifyDecShareBatch_loop (G : Point) (X : list Point)
    (encShares decShares : list PubVerShare) (D : list PubVerShare)
    : list PubVerShare :=
  match X, encShares, decShares with
  | Xi :: X', encShare :: encShares', decShare :: decShares' =>
      match VerifyDecShare G Xi encShare decShare with
      | None =>
          VerifyDecShareBatch_loop G X' encShares' decShares'
            (D ++ [decShare])
      | Some _ => VerifyDecShareBatch_loop G X' encShares' decShares' D
      end
  | _, _, _ => D
  end.

Definition VerifyDecShareBatch (G : Point) (X : list Point)
    (encShares decShares : list PubVerShare)
    : list PubVerShare * option error :=
  if negb (length X =? length encShares)%nat
     || negb (length encShares =? length decShares)%nat
  then ([], Some errorDifferentLengths)
  else (VerifyDecShareBatch_loop G X encShares decShares [], None).

(** [RecoverSecret] first verifies the given decrypted shares against
    their decryption consistency proofs and then tries to recover the
    shared secret. *)
Definition RecoverSecret (G : Point) (X : list Point)
    (encShares decShares : list PubVerShare) (t n : Z)
    : option Point * option error :=
  match VerifyDecShareBatch G X encShares decShares with
  | (_, Some err) => (None, Some err)
  | (D, None) =>
      if Z.of_nat (length D) <? t then (None, Some errorTooFewShares)
      else
        let shares := map PubVerShare.S D in
        RecoverCommit shares t n
  end.

End PVSS.

(** ** The co-indexed entries of the batch operations *)

Section Batch.

Context {g : Group} {pp : ProofPkg g}.

Local Open Scope Z_scope.

Definition is_nil (err : option error) : bool :=
  match err with
  | None => true
  | Some _ => false
  end.

(** The co-indexed entries [(X[i], polys[i], encShares[i])]. *)
Definition enc_rows (X : list Point) (polys : list PubPoly)
    (encShares : list PubVerShare)
    : list (Point * (PubPoly * PubVerShare)) :=
  combine X (combine polys encShares).

Definition enc_ok (H : Point) (row : Point * (PubPoly * PubVerShare))
    : bool :=
  is_nil (VerifyEncShare H (fst row) (fst (snd row)) (snd (snd row))).

(** The co-indexed entries [(X[i], encShares[i], decShares[i])]. *)
Definition dec_rows (X : list Point) (encShares decShares : list PubVerShare)
    : list (Point * (PubVerShare * PubVerShare)) :=
  combine X (combine encShares decShares).

Definition dec_ok (G : Point) (row : Point * (PubVerShare * PubVerShare))
    : bool :=
  is_nil (VerifyDecShare G (fst row) (fst (snd row)) (snd (snd row))).

(** [l1] is [l2] with some entries removed, the others in their order. *)
Inductive subseq {A : Type} : list A -> list A -> Prop :=
| subseq_nil : subseq [] []
| subseq_keep (a : A) (l1 l2 : list A) :
    subseq l1 l2 -> subseq (a :: l1) (a :: l2)
| subseq_drop (a : A) (l1 l2 : list A) :
    subseq l1 l2 -> subseq l1 (a :: l2).

End Batch.

(** ** An implementation of the proof package

    Proofs in the manner of Chaum and Pedersen with a Fiat-Shamir
    challenge [hash]: the commitments [vG], [vH] for a picked [v], the
    challenge [c] and the response [r = v - x*c]. It meets the laws of the
    interface in every lawful group. *)

Section ChaumPedersen.

Context {g : Group} (hash : list Point -> Scalar).

Record CPProof : Type :=
  { challenge : Scalar; response : Scalar; commitG : Point; commitH : Point }.

Definition CP_New (G H : Point) (x : Scalar)
    : Rand (result (CPProof * Point * Point)) :=
  let encG := (G * x)%P in
  let encH := (H * x)%P in
  v <- Scalar_Pick ;;
  let vG := (G * v)%P in
  let vH := (H * v)%P in
  let c := hash [encG; encH; vG; vH] in
  let r := (v - x * c)%F in
  ret (Ok ({| challenge := c; response := r; commitG := vG; commitH := vH |},
           encG, encH)).

Fixpoint CP_NewBatch_loop (Gs Hs : list Point) (xs : list Scalar)
    : Rand (result (list CPProof * list Point * list Point)) :=
  match Gs, Hs, xs with
  | G :: Gs', H :: Hs', x :: xs' =>
      res <- CP_New G H x ;;
      match res with
      | Err err => ret (Err err)
      | Ok (p, encG, encH) =>
          rest <- CP_NewBatch_loop Gs' Hs' xs' ;;
          match rest with
          | Err err => ret (Err err)
          | Ok (ps, encGs, encHs) =>
              ret (Ok (p :: ps, encG :: encGs, encH :: encHs))
          end
      end
  | _, _, _ => ret (Ok ([], [], []))
  end.

Definition CP_NewBatch (Gs Hs : list Point) (xs : list Scalar)
    : Rand (result (list CPProof * list Point * list Point)) :=
  if negb (length Gs =? length Hs)%nat || negb (length Hs =? length xs)%nat
  then ret (Err (errorForeign "proof: inputs of different lengths"))
  else CP_NewBatch_loop Gs Hs xs.

Definition CP_Verify (p : CPProof) (G H xG xH : Point) : bool :=
  Point_Equal (commitG p) (G * response p + xG * challenge p)%P
  && Point_Equal (commitH p) (H * response p + xH * challenge p)%P.

Definition ChaumPedersen : ProofPkg g :=
  {| DLEQProof := CPProof;
     NewDLEQProof := CP_New;
     NewDLEQProofBatch := CP_NewBatch;
     DLEQProof_Verify := CP_Verify |}.

Context {gl : GroupLaws g}.

End ChaumPedersen.

(** ** A small instance: the integers modulo 7

    Scalars and points are both the field of seven elements, a point being
    encrypted by multiplying it with the scalar; the base point is one. *)

Inductive F7 : Type := f0 | f1 | f2 | f3 | f4 | f5 | f6.

Definition F7_to_Z (a : F7) : Z :=
  match a with
  | f0 => 0 | f1 => 1 | f2 => 2 | f3 => 3 | f4 => 4 | f5 => 5 | f6 => 6
  end.

Definition F7_of_Z (z : Z) : F7 :=
  match (z mod 7)%Z with
  | 0%Z => f0 | 1%Z => f1 | 2%Z => f2 | 3%Z => f3 | 4%Z => f4 | 5%Z => f5
  | _ => f6
  end.

Definition F7_add (a b : F7) : F7 := F7_of_Z (F7_to_Z a + F7_to_Z b).
Definition F7_neg (a : F7) : F7 := F7_of_Z (- F7_to_Z a).
Definition F7_sub (a b : F7) : F7 := F7_add a (F7_neg b).
Definition F7_mul (a b : F7) : F7 := F7_of_Z (F7_to_Z a * F7_to_Z b).
Definition F7_inv (a : F7) : F7 := F7_of_Z (F7_to_Z a ^ 5).
Definition F7_div (a b : F7) : F7 := F7_mul a (F7_inv b).
Definition F7_eqb (a b : F7) : bool := (F7_to_Z a =? F7_to_Z b)%Z.

Definition F7_group : Group :=
  {| Scalar := F7;
     Point := F7;
     Scalar_Equal := F7_eqb;
     Scalar_SetInt64 := F7_of_Z;
     Scalar_Zero := f0;
     Scalar_Add := F7_add;
     Scalar_Sub := F7_sub;
     Scalar_Neg := F7_neg;
     Scalar_One := f1;
     Scalar_Mul := F7_mul;
     Scalar_Div := F7_div;
     Scalar_Inv := F7_inv;
     Point_Equal := F7_eqb;
     Point_Null := f0;
     Point_Base := f1;
     Point_Add := F7_add;
     Point_Sub := F7_sub;
     Point_Neg := F7_neg;
     Point_Mul := F7_mul |}.

(** A challenge derivation and a random stream for the instance. *)
Definition F7_hash (ps : list F7) : F7 :=
  fold_left (fun h p => F7_add (F7_mul h f3) (F7_add p f1)) ps f2.

Definition F7_proofs : ProofPkg F7_group :=
  ChaumPedersen (g := F7_group) F7_hash.

Definition F7_stream : Stream (g := F7_group) :=
  fun i => F7_of_Z (3 * Z.of_nat i + 2).

(** ** Issue, decrypt, recover: what is said of a run *)

Section RoundTrip.

Context {g : Group} {gl : GroupLaws g} {pp : ProofPkg g}
        {ppl : ProofPkgLaws g pp}.

Local Open Scope Z_scope.

(** The indices [1..n] are distinct scalars: the group has more than [n]
    elements. *)
Definition distinct_nodes (n : Z) : Prop :=
  forall i j : Z,
    1 <= i <= n -> 1 <= j <= n -> Scalar_SetInt64 i = Scalar_SetInt64 j ->
    i = j.

(** Every recipient decrypts its encrypted share with its private key:
    [decShares[i]] is what [DecShare] returns for [X[i]], [x[i]] and
    [encShares[i]], on whatever random stream the recipient has. *)
Inductive Decrypted (H : Point) (pubPoly : PubPoly)
  : list Point -> list Scalar -> list PubVerShare -> list PubVerShare -> Prop :=
| Decrypted_nil : Decrypted H pubPoly [] [] [] []
| Decrypted_cons (Xi : Point) (xi : Scalar) (encShare decShare : PubVerShare)
    (X : list Point) (x : list Scalar) (encShares decShares : list PubVerShare)
    (r r' : Stream) :
    DecShare H Xi pubPoly xi encShare r = ((Some decShare, None), r') ->
    Decrypted H pubPoly X x encShares decShares ->
    Decrypted H pubPoly (Xi :: X) (xi :: x) (encShare :: encShares)
      (decShare :: decShares).

(** The recipients decrypt one after the other, each of them drawing from
    the stream [r]; [None] when a recipient gets an error. *)
Fixpoint DecShare_each (H : Point) (pubPoly : PubPoly) (X : list Point)
    (x : list Scalar) (encShares : list PubVerShare) (r : Stream)
    : option (list PubVerShare) :=
  match X, x, encShares with
  | [], [], [] => Some []
  | Xi :: X', xi :: x', encShare :: encShares' =>
      match fst (DecShare H Xi pubPoly xi encShare r) with
      | (Some decShare, None) =>
          option_map (cons decShare)
            (DecShare_each H pubPoly X' x' encShares' r)
      | _ => None
      end
  | _, _, _ => None
  end.

(** What [EncShares] guarantees of the encrypted share of index [i] for the
    public key [Xi], the sharing polynomial having the coefficients [cs]. *)
Definition enc_share_ok (H : Point) (cs : list Scalar) (iX : Z * Point)
    (encShare : PubVerShare) : Prop :=
  PubShare.I (PubVerShare.S encShare) = fst iX /\
  PubShare.V (PubVerShare.S encShare)
  = (snd iX * horner cs (Scalar_SetInt64 (fst iX)))%P /\
  DLEQProof_Verify (PubVerShare.P encShare) H (snd iX)
    (H * horner cs (Scalar_SetInt64 (fst iX)))%P
    (PubShare.V (PubVerShare.S encShare)) = true.

(** What decryption guarantees of a co-indexed entry
    [(X[i], encShares[i], decShares[i])]. *)
Definition dec_row_ok (cs : list Scalar) (n : Z)
    (row : Point * (PubVerShare * PubVerShare)) : Prop :=
  1 <= PubShare.I (PubVerShare.S (snd (snd row))) <= n /\
  PubShare.V (PubVerShare.S (snd (snd row)))
  = (Point_Base
     * horner cs (Scalar_SetInt64
                    (PubShare.I (PubVerShare.S (snd (snd row))))))%P /\
  VerifyDecShare Point_Base (fst row) (fst (snd row)) (snd (snd row)) = None.

Definition row_index (row : Point * (PubVerShare * PubVerShare)) : Z :=
  PubShare.I (PubVerShare.S (snd (snd row))).

End RoundTrip.

(** ** A run of the protocol in the small instance *)

Definition F7_H : F7 := f3.
Definition F7_x : list F7 := [f2; f3; f5].
Definition F7_X : list F7 := map (F7_mul f1) F7_x.

Definition F7_issue
    : list (@PubVerShare F7_group F7_proofs) * option (@PubPoly F7_group)
      * option error :=
  fst (@EncShares F7_group F7_proofs F7_H F7_X f4 2 F7_stream).

Definition F7_encShares : list (@PubVerShare F7_group F7_proofs) :=
  fst (fst F7_issue).

Definition F7_pubPoly : @PubPoly F7_group :=
  match snd (fst F7_issue) with
  | Some p => p
  | None => @Build_PubPoly F7_group f0 []
  end.

Definition F7_decShares : list (@PubVerShare F7_group F7_proofs) :=
  match @DecShare_each F7_group F7_proofs F7_H F7_pubPoly F7_X F7_x
          F7_encShares F7_stream with
  | Some decShares => decShares
  | None => []
  end.

Definition F7_rows :=
  @dec_rows F7_group F7_proofs F7_X F7_encShares F7_decShares.

(** The third and the first entry, in that order. *)
Definition F7_subset := firstn 1 (skipn 2 F7_rows) ++ firstn 1 F7_rows.

(** The encrypted shares with the value of the third one altered. *)
Definition F7_tampered : list (@PubVerShare F7_group F7_proofs) :=
  map (fun e : @PubVerShare F7_group F7_proofs =>
         if (PubShare.I (PubVerShare.S e) =? 3)%Z
         then @PubVerShare.mk F7_group F7_proofs
                (@PubShare.mk F7_group 3
                   (F7_add (PubShare.V (PubVerShare.S e)) f1))
                (PubVerShare.P e)
         else e)
      F7_encShares.

Definition F7_polys : list (@PubPoly F7_group) :=
  [F7_pubPoly; F7_pubPoly; F7_pubPoly].

(** ** abstract/marshal.go

    [Secret] and [Point] are the structures of [abstract/group.go] that
    embed the interface value, which may be nil. What [marshal.go] calls
    and src/ does not contain is the environment [Env]: the suites with
    [StringToSuite] and their constructors, the methods of the embedded
    interface values, and [fmt.Fscanln]. A call into the environment is
    recorded as an [event]; an outcome is a return or a run-time panic,
    with the events so far. *)

Module marshal.

Inductive event : Type :=
| Fscanln_called (data : list Byte.byte)
| StringToSuite_called (suiteStr : string)
| Secret_UnmarshalBinary_called (bvalue : list Byte.byte)
| Point_UnmarshalBinary_called (bvalue : list Byte.byte).

Inductive outcome (A : Type) : Type :=
| Returns (a : A) (log : list event)
| Panics (log : list event).
Arguments Returns {A} a log.
Arguments Panics {A} log.

Record Env : Type := {
  Suite : Type;
  SecretInterface_impl : Type;
  PointInterface_impl : Type;
  (** [fmt.Fscanln(b, &suiteStr, &length)]: the two values read and what
      is left in the buffer; its error is dropped by the callers. *)
  Fscanln : list Byte.byte -> string * Z * list Byte.byte;
  StringToSuite : string -> result Suite;
  (** [suite.Secret().SecretInterface] and [suite.Point().PointInterface] *)
  Suite_Secret : Suite -> option SecretInterface_impl;
  Suite_Point : Suite -> option PointInterface_impl;
  Secret_SetSuite : SecretInterface_impl -> Suite -> SecretInterface_impl;
  Secret_UnmarshalBinary_impl :
    SecretInterface_impl -> list Byte.byte -> SecretInterface_impl;
  Point_SetSuite : PointInterface_impl -> Suite -> PointInterface_impl;
  Point_UnmarshalBinary_impl :
    PointInterface_impl -> list Byte.byte -> PointInterface_impl;
  Point_Null_impl : PointInterface_impl -> PointInterface_impl;
  (** the receiver after [Add(a, b)] *)
  Point_Add_impl :
    PointInterface_impl -> PointInterface_impl -> PointInterface_impl
}.

Record Secret (env : Env) : Type :=
  { SecretInterface : option (SecretInterface_impl env) }.
Arguments SecretInterface {env} s.

Record Point (env : Env) : Type :=
  { PointInterface : option (PointInterface_impl env) }.
Arguments PointInterface {env} p.

(** [bvalue := make([]byte, length); b.Read(bvalue)]: the first [length]
    bytes left in the buffer, then zeros. *)
Definition read_bvalue (length : Z) (rest : list Byte.byte)
    : list Byte.byte :=
  let got := firstn (Z.to_nat length) rest in
  got ++ repeat Byte.x00 (Z.to_nat length - List.length got).

(** [(s *Secret) UnmarshalBinary(data)]: the receiver afterwards and the
    error. *)
Definition Secret_UnmarshalBinary (env : Env) (s : Secret env)
    (data : list Byte.byte) : outcome (Secret env * option error) :=
  if (List.length data =? 0)%nat then Returns (s, None) []
  else
    let '(suiteStr, length, rest) := Fscanln env data in
    let log1 := [Fscanln_called data] in
    if (length <? 0)%Z then Panics log1
    else
      let bvalue := read_bvalue length rest in
      let log2 := log1 ++ [StringToSuite_called suiteStr] in
      match StringToSuite env suiteStr with
      | Err err => Returns (s, Some err) log2
      | Ok suite =>
          match Suite_Secret env suite with
          | None => Panics log2
          | Some secret =>
              let secret := Secret_SetSuite env secret suite in
              let secret := Secret_UnmarshalBinary_impl env secret bvalue in
              Returns ({| SecretInterface := Some secret |}, None)
                (log2 ++ [Secret_UnmarshalBinary_called bvalue])
          end
      end.

(** [(p *Point) UnmarshalBinary(data)]: the receiver afterwards and the
    error. *)
Definition Point_UnmarshalBinary (env : Env) (p : Point env)
    (data : list Byte.byte) : outcome (Point env * option error) :=
  if (List.length data =? 0)%nat then Returns (p, None) []
  else
    let '(suiteStr, length, rest) := Fscanln env data in
    let log1 := [Fscanln_called data] in
    if (length <? 0)%Z then Panics log1
    else
      let bvalue := read_bvalue length rest in
      let log2 := log1 ++ [StringToSuite_called suiteStr] in
      match StringToSuite env suiteStr with
      | Err err => Returns (p, Some err) log2
      | Ok suite =>
          match Suite_Point env suite with
          | None => Panics log2
          | Some point =>
              let point := Point_UnmarshalBinary_impl env point bvalue in
              let log3 := log2 ++ [Point_UnmarshalBinary_called bvalue] in
              match PointInterface p with
              | Some impl =>
                  let impl := Point_Null_impl env impl in
                  let impl := Point_Add_impl env impl point in
                  Returns ({| PointInterface := Some impl |}, None) log3
              | None =>
                  let impl := Point_SetSuite env point suite in
                  Returns ({| PointInterface := Some impl |}, None) log3
              end
          end
      end.

End marshal.

(** ** abstract/marshal.go: the encoders

    What the encoders call and src/ does not contain: the methods
    [MarshalSize], [MarshalBinary] and [GetSuite] of the embedded interface
    values and [String] of a suite. [fmt.Fprintln] of a string and an
    [int] writes the string, a space, the decimal digits of the integer
    and a newline. *)

Record Encoders (env : marshal.Env) : Type := {
  Suite_String : marshal.Suite env -> string;
  (** [GetSuite()], which may be nil *)
  Secret_GetSuite :
    marshal.SecretInterface_impl env -> option (marshal.Suite env);
  Secret_MarshalSize_impl : marshal.SecretInterface_impl env -> Z;
  Secret_MarshalBinary_impl :
    marshal.SecretInterface_impl env -> list Byte.byte * option error;
  Point_GetSuite :
    marshal.PointInterface_impl env -> option (marshal.Suite env);
  Point_MarshalSize_impl : marshal.PointInterface_impl env -> Z;
  Point_MarshalBinary_impl :
    marshal.PointInterface_impl env -> list Byte.byte * option error
}.

Arguments Suite_String {env} e suite.
Arguments Secret_GetSuite {env} e s.
Arguments Secret_MarshalSize_impl {env} e s.
Arguments Secret_MarshalBinary_impl {env} e s.
Arguments Point_GetSuite {env} e p.
Arguments Point_MarshalSize_impl {env} e p.
Arguments Point_MarshalBinary_impl {env} e p.

(** The 64-bit [int] of the sum [z]. *)
Definition int_of (z : Z) : Z := ((z + 2 ^ 63) mod 2 ^ 64 - 2 ^ 63)%Z.

(** The decimal digits of a length. *)
Definition digits (n : nat) : list Byte.byte :=
  list_byte_of_string
    (DecimalString.NilZero.string_of_uint (Nat.to_uint n)).

(** [fmt.Fprintln(&b, suiteStr, n)] for a length [n] *)
Definition Fprintln (suiteStr : string) (n : nat) : list Byte.byte :=
  list_byte_of_string suiteStr ++ [Byte.x20] ++ digits n ++ [Byte.x0a].

Section Encoders.

Variable env : marshal.Env.
Variable enc : Encoders env.

(** [(s *Secret) MarshalSize()] *)
Definition Secret_MarshalSize (s : marshal.Secret env) : marshal.outcome Z :=
  match marshal.SecretInterface s with
  | None => marshal.Panics []
  | Some impl =>
      marshal.Returns (int_of (Secret_MarshalSize_impl enc impl + 8)) []
  end.

(** [(s *Secret) MarshalBinary()]: the suite, then the binary
    representation of the secret. *)
Definition Secret_MarshalBinary (s : marshal.Secret env)
    : marshal.outcome (list Byte.byte * option error) :=
  match marshal.SecretInterface s with
  | None => marshal.Panics []
  | Some impl =>
      match Secret_MarshalBinary_impl enc impl with
      | (_, Some err) => marshal.Returns ([], Some err) []
      | (bvalue, None) =>
          match Secret_GetSuite enc impl with
          | None => marshal.Panics []
          | Some suite =>
              marshal.Returns
                (Fprintln (Suite_String enc suite) (length bvalue) ++ bvalue,
                 None) []
          end
      end
  end.

(** [(p *Point) MarshalSize()] *)
Definition Point_MarshalSize (p : marshal.Point env) : marshal.outcome Z :=
  match marshal.PointInterface p with
  | None => marshal.Panics []
  | Some impl =>
      marshal.Returns (int_of (Point_MarshalSize_impl enc impl + 8)) []
  end.

(** [(p *Point) MarshalBinary()]: the suite, then the binary
    representation of the point. *)
Definition Point_MarshalBinary (p : marshal.Point env)
    : marshal.outcome (list Byte.byte * option error) :=
  match marshal.PointInterface p with
  | None => marshal.Panics []
  | Some impl =>
      match Point_MarshalBinary_impl enc impl with
      | (_, Some err) => marshal.Returns ([], Some err) []
      | (bvalue, None) =>
          match Point_GetSuite enc impl with
          | None => marshal.Panics []
          | Some suite =>
              marshal.Returns
                (Fprintln (Suite_String enc suite) (length bvalue) ++ bvalue,
                 None) []
          end
      end
  end.

End Encoders.

Arguments Secret_MarshalSize {env} enc s.
Arguments Secret_MarshalBinary {env} enc s.
Arguments Point_MarshalSize {env} enc p.
Arguments Point_MarshalBinary {env} enc p.

(** ** An environment for the encoders and the decoders

    One suite, of name [T7]; a secret and a point are their bytes. The
    scanner reads a header line as [Fprintln] writes it: the bytes up to
    the first space, then decimal digits up to a newline. *)

Fixpoint scan_name (data : list Byte.byte)
    : list Byte.byte * list Byte.byte :=
  match data with
  | [] => ([], [])
  | c :: rest =>
      if Byte.eqb c Byte.x20 then ([], rest)
      else let (name, rest') := scan_name rest in (c :: name, rest')
  end.

Fixpoint scan_int (acc : Z) (data : list Byte.byte) : Z * list Byte.byte :=
  match data with
  | [] => (acc, [])
  | c :: rest =>
      let d := (Z.of_N (Byte.to_N c) - 48)%Z in
      if ((0 <=? d) && (d <=? 9))%Z then scan_int (10 * acc + d) rest
      else if Byte.eqb c Byte.x0a then (acc, rest)
      else (acc, data)
  end.

Definition T7_Fscanln (data : list Byte.byte)
    : string * Z * list Byte.byte :=
  let (name, rest) := scan_name data in
  let (n, rest') := scan_int 0 rest in
  (string_of_list_byte name, n, rest').

Definition T7_env : marshal.Env :=
  {| marshal.Suite := unit;
     marshal.SecretInterface_impl := list Byte.byte;
     marshal.PointInterface_impl := list Byte.byte;
     marshal.Fscanln := T7_Fscanln;
     marshal.StringToSuite :=
       fun suiteStr =>
         if String.eqb suiteStr "T7" then Ok tt
         else Err (errorForeign "unknown suite");
     marshal.Suite_Secret := fun _ => Some [];
     marshal.Suite_Point := fun _ => Some [];
     marshal.Secret_SetSuite := fun s _ => s;
     marshal.Secret_UnmarshalBinary_impl := fun _ bvalue => bvalue;
     marshal.Point_SetSuite := fun p _ => p;
     marshal.Point_UnmarshalBinary_impl := fun _ bvalue => bvalue;
     marshal.Point_Null_impl := fun _ => [];
     marshal.Point_Add_impl := fun a b => a ++ b |}.

Definition T7_enc : Encoders T7_env :=
  {| Suite_String := fun _ : marshal.Suite T7_env => "T7"%string;
     Secret_GetSuite :=
       fun _ : marshal.SecretInterface_impl T7_env => Some tt;
     Secret_MarshalSize_impl :=
       fun s : marshal.SecretInterface_impl T7_env => Z.of_nat (length s);
     Secret_MarshalBinary_impl :=
       fun s : marshal.SecretInterface_impl T7_env => (s, None);
     Point_GetSuite :=
       fun _ : marshal.PointInterface_impl T7_env => Some tt;
     Point_MarshalSize_impl :=
       fun p : marshal.PointInterface_impl T7_env => Z.of_nat (length p);
     Point_MarshalBinary_impl :=
       fun p : marshal.PointInterface_impl T7_env => (p, None) |}.

(** A secret and a point of three bytes. *)
Definition T7_bytes : list Byte.byte := [Byte.x01; Byte.x02; Byte.x03].

Definition T7_secret : marshal.Secret T7_env :=
  @marshal.Build_Secret T7_env (Some T7_bytes).

Definition T7_point : marshal.Point T7_env :=
  @marshal.Build_Point T7_env (Some T7_bytes).

(** The encoding of the three bytes, and a header line that announces
    five bytes followed by the three. *)
Definition T7_data : list Byte.byte := Fprintln "T7" 3 ++ T7_bytes.


(** ** Points and scalars as objects in a store

    In Go a point or a scalar is a reference to an object that the methods
    of [abstract/group.go] overwrite: [p.Mul(a, s)] sets the object [p]. In
    this second embedding of [pvss.go] a point or a scalar is the address
    of a cell of a store, [suite.Point()] and [suite.Scalar()] allocate a
    cell, and a method writes the cell of its receiver. The store also
    holds the random stream and the record of the calls into package
    [proof]. A structure with [Obj] in its name is the Go structure with
    the addresses of its points and scalars. [pvss.go] assigns to no
    element of a slice it is given and to no field of a structure it is
    given: a slice is the list of its elements and a structure the record
    of its fields. *)

Inductive call : Type :=
| NewDLEQProof_called
| NewDLEQProofBatch_called
| Verify_called.

Record Store {g : Group} : Type := {
  points : list Point;
  scalars : list Scalar;
  random : Stream;
  calls : list call
}.

(** The list [l] with the cell of address [r] overwritten with [a]. *)
Fixpoint update {A : Type} (r : nat) (a : A) (l : list A) : list A :=
  match l, r with
  | [], _ => []
  | _ :: l', O => a :: l'
  | c :: l', S r' => c :: update r' a l'
  end.

Module PriShareObj.

Record t : Type := mk { I : Z; V : nat }.

End PriShareObj.

Module PubShareObj.

Record t : Type := mk { I : Z; V : nat }.

End PubShareObj.

Module PubVerShareObj.

Record t {g : Group} {pp : ProofPkg g} : Type :=
  mk { S : PubShareObj.t; P : DLEQProof }.
Arguments mk {g pp} S P.

End PubVerShareObj.

Record PriPolyObj : Type := { coeff_cells : list nat }.

Record PubPolyObj : Type := { b_cell : nat; commit_cells : list nat }.

Module Heap.

Section Objects.

Context {g : Group} {pp : ProofPkg g}.

Local Open Scope Z_scope.

Definition St (A : Type) : Type := State Store A.

(** A new cell holding [P]; its address is returned. *)
Definition new_point (P : Point) : St nat :=
  fun st =>
    (length (points st),
     {| points := points st ++ [P];
        scalars := scalars st;
        random := random st;
        calls := calls st |}).

Definition new_scalar (s : Scalar) : St nat :=
  fun st =>
    (length (scalars st),
     {| points := points st;
        scalars := scalars st ++ [s];
        random := random st;
        calls := calls st |}).

(** The cell [r] is overwritten with [P]. *)
Definition set_point (r : nat) (P : Point) : St nat :=
  fun st =>
    (r,
     {| points := update r P (points st);
        scalars := scalars st;
        random := random st;
        calls := calls st |}).

Definition set_scalar (r : nat) (s : Scalar) : St nat :=
  fun st =>
    (r,
     {| points := points st;
        scalars := update r s (scalars st);
        random := random st;
        calls := calls st |}).

(** What the cell [r] holds. *)
Definition point_at (st : Store) (r : nat) : Point :=
  nth r (points st) Point_Null.

Definition scalar_at (st : Store) (r : nat) : Scalar :=
  nth r (scalars st) Scalar_Zero.

Definition get_point (r : nat) : St Point := fun st => (point_at st r, st).

Definition get_scalar (r : nat) : St Scalar := fun st => (scalar_at st r, st).

Definition get_points (rs : list nat) : St (list Point) :=
  fun st => (map (point_at st) rs, st).

Definition get_scalars (rs : list nat) : St (list Scalar) :=
  fun st => (map (scalar_at st) rs, st).

Fixpoint new_points (Ps : list Point) : St (list nat) :=
  match Ps with
  | [] => ret []
  | P :: Ps' => r <- new_point P ;; rs <- new_points Ps' ;; ret (r :: rs)
  end.

Fixpoint new_scalars (ss : list Scalar) : St (list nat) :=
  match ss with
  | [] => ret []
  | s :: ss' => r <- new_scalar s ;; rs <- new_scalars ss' ;; ret (r :: rs)
  end.

(** A computation on the random stream, run on the stream of the store. *)
Definition draw {A : Type} (m : Rand A) : St A :=
  fun st =>
    let (a, r') := m (random st) in
    (a,
     {| points := points st;
        scalars := scalars st;
        random := r';
        calls := calls st |}).

Definition record (c : call) : St unit :=
  fun st =>
    (tt,
     {| points := points st;
        scalars := scalars st;
        random := random st;
        calls := calls st ++ [c] |}).

(** *** abstract/group.go: the methods that [pvss.go] calls *)

(** [suite.Point()] and [suite.Scalar()] *)
Definition Point_new : St nat := new_point Point_Null.
Definition Scalar_new : St nat := new_scalar Scalar_Zero.

(** [r.Base()] *)
Definition Point_Base (r : nat) : St nat := set_point r Point_Base.

(** [r.Mul(p, s)] *)
Definition Point_Mul (r p s : nat) : St nat :=
  P <- get_point p ;; v <- get_scalar s ;; set_point r (P * v)%P.

(** [r.Inv(a)] *)
Definition Scalar_Inv (r a : nat) : St nat :=
  v <- get_scalar a ;; set_scalar r (Scalar_Inv v).

(** *** What the store holds at the addresses of a structure *)

Definition get_PubShare (s : PubShareObj.t) : St PubShare :=
  V <- get_point (PubShareObj.V s) ;; ret (PubShare.mk (PubShareObj.I s) V).

Definition get_PubVerShare (s : PubVerShareObj.t) : St PubVerShare :=
  S <- get_PubShare (PubVerShareObj.S s) ;;
  ret (PubVerShare.mk S (PubVerShareObj.P s)).

Definition get_PubPoly (p : PubPolyObj) : St PubPoly :=
  base <- get_point (b_cell p) ;;
  Cs <- get_points (commit_cells p) ;;
  ret {| b := base; commits := Cs |}.

Definition get_PriPoly (p : PriPolyObj) : St PriPoly :=
  cs <- get_scalars (coeff_cells p) ;; ret {| coeffs := cs |}.

(** *** Packages share and proof

    Modelled from the spec: the functions of the packages [share] and
    [proof], which src/ does not contain. "No call mutates its inputs": a
    call reads the objects it is given and returns new objects, holding
    what the function computes. *)

Definition NewPriPoly (t : Z) (s : nat) : St PriPolyObj :=
  secret <- get_scalar s ;;
  p <- draw (NewPriPoly t secret) ;;
  cells <- new_scalars (coeffs p) ;;
  ret {| coeff_cells := cells |}.

Definition PriPoly_Shares (p : PriPolyObj) (n : Z) : St (list PriShareObj.t) :=
  poly <- get_PriPoly p ;;
  let shares := PriPoly_Shares poly n in
  cells <- new_scalars (map PriShare.V shares) ;;
  ret (map (fun ic => PriShareObj.mk (fst ic) (snd ic))
         (combine (map PriShare.I shares) cells)).

Definition PriPoly_Commit (p : PriPolyObj) (base : nat) : St PubPolyObj :=
  poly <- get_PriPoly p ;;
  B <- get_point base ;;
  cells <- new_points (commits (PriPoly_Commit poly B)) ;;
  ret {| b_cell := base; commit_cells := cells |}.

Definition PubPoly_Eval (p : PubPolyObj) (i : Z) : St PubShareObj.t :=
  poly <- get_PubPoly p ;;
  cell <- new_point (PubShare.V (PubPoly_Eval poly i)) ;;
  ret (PubShareObj.mk i cell).

Fixpoint get_PubShares (shares : list PubShareObj.t) : St (list PubShare) :=
  match shares with
  | [] => ret []
  | s :: shares' =>
      v <- get_PubShare s ;; vs <- get_PubShares shares' ;; ret (v :: vs)
  end.

Definition RecoverCommit (shares : list PubShareObj.t) (t n : Z)
    : St (option nat * option error) :=
  vs <- get_PubShares shares ;;
  match RecoverCommit vs t n with
  | (Some Acc, err) => cell <- new_point Acc ;; ret (Some cell, err)
  | (None, err) => ret (None, err)
  end.

Definition NewDLEQProof (G H x : nat)
    : St (result (DLEQProof * nat * nat)) :=
  _ <- record NewDLEQProof_called ;;
  Gv <- get_point G ;;
  Hv <- get_point H ;;
  xv <- get_scalar x ;;
  res <- draw (NewDLEQProof Gv Hv xv) ;;
  match res with
  | Err err => ret (Err err)
  | Ok (p, xGv, xHv) =>
      xG <- new_point xGv ;; xHc <- new_point xHv ;; ret (Ok (p, xG, xHc))
  end.

Definition NewDLEQProofBatch (G H : list nat) (secrets : list nat)
    : St (result (list DLEQProof * list nat * list nat)) :=
  _ <- record NewDLEQProofBatch_called ;;
  Gv <- get_points G ;;
  Hv <- get_points H ;;
  xv <- get_scalars secrets ;;
  res <- draw (NewDLEQProofBatch Gv Hv xv) ;;
  match res with
  | Err err => ret (Err err)
  | Ok (ps, xGv, xHv) =>
      xG <- new_points xGv ;; xHc <- new_points xHv ;; ret (Ok (ps, xG, xHc))
  end.

Definition DLEQProof_Verify (p : DLEQProof) (G H xG xHc : nat) : St bool :=
  _ <- record Verify_called ;;
  Gv <- get_point G ;;
  Hv <- get_point H ;;
  xGv <- get_point xG ;;
  xHv <- get_point xHc ;;
  ret (DLEQProof_Verify p Gv Hv xGv xHv).

(** *** share/pvss/pvss.go *)

Fixpoint EncShares_pack (indices : list Z) (sX : list nat)
    (proofs : list DLEQProof) : list PubVerShareObj.t :=
  match indices, sX, proofs with
  | i :: indices', sx :: sX', p :: proofs' =>
      PubVerShareObj.mk (PubShareObj.mk i sx) p
      :: EncShares_pack indices' sX' proofs'
  | _, _, _ => []
  end.

Definition EncShares (H : nat) (X : list nat) (secret : nat) (t : Z)
    : St (list PubVerShareObj.t * option PubPolyObj * option error) :=
  let n := Z.of_nat (length X) in
  priPoly <- NewPriPoly t secret ;;
  priShares <- PriPoly_Shares priPoly n ;;
  pubPoly <- PriPoly_Commit priPoly H ;;
  let indices := map PriShareObj.I priShares in
  let values := map PriShareObj.V priShares in
  let HS := map (fun _ => H) priShares in
  res <- NewDLEQProofBatch HS X values ;;
  match res with
  | Err err => ret ([], None, Some err)
  | Ok (proofs, _, sX) =>
      ret (EncShares_pack indices sX proofs, Some pubPoly, None)
  end.

Definition VerifyEncShare (H X : nat) (poly : PubPolyObj)
    (encShare : PubVerShareObj.t) : St (option error) :=
  sH <- PubPoly_Eval poly (PubShareObj.I (PubVerShareObj.S encShare)) ;;
  ok <- DLEQProof_Verify (PubVerShareObj.P encShare) H X (PubShareObj.V sH)
          (PubShareObj.V (PubVerShareObj.S encShare)) ;;
  if negb ok then ret (Some errorEncVerification) else ret None.

Fixpoint VerifyEncShareBatch_loop (H : nat) (X : list nat)
    (polys : list PubPolyObj) (encShares : list PubVerShareObj.t)
    (K : list nat) (E : list PubVerShareObj.t)
    : St (list nat * list PubVerShareObj.t) :=
  match X, polys, encShares with
  | Xi :: X', poly :: polys', encShare :: encShares' =>
      err <- VerifyEncShare H Xi poly encShare ;;
      match err with
      | None =>
          VerifyEncShareBatch_loop H X' polys' encShares'
            (K ++ [Xi]) (E ++ [encShare])
      | Some _ => VerifyEncShareBatch_loop H X' polys' encShares' K E
      end
  | _, _, _ => ret (K, E)
  end.

Definition VerifyEncShareBatch (H : nat) (X : list nat)
    (polys : list PubPolyObj) (encShares : list PubVerShareObj.t)
    : St (list nat * list PubVerShareObj.t * option error) :=
  if negb (length X =? length polys)%nat
     || negb (length polys =? length encShares)%nat
  then ret ([], [], Some errorDifferentLengths)
  else
    KE <- VerifyEncShareBatch_loop H X polys encShares [] [] ;;
    ret (fst KE, snd KE, None).

Definition DecShare (H X : nat) (poly : PubPolyObj) (x : nat)
    (encShare : PubVerShareObj.t)
    : St (option PubVerShareObj.t * option error) :=
  err <- VerifyEncShare H X poly encShare ;;
  match err with
  | Some err => ret (None, Some err)
  | None =>
      G <- (r <- Point_new ;; Point_Base r) ;;
      V <- (r <- Point_new ;;
            xinv <- (r' <- Scalar_new ;; Scalar_Inv r' x) ;;
            Point_Mul r (PubShareObj.V (PubVerShareObj.S encShare)) xinv) ;;
      let ps := PubShareObj.mk (PubShareObj.I (PubVerShareObj.S encShare)) V in
      res <- NewDLEQProof G V x ;;
      match res with
      | Err err => ret (None, Some err)
      | Ok (P, _, _) => ret (Some (PubVerShareObj.mk ps P), None)
      end
  end.

Fixpoint DecShareBatch_loop (H : nat) (X : list nat)
    (polys : list PubPolyObj) (x : nat) (encShares : list PubVerShareObj.t)
    (K : list nat) (E D : list PubVerShareObj.t)
    : St (list nat * list PubVerShareObj.t * list PubVerShareObj.t) :=
  match X, polys, encShares with
  | Xi :: X', poly :: polys', encShare :: encShares' =>
      res <- DecShare H Xi poly x encShare ;;
      match res with
      | (Some ds, None) =>
          DecShareBatch_loop H X' polys' x encShares'
            (K ++ [Xi]) (E ++ [encShare]) (D ++ [ds])
      | _ => DecShareBatch_loop H X' polys' x encShares' K E D
      end
  | _, _, _ => ret (K, E, D)
  end.

Definition DecShareBatch (H : nat) (X : list nat)
    (polys : list PubPolyObj) (x : nat) (encShares : list PubVerShareObj.t)
    : St (list nat * list PubVerShareObj.t * list PubVerShareObj.t
          * option error) :=
  if negb (length X =? length polys)%nat
     || negb (length polys =? length encShares)%nat
  then ret ([], [], [], Some errorDifferentLengths)
  else
    KED <- DecShareBatch_loop H X polys x encShares [] [] [] ;;
    ret (fst (fst KED), snd (fst KED), snd KED, None).

Definition VerifyDecShare (G X : nat) (encShare decShare : PubVerShareObj.t)
    : St (option error) :=
  ok <- DLEQProof_Verify (PubVerShareObj.P decShare) G
          (PubShareObj.V (PubVerShareObj.S decShare)) X
          (PubShareObj.V (PubVerShareObj.S encShare)) ;;
  if negb ok then ret (Some errorDecVerification) else ret None.

Fixpoint VerifyDecShareBatch_loop (G : nat) (X : list nat)
    (encShares decShares : list PubVerShareObj.t)
    (D : list PubVerShareObj.t) : St (list PubVerShareObj.t) :=
  match X, encShares, decShares with
  | Xi :: X', encShare :: encShares', decShare :: decShares' =>
      err <- VerifyDecShare G Xi encShare decShare ;;
      match err with
      | None =>
          VerifyDecShareBatch_loop G X' encShares' decShares'
            (D ++ [decShare])
      | Some _ => VerifyDecShareBatch_loop G X' encShares' decShares' D
      end
  | _, _, _ => ret D
  end.

Definition VerifyDecShareBatch (G : nat) (X : list nat)
    (encShares decShares : list PubVerShareObj.t)
    : St (list PubVerShareObj.t * option error) :=
  if negb (length X =? length encShares)%nat
     || negb (length encShares =? length decShares)%nat
  then ret ([], Some errorDifferentLengths)
  else
    D <- VerifyDecShareBatch_loop G X encShares decShares [] ;;
    ret (D, None).

Definition RecoverSecret (G : nat) (X : list nat)
    (encShares decShares : list PubVerShareObj.t) (t n : Z)
    : St (option nat * option error) :=
  res <- VerifyDecShareBatch G X encShares decShares ;;
  match res with
  | (_, Some err) => ret (None, Some err)
  | (D, None) =>
      if Z.of_nat (length D) <? t then ret (None, Some errorTooFewShares)
      else
        let shares := map PubVerShareObj.S D in
        RecoverCommit shares t n
  end.

End Objects.

End Heap.

(** ** What it is for an operation to leave the objects as they are *)

Section Frame.

Context {g : Group} {pp : ProofPkg g}.

(** The store [st'] is the store [st] with new cells: every point and
    every scalar of [st] is in [st'], at its address, with its value. *)
Definition preserved (st st' : Store) : Prop :=
  (exists Ps, points st' = points st ++ Ps) /\
  (exists ss, scalars st' = scalars st ++ ss).

Definition Preserving {A : Type} (m : Heap.St A) : Prop :=
  forall st, preserved st (snd (m st)).

(** The computation leaves the random stream where it was. *)
Definition Drawless {A : Type} (m : Heap.St A) : Prop :=
  forall st, random (snd (m st)) = random st.

(** *** The values that a store gives to what refers to it *)

Definition value_of_PubShare (st : Store) (s : PubShareObj.t) : PubShare :=
  PubShare.mk (PubShareObj.I s) (Heap.point_at st (PubShareObj.V s)).

Definition value_of_PubVerShare (st : Store) (s : PubVerShareObj.t)
    : PubVerShare :=
  PubVerShare.mk (value_of_PubShare st (PubVerShareObj.S s))
    (PubVerShareObj.P s).

Definition value_of_PubPoly (st : Store) (p : PubPolyObj) : PubPoly :=
  {| b := Heap.point_at st (b_cell p);
     commits := map (Heap.point_at st) (commit_cells p) |}.

(** The address [r] is the address of a cell of the store. *)
Definition live_point (st : Store) (r : nat) : Prop :=
  (r < length (points st))%nat.

Definition live_scalar (st : Store) (r : nat) : Prop :=
  (r < length (scalars st))%nat.

Definition live_PubVerShare (st : Store) (s : PubVerShareObj.t) : Prop :=
  live_point st (PubShareObj.V (PubVerShareObj.S s)).

Definition live_PubPoly (st : Store) (p : PubPolyObj) : Prop :=
  live_point st (b_cell p) /\ Forall (live_point st) (commit_cells p).

(** The values that a store gives to the results of the operations. *)
Definition value_of_EncShares (st : Store)
    (res : list PubVerShareObj.t * option PubPolyObj * option error)
    : list PubVerShare * option PubPoly * option error :=
  (map (value_of_PubVerShare st) (fst (fst res)),
   option_map (value_of_PubPoly st) (snd (fst res)),
   snd res).

Definition value_of_VerifyEncShareBatch (st : Store)
    (res : list nat * list PubVerShareObj.t * option error)
    : list Point * list PubVerShare * option error :=
  (map (Heap.point_at st) (fst (fst res)),
   map (value_of_PubVerShare st) (snd (fst res)),
   snd res).

Definition value_of_DecShare (st : Store)
    (res : option PubVerShareObj.t * option error)
    : option PubVerShare * option error :=
  (option_map (value_of_PubVerShare st) (fst res), snd res).

Definition value_of_DecShareBatch (st : Store)
    (res : list nat * list PubVerShareObj.t * list PubVerShareObj.t
           * option error)
    : list Point * list PubVerShare * list PubVerShare * option error :=
  (map (Heap.point_at st) (fst (fst (fst res))),
   map (value_of_PubVerShare st) (snd (fst (fst res))),
   map (value_of_PubVerShare st) (snd (fst res)),
   snd res).

Definition value_of_VerifyDecShareBatch (st : Store)
    (res : list PubVerShareObj.t * option error)
    : list PubVerShare * option error :=
  (map (value_of_PubVerShare st) (fst res), snd res).

Definition value_of_RecoverSecret (st : Store)
    (res : option nat * option error) : option Point * option error :=
  (option_map (Heap.point_at st) (fst res), snd res).

(** Started in the store [st], the computation [m] returns a result whose
    value is the one that the function [f] of the random stream returns,
    and leaves the random stream where [f] leaves it: what [m] returns
    depends on nothing else that the store holds. *)
Definition computes {A B : Type} (st : Store) (m : Heap.St A)
    (value_of : Store -> A -> B) (f : Rand B) : Prop :=
  (value_of (snd (m st)) (fst (m st)), random (snd (m st)))
  = f (random st).

End Frame.

(** A store of the group of seven elements: the point [H] and the three
    public keys; the secret and the three private keys. *)
Definition F7_store : @Store F7_group :=
  @Build_Store F7_group (F7_H :: F7_X) (f4 :: F7_x) F7_stream [].

(** The first encrypted share of the run and what its recipient decrypts
    it to. *)
Definition F7_share0 : @PubVerShare F7_group F7_proofs :=
  @PubVerShare.mk F7_group F7_proofs (@PubShare.mk F7_group 0 f0)
    (@Build_CPProof F7_group f0 f0 f0 f0).

Definition F7_encShare1 : @PubVerShare F7_group F7_proofs :=
  nth 0 F7_encShares F7_share0.

Definition F7_decShare1 : @PubVerShare F7_group F7_proofs :=
  nth 0 F7_decShares F7_share0.

(** ** What the batch decryption keeps *)

Section Kept.

Context {g : Group} {pp : ProofPkg g}.

(** The share [d] moved to the index [f i], [i] being its index. *)
Definition reindex (f : Z -> Z) (d : PubVerShare) : PubVerShare :=
  PubVerShare.mk
    (PubShare.mk (f (PubShare.I (PubVerShare.S d)))
       (PubShare.V (PubVerShare.S d)))
    (PubVerShare.P d).

(** The decrypted share [d] has the index of the encrypted share [e] and
    its value decrypted with [x]. *)
Definition decrypts (x : Scalar) (e d : PubVerShare) : Prop :=
  PubShare.I (PubVerShare.S d) = PubShare.I (PubVerShare.S e) /\
  PubShare.V (PubVerShare.S d)
  = (PubShare.V (PubVerShare.S e) * Scalar_Inv x)%P.

(** An entry [(X[i], polys[i], encShares[i])] with the share that
    [DecShare] returns for it, on some random stream. *)
Definition kept_ok (H : Point) (x : Scalar)
    (k : Point * (PubPoly * PubVerShare) * PubVerShare) : Prop :=
  exists r r' : Stream,
    DecShare H (fst (fst k)) (fst (snd (fst k))) x (snd (snd (fst k))) r
    = ((Some (snd k), None), r').

End Kept.

(** The entries of the run with the altered share that pass the
    verifications. *)
Definition F7_enc_kept :=
  filter (@enc_ok F7_group F7_proofs F7_H)
    (@enc_rows F7_group F7_proofs F7_X F7_polys F7_tampered).

Definition F7_dec_kept :=
  filter (@dec_ok F7_group F7_proofs f1)
    (@dec_rows F7_group F7_proofs F7_X F7_tampered F7_decShares).

(** [EncShares] on the store of the small instance, for the three
    public keys and a threshold of two: the store in which it returns, the
    encrypted shares and the commitment polynomial. *)
Definition F7_issued :=
  @Heap.EncShares F7_group F7_proofs 0 [1; 2; 3]%nat 0 2 F7_store.

Definition F7_store1 : @Store F7_group := snd F7_issued.

Definition F7_shareObjs : list (@PubVerShareObj.t F7_group F7_proofs) :=
  fst (fst (fst F7_issued)).

Definition F7_polyObj : PubPolyObj :=
  match snd (fst (fst F7_issued)) with
  | Some p => p
  | None => {| b_cell := 0; commit_cells := [] |}
  end.

Definition F7_shareObj1 : @PubVerShareObj.t F7_group F7_proofs :=
  nth 0 F7_shareObjs
    (@PubVerShareObj.mk F7_group F7_proofs (PubShareObj.mk 0 0)
       (@Build_CPProof F7_group f0 f0 f0 f0)).

(** * Theorems *)

(** ** Polynomials over the scalars: Lagrange interpolation *)

Section Polynomials.

Context {g : Group} {gl : GroupLaws g}.

Local Open Scope scalar_scope.

Add Field ScalarField : Scalar_field.

Lemma Scalar_integral {a b : Scalar} : a * b = 0 -> a <> 0 -> b = 0.
Proof.
  intros Hab Ha.
  assert (E : b = (a * b) / a) by (field; exact Ha).
  rewrite E, Hab. field. exact Ha.
Qed.

Lemma Scalar_Div_def (a b : Scalar) : a / b = a * / b.
Proof. exact (Fdiv_def Scalar_field a b). Qed.

Lemma Scalar_Sub_neq (a b : Scalar) : a <> b -> a - b <> 0.
Proof.
  intros Hab E. apply Hab.
  assert (E' : a = (a - b) + b) by ring.
  rewrite E', E. ring.
Qed.

Lemma sprod_app (l1 l2 : list Scalar) :
  sprod (l1 ++ l2) = sprod l1 * sprod l2.
Proof.
  induction l1 as [|a l1 IH]; simpl.
  - ring.
  - rewrite IH. ring.
Qed.

Lemma sprod_neq_0 (l : list Scalar) :
  (forall a, In a l -> a <> 0) -> sprod l <> 0.
Proof.
  induction l as [|a l IH]; simpl; intros Hl.
  - exact (F_1_neq_0 Scalar_field).
  - intros E. apply (IH (fun b Hb => Hl b (or_intror Hb))).
    apply (Scalar_integral E). apply Hl. now left.
Qed.

Lemma sprod_In_0 (l : list Scalar) : In 0 l -> sprod l = 0.
Proof.
  induction l as [|a l IH]; simpl; intros Hin.
  - contradiction.
  - destruct Hin as [-> | Hin].
    + ring.
    + rewrite (IH Hin). ring.
Qed.

(** *** Division by a linear factor *)

Lemma horner_factor (a : Scalar) (p : list Scalar) :
  exists q, length q = pred (length p) /\
            forall x, horner p x = horner p a + (x - a) * horner q x.
Proof.
  induction p as [|c p IH].
  - exists []. split; [reflexivity|]. intros x. simpl. ring.
  - destruct IH as (q & Hlen & Hq).
    destruct p as [|c' p'].
    + exists []. split; [reflexivity|]. intros x. simpl. ring.
    + exists (horner (c' :: p') a :: q). split.
      * simpl in *. now rewrite Hlen.
      * intros x.
        change (horner (c :: c' :: p') x)
          with (horner (c' :: p') x * x + c).
        change (horner (c :: c' :: p') a)
          with (horner (c' :: p') a * a + c).
        change (horner (horner (c' :: p') a :: q) x)
          with (horner q x * x + horner (c' :: p') a).
        rewrite (Hq x). ring.
Qed.

(** A coefficient list no longer than a list of distinct roots is the
    zero function. *)
Lemma horner_roots (xs : list Scalar) :
  forall p : list Scalar,
    NoDup xs -> (length p <= length xs)%nat ->
    (forall x, In x xs -> horner p x = 0) ->
    forall z, horner p z = 0.
Proof.
  induction xs as [|a xs IH]; intros p Hnd Hlen Hroot z.
  - destruct p; [reflexivity | simpl in Hlen; lia].
  - destruct (horner_factor a p) as (q & Hq_len & Hq).
    inversion Hnd as [|? ? Hnotin Hnd']; subst.
    assert (Hq0 : forall y, horner q y = 0).
    { apply IH.
      - exact Hnd'.
      - simpl in Hlen. lia.
      - intros x Hx.
        assert (Hxa : x - a <> 0).
        { apply Scalar_Sub_neq. intros ->. exact (Hnotin Hx). }
        apply (Scalar_integral (a := x - a)); [|exact Hxa].
        pose proof (Hq x) as E.
        rewrite (Hroot x (or_intror Hx)), (Hroot a (or_introl eq_refl)) in E.
        rewrite E. ring. }
    rewrite (Hq z), (Hroot a (or_introl eq_refl)), (Hq0 z). ring.
Qed.

Lemma horner_padd (p q : list Scalar) (x : Scalar) :
  horner (padd p q) x = horner p x + horner q x.
Proof.
  revert q. induction p as [|a p IH]; intros [|b q]; simpl; try ring.
  fold (horner (padd p q) x). rewrite IH. unfold horner. ring.
Qed.

Lemma length_padd (p q : list Scalar) :
  length (padd p q) = Nat.max (length p) (length q).
Proof.
  revert q. induction p as [|a p IH]; intros [|b q]; simpl; auto.
Qed.

Lemma horner_scale (c : Scalar) (p : list Scalar) (x : Scalar) :
  horner (map (Scalar_Mul c) p) x = c * horner p x.
Proof.
  induction p as [|a p IH]; simpl.
  - ring.
  - fold (horner (map (Scalar_Mul c) p) x). rewrite IH. unfold horner. ring.
Qed.

Lemma polyfun_ext (m : nat) (f h : Scalar -> Scalar) :
  (forall x, f x = h x) -> polyfun m f -> polyfun m h.
Proof.
  intros E (p & Hlen & Hp). exists p. split; [exact Hlen|].
  intros x. now rewrite <- E.
Qed.

Lemma polyfun_le (m m' : nat) (f : Scalar -> Scalar) :
  (m <= m')%nat -> polyfun m f -> polyfun m' f.
Proof.
  intros Hle (p & Hlen & Hp). exists p. split; [lia | exact Hp].
Qed.

Lemma polyfun_zero : polyfun 0 (fun _ => 0).
Proof. exists []. split; [apply le_n | reflexivity]. Qed.

Lemma polyfun_const (c : Scalar) : polyfun 1 (fun _ => c).
Proof. exists [c]. split; [apply le_n|]. intros x. simpl. ring. Qed.

Lemma polyfun_horner (p : list Scalar) : polyfun (length p) (horner p).
Proof. exists p. split; [apply le_n | reflexivity]. Qed.

Lemma polyfun_add (m : nat) (f h : Scalar -> Scalar) :
  polyfun m f -> polyfun m h -> polyfun m (fun x => f x + h x).
Proof.
  intros (p & Hp_len & Hp) (q & Hq_len & Hq). exists (padd p q). split.
  - rewrite length_padd. lia.
  - intros x. now rewrite horner_padd, Hp, Hq.
Qed.

Lemma polyfun_scale (m : nat) (c : Scalar) (f : Scalar -> Scalar) :
  polyfun m f -> polyfun m (fun x => c * f x).
Proof.
  intros (p & Hp_len & Hp). exists (map (Scalar_Mul c) p). split.
  - now rewrite length_map.
  - intros x. now rewrite horner_scale, Hp.
Qed.

Lemma polyfun_linear (m : nat) (a : Scalar) (f : Scalar -> Scalar) :
  polyfun m f -> polyfun (S m) (fun x => (a - x) * f x).
Proof.
  intros (p & Hp_len & Hp).
  exists (padd (map (Scalar_Mul a) p) (0 :: map (Scalar_Mul (- (1))) p)).
  split.
  - rewrite length_padd. simpl. rewrite !length_map. lia.
  - intros x. rewrite horner_padd, horner_scale.
    change (horner (0 :: map (Scalar_Mul (- (1))) p) x)
      with (horner (map (Scalar_Mul (- (1))) p) x * x + 0).
    rewrite horner_scale, Hp. ring.
Qed.

Lemma polyfun_basis_num (o : list Scalar) :
  polyfun (S (length o)) (basis_num o).
Proof.
  induction o as [|a o IH].
  - apply polyfun_ext with (f := fun _ => 1); [reflexivity|].
    apply polyfun_const.
  - apply polyfun_ext with (f := fun x => (a - x) * basis_num o x);
      [reflexivity|].
    apply polyfun_linear, IH.
Qed.

Lemma polyfun_interp (f : Scalar -> Scalar) (m : nat)
    (ps : list (Scalar * list Scalar)) :
  (forall xo, In xo ps -> (S (length (snd xo)) <= m)%nat) ->
  polyfun m (interp f ps).
Proof.
  induction ps as [|[x o] ps IH]; intros Hlen.
  - apply polyfun_le with (m := 0%nat); [lia | apply polyfun_zero].
  - apply polyfun_ext
      with (f := fun z => (f x * / basis_num o x) * basis_num o z
                          + interp f ps z).
    + intros z. unfold interp. simpl. rewrite Scalar_Div_def. ring.
    + apply polyfun_add.
      * apply polyfun_scale.
        apply polyfun_le with (m := S (length o)).
        -- apply (Hlen (x, o)). now left.
        -- apply polyfun_basis_num.
      * apply IH. intros xo Hin. apply Hlen. now right.
Qed.

Lemma picks_length {A : Type} (l pre : list A) (xo : A * list A) :
  In xo (picks pre l) ->
  S (length (snd xo)) = (length pre + length l)%nat.
Proof.
  revert pre. induction l as [|a l IH]; intros pre Hin; simpl in Hin.
  - contradiction.
  - destruct Hin as [<- | Hin].
    + simpl. rewrite length_app. lia.
    + rewrite (IH _ Hin), length_app. simpl. lia.
Qed.

Lemma basis_num_node (o : list Scalar) (z : Scalar) :
  In z o -> basis_num o z = 0.
Proof.
  intros Hin. apply sprod_In_0, in_map_iff.
  exists z. split; [ring | exact Hin].
Qed.

Lemma basis_num_neq_0 (o : list Scalar) (z : Scalar) :
  ~ In z o -> basis_num o z <> 0.
Proof.
  intros Hnotin. apply sprod_neq_0. intros a Ha.
  apply in_map_iff in Ha. destruct Ha as (xj & <- & Hxj).
  apply Scalar_Sub_neq. intros ->. exact (Hnotin Hxj).
Qed.

Lemma basis_num_0 (o : list Scalar) : basis_num o 0 = sprod o.
Proof.
  unfold basis_num. induction o as [|a o IH]; simpl.
  - reflexivity.
  - rewrite IH. ring.
Qed.

(** At a node already passed, every remaining term vanishes. *)
Lemma interp_node_pre (f : Scalar -> Scalar) (l pre : list Scalar)
    (z : Scalar) :
  In z pre -> interp f (picks pre l) z = 0.
Proof.
  revert pre. induction l as [|a l IH]; intros pre Hin.
  - reflexivity.
  - unfold interp. simpl. fold (interp f (picks (pre ++ [a]) l) z).
    rewrite IH by (apply in_or_app; now left).
    rewrite basis_num_node by (apply in_or_app; now left).
    rewrite Scalar_Div_def. ring.
Qed.

(** The interpolant takes the value [f z] at each node [z]. *)
Lemma interp_node (f : Scalar -> Scalar) (l pre : list Scalar)
    (z : Scalar) :
  NoDup (pre ++ l) -> In z l -> interp f (picks pre l) z = f z.
Proof.
  revert pre. induction l as [|a l IH]; intros pre Hnd Hin.
  - contradiction.
  - unfold interp. simpl. fold (interp f (picks (pre ++ [a]) l) z).
    destruct Hin as [-> | Hin].
    + rewrite interp_node_pre by (apply in_or_app; right; now left).
      field. apply basis_num_neq_0. exact (NoDup_remove_2 _ _ _ Hnd).
    + rewrite IH; [| now rewrite <- app_assoc | exact Hin].
      rewrite basis_num_node by (apply in_or_app; now right).
      rewrite Scalar_Div_def. ring.
Qed.

(** Interpolating the values of a polynomial with at most as many
    coefficients as there are distinct nodes gives its constant term. *)
Theorem lagrange_at_0 (p xs : list Scalar) :
  NoDup xs -> (length p <= length xs)%nat ->
  ssum (map (fun xo => horner p (fst xo)
                       * (sprod (snd xo)
                          / sprod (map (fun xj => xj - fst xo) (snd xo))))
            (picks [] xs))
  = horner p 0.
Proof.
  intros Hnd Hlen.
  assert (Hpoly : polyfun (length xs)
            (fun z => horner p z
                      + (- (1)) * interp (horner p) (picks [] xs) z)).
  { apply polyfun_add.
    - apply polyfun_le with (m := length p); [exact Hlen|].
      apply polyfun_horner.
    - apply polyfun_scale, polyfun_interp.
      intros xo Hxo. rewrite (picks_length _ _ _ Hxo). simpl. lia. }
  destruct Hpoly as (d & Hd_len & Hd).
  assert (Hzero : horner d 0 = 0).
  { apply (horner_roots xs d Hnd Hd_len). intros x Hx.
    rewrite <- Hd, (interp_node _ _ []); [ring | exact Hnd | exact Hx]. }
  rewrite <- Hd in Hzero.
  assert (E : horner p 0 = interp (horner p) (picks [] xs) 0).
  { transitivity
      (horner p 0 + - (1) * interp (horner p) (picks [] xs) 0
       + interp (horner p) (picks [] xs) 0); [ring|].
    rewrite Hzero. ring. }
  rewrite E. unfold interp. f_equal. apply map_ext. intros [x o]. simpl.
  now rewrite basis_num_0.
Qed.

End Polynomials.

(** [PubVerShare] is a public verifiable share: the share [S] and the
    proof [P]. *)

(** ** Properties of the batch operations *)

Section Batch.

Context {g : Group} {pp : ProofPkg g}.

Local Open Scope Z_scope.

Lemma subseq_filter {A : Type} (f : A -> bool) (l : list A) :
  subseq (filter f l) l.
Proof.
  induction l as [|a l IH]; simpl.
  - constructor.
  - destruct (f a); now constructor.
Qed.

Lemma subseq_map {A B : Type} (f : A -> B) (l1 l2 : list A) :
  subseq l1 l2 -> subseq (map f l1) (map f l2).
Proof. induction 1; simpl; now constructor. Qed.

Lemma lengths_checked (a b c : nat) :
  negb (a =? b)%nat || negb (b =? c)%nat = false <-> a = b /\ b = c.
Proof.
  rewrite orb_false_iff, !negb_false_iff, !Nat.eqb_eq. tauto.
Qed.

Lemma lengths_mismatch (a b c : nat) :
  ~ (a = b /\ b = c) -> negb (a =? b)%nat || negb (b =? c)%nat = true.
Proof.
  intros Hne.
  destruct (negb (a =? b)%nat || negb (b =? c)%nat) eqn:E; [reflexivity|].
  apply lengths_checked in E. contradiction.
Qed.

Lemma VerifyEncShareBatch_loop_filter (H : Point) (X : list Point) :
  forall (polys : list PubPoly) (encShares : list PubVerShare)
         (K : list Point) (E : list PubVerShare),
    length X = length polys -> length polys = length encShares ->
    VerifyEncShareBatch_loop H X polys encShares K E
    = (K ++ map fst (filter (enc_ok H) (enc_rows X polys encShares)),
       E ++ map (fun row => snd (snd row))
              (filter (enc_ok H) (enc_rows X polys encShares))).
Proof.
  induction X as [|Xi X IH]; intros [|poly polys] [|encShare encShares] K E
    Hlen1 Hlen2; simpl in *; try discriminate.
  - now rewrite !app_nil_r.
  - unfold enc_rows. simpl.
    change (enc_ok H (Xi, (poly, encShare)))
      with (is_nil (VerifyEncShare H Xi poly encShare)).
    destruct (VerifyEncShare H Xi poly encShare); simpl.
    + apply IH; lia.
    + rewrite IH by lia. now rewrite <- !app_assoc.
Qed.

Lemma VerifyDecShareBatch_loop_filter (G : Point) (X : list Point) :
  forall (encShares decShares D : list PubVerShare),
    length X = length encShares -> length encShares = length decShares ->
    VerifyDecShareBatch_loop G X encShares decShares D
    = D ++ map (fun row => snd (snd row))
             (filter (dec_ok G) (dec_rows X encShares decShares)).
Proof.
  induction X as [|Xi X IH];
    intros [|encShare encShares] [|decShare decShares] D Hlen1 Hlen2;
    simpl in *; try discriminate.
  - now rewrite app_nil_r.
  - unfold dec_rows. simpl.
    change (dec_ok G (Xi, (encShare, decShare)))
      with (is_nil (VerifyDecShare G Xi encShare decShare)).
    destruct (VerifyDecShare G Xi encShare decShare); simpl.
    + apply IH; lia.
    + rewrite IH by lia. now rewrite <- app_assoc.
Qed.

Lemma VerifyEncShareBatch_equal_lengths (H : Point) (X : list Point)
    (polys : list PubPoly) (encShares : list PubVerShare) :
  length X = length polys -> length polys = length encShares ->
  VerifyEncShareBatch H X polys encShares
  = (map fst (filter (enc_ok H) (enc_rows X polys encShares)),
     map (fun row => snd (snd row))
       (filter (enc_ok H) (enc_rows X polys encShares)),
     None).
Proof.
  intros Hlen1 Hlen2. unfold VerifyEncShareBatch.
  rewrite (proj2 (lengths_checked _ _ _) (conj Hlen1 Hlen2)).
  now rewrite VerifyEncShareBatch_loop_filter.
Qed.

Lemma VerifyDecShareBatch_equal_lengths (G : Point) (X : list Point)
    (encShares decShares : list PubVerShare) :
  length X = length encShares -> length encShares = length decShares ->
  VerifyDecShareBatch G X encShares decShares
  = (map (fun row => snd (snd row))
       (filter (dec_ok G) (dec_rows X encShares decShares)),
     None).
Proof.
  intros Hlen1 Hlen2. unfold VerifyDecShareBatch.
  rewrite (proj2 (lengths_checked _ _ _) (conj Hlen1 Hlen2)).
  now rewrite VerifyDecShareBatch_loop_filter.
Qed.

End Batch.

(** ** Consequences of the laws for points *)

Section PointLemmas.

Context {g : Group} {gl : GroupLaws g}.

Add Field ScalarFieldP : Scalar_field.

Lemma Point_Mul_Zero (P : Point) : (P * 0%F)%P = Point_Null.
Proof.
  assert (E : (P * 0%F + P * 0%F = P * 0%F)%P).
  { rewrite <- Point_Mul_Add_r. f_equal. ring. }
  transitivity ((P * 0%F + P * 0%F) + Point_Neg (P * 0%F))%P.
  - now rewrite <- Point_Add_assoc, Point_Add_Neg, Point_Add_Null.
  - rewrite E. apply Point_Add_Neg.
Qed.

Lemma Point_Mul_Inv (P : Point) (x : Scalar) :
  x <> 0%F -> ((P * x) * Scalar_Inv x)%P = P.
Proof.
  intros Hx. rewrite Point_Mul_Mul.
  replace (x * / x)%F with 1%F by (field; exact Hx).
  apply Point_Mul_One.
Qed.

Lemma Point_Mul_Inv_Mul (P : Point) (x : Scalar) :
  x <> 0%F -> ((P * Scalar_Inv x) * x)%P = P.
Proof.
  intros Hx. rewrite Point_Mul_Mul.
  replace (/ x * x)%F with 1%F by (field; exact Hx).
  apply Point_Mul_One.
Qed.

(** Evaluating the commitments of a polynomial is committing to its
    value. *)
Lemma commit_horner (H : Point) (cs : list Scalar) (x : Scalar) :
  fold_right (fun c v => (v * x + c)%P) Point_Null
    (map (fun c => (H * c)%P) cs)
  = (H * horner cs x)%P.
Proof.
  induction cs as [|c cs IH]; simpl.
  - symmetry. apply Point_Mul_Zero.
  - rewrite IH, Point_Mul_Mul, <- Point_Mul_Add_r. reflexivity.
Qed.

Lemma fold_left_sprod (f : Scalar -> Scalar) (l : list Scalar) (a : Scalar) :
  fold_left (fun acc xj => (acc * f xj)%F) l a = (a * sprod (map f l))%F.
Proof.
  revert a. induction l as [|x l IH]; intros a; simpl.
  - ring.
  - rewrite IH. ring.
Qed.

Lemma lagrange_coeff_sprod (xi : Scalar) (others : list Scalar) :
  lagrange_coeff xi others
  = (sprod others / sprod (map (fun xj => xj - xi) others))%F.
Proof.
  unfold lagrange_coeff.
  rewrite (fold_left_sprod (fun xj => xj) others),
          (fold_left_sprod (fun xj => (xj - xi)%F) others), map_id.
  f_equal; ring.
Qed.

End PointLemmas.

(** ** The implementation of the proof package meets its laws *)

Section ChaumPedersen.

Context {g : Group} (hash : list Point -> Scalar).

Context {gl : GroupLaws g}.

Add Field ScalarFieldCP : Scalar_field.

Lemma CP_response (P : Point) (v x c : Scalar) :
  (P * (v - x * c)%F + (P * x) * c)%P = (P * v)%P.
Proof.
  rewrite Point_Mul_Mul, <- Point_Mul_Add_r. f_equal. ring.
Qed.

Lemma CP_New_complete (G H : Point) (x : Scalar) (r : Stream) :
  exists p r',
    CP_New hash G H x r = (Ok (p, (G * x)%P, (H * x)%P), r') /\
    CP_Verify p G H (G * x)%P (H * x)%P = true.
Proof.
  eexists. eexists. split; [reflexivity|].
  unfold CP_Verify. simpl. rewrite !CP_response.
  apply andb_true_iff. split; now apply Point_Equal_eq.
Qed.

Lemma CP_NewBatch_loop_complete (Gs : list Point) :
  forall (Hs : list Point) (xs : list Scalar) (r : Stream),
    length Gs = length Hs -> length Hs = length xs ->
    exists ps r',
      CP_NewBatch_loop hash Gs Hs xs r
      = (Ok (ps, map (fun Gx => (fst Gx * snd Gx)%P) (combine Gs xs),
                 map (fun Hx => (fst Hx * snd Hx)%P) (combine Hs xs)), r') /\
      Forall2 (fun p GHx =>
                 CP_Verify p (fst (fst GHx)) (snd (fst GHx))
                   (fst (fst GHx) * snd GHx)%P
                   (snd (fst GHx) * snd GHx)%P = true)
              ps (combine (combine Gs Hs) xs).
Proof.
  induction Gs as [|G Gs IH]; intros [|H Hs] [|x xs] r Hlen1 Hlen2;
    simpl in *; try discriminate.
  - exists [], r. split; [reflexivity | constructor].
  - destruct (CP_New_complete G H x r) as (p & r1 & E1 & Hp).
    destruct (IH Hs xs r1) as (ps & r2 & E2 & Hps); [lia | lia |].
    exists (p :: ps), r2. split.
    + unfold bind at 1. rewrite E1. unfold bind at 1. rewrite E2.
      reflexivity.
    + constructor; assumption.
Qed.

Lemma ChaumPedersen_laws : ProofPkgLaws g (ChaumPedersen hash).
Proof.
  split.
  - exact CP_New_complete.
  - intros Gs Hs xs r Hlen1 Hlen2. simpl. unfold CP_NewBatch.
    rewrite (proj2 (lengths_checked _ _ _) (conj Hlen1 Hlen2)).
    now apply CP_NewBatch_loop_complete.
Qed.

End ChaumPedersen.

Lemma F7_eqb_eq (a b : F7) : F7_eqb a b = true <-> a = b.
Proof. destruct a, b; vm_compute; split; congruence. Qed.

Lemma F7_field :
  field_theory f0 f1 F7_add F7_mul F7_sub F7_neg F7_div F7_inv (@eq F7).
Proof.
  constructor.
  - constructor.
    + intros []; reflexivity.
    + intros [] []; reflexivity.
    + intros [] [] []; reflexivity.
    + intros []; reflexivity.
    + intros [] []; reflexivity.
    + intros [] [] []; reflexivity.
    + intros [] [] []; reflexivity.
    + reflexivity.
    + intros []; reflexivity.
  - discriminate.
  - reflexivity.
  - intros [] Hp; try reflexivity. now elim Hp.
Qed.

Lemma F7_laws : GroupLaws F7_group.
Proof.
  constructor; simpl.
  - exact F7_field.
  - exact F7_eqb_eq.
  - exact F7_eqb_eq.
  - intros [] []; reflexivity.
  - intros [] [] []; reflexivity.
  - intros []; reflexivity.
  - intros []; reflexivity.
  - reflexivity.
  - intros []; reflexivity.
  - intros [] [] []; reflexivity.
  - intros [] [] []; reflexivity.
  - intros [] [] []; reflexivity.
Qed.

Lemma F7_proofs_laws : ProofPkgLaws F7_group F7_proofs.
Proof. exact (ChaumPedersen_laws (g := F7_group) F7_hash (gl := F7_laws)). Qed.

(** ** The verification and decryption operations *)

Section Operations.

Context {g : Group} {pp : ProofPkg g}.

Local Open Scope Z_scope.

(** The error of [VerifyEncShare] is [errorEncVerification]. *)
Lemma VerifyEncShare_error (H X : Point) (poly : PubPoly)
    (encShare : PubVerShare) (err : error) :
  VerifyEncShare H X poly encShare = Some err -> err = errorEncVerification.
Proof.
  unfold VerifyEncShare.
  destruct (negb (DLEQProof_Verify _ H X _ _)); congruence.
Qed.

(** [DecShare] of a share that verifies returns the share of the proof
    that [NewDLEQProof] generates. *)
Lemma DecShare_verified (H X : Point) (poly : PubPoly) (x : Scalar)
    (encShare : PubVerShare) (r r' : Stream) (P : DLEQProof)
    (xG xV : Point) :
  let V := (PubShare.V (PubVerShare.S encShare) * Scalar_Inv x)%P in
  VerifyEncShare H X poly encShare = None ->
  NewDLEQProof Point_Base V x r = (Ok (P, xG, xV), r') ->
  DecShare H X poly x encShare r
  = ((Some (PubVerShare.mk
              (PubShare.mk (PubShare.I (PubVerShare.S encShare)) V) P),
      None), r').
Proof.
  intros V Hv E. unfold DecShare. rewrite Hv. fold V.
  unfold bind. rewrite E. reflexivity.
Qed.

(** C7. [VerifyEncShare] evaluates the public commitment polynomial at the
    index of the encrypted share to obtain [sH]; it returns a nil error
    exactly when the proof of the share verifies the statement
    [log_H(sH) == log_X(sX)] over the bases [H], [X] and the values [sH],
    [sX], and it returns [errorEncVerification] in every other case, which
    is its only error. *)
Theorem VerifyEncShare_spec (H X : Point) (poly : PubPoly)
    (encShare : PubVerShare) :
  let sH := PubPoly_Eval poly (PubShare.I (PubVerShare.S encShare)) in
  let verified :=
    DLEQProof_Verify (PubVerShare.P encShare) H X (PubShare.V sH)
      (PubShare.V (PubVerShare.S encShare)) in
  (VerifyEncShare H X poly encShare = None <-> verified = true) /\
  (VerifyEncShare H X poly encShare = Some errorEncVerification
   <-> verified = false) /\
  (forall err, VerifyEncShare H X poly encShare = Some err ->
               err = errorEncVerification).
Proof.
  intros sH verified. unfold VerifyEncShare. fold sH. fold verified.
  destruct verified; simpl; repeat split; intros; try congruence.
Qed.

(** [DecShare] returns a share with every nil error. *)
Lemma DecShare_share (H X : Point) (poly : PubPoly) (x : Scalar)
    (encShare : PubVerShare) (r r' : Stream) (res : option PubVerShare) :
  DecShare H X poly x encShare r = ((res, None), r') ->
  exists decShare, res = Some decShare.
Proof.
  unfold DecShare. destruct (VerifyEncShare H X poly encShare).
  - unfold ret. congruence.
  - unfold bind. destruct (NewDLEQProof _ _ x r) as [[[[P ?] ?]|err] r1];
      unfold ret; intros E; inversion E; eauto.
Qed.

(** C8. [DecShare] first verifies the encrypted share as [VerifyEncShare]
    does; when that fails it returns the error of the verification, which
    is [errorEncVerification], no share, and draws nothing from the random
    stream. Otherwise it generates the decryption proof for the point
    [V = encShare.S.V * x^-1], and the share it returns carries the index
    of the encrypted share and that point [V]. *)
Theorem DecShare_spec (H X : Point) (poly : PubPoly) (x : Scalar)
    (encShare : PubVerShare) (r : Stream) :
  let V := (PubShare.V (PubVerShare.S encShare) * Scalar_Inv x)%P in
  (VerifyEncShare H X poly encShare <> None ->
   DecShare H X poly x encShare r = ((None, Some errorEncVerification), r)) /\
  (VerifyEncShare H X poly encShare = None ->
   forall (P : DLEQProof) (xG xV : Point) (r' : Stream),
     NewDLEQProof Point_Base V x r = (Ok (P, xG, xV), r') ->
     DecShare H X poly x encShare r
     = ((Some (PubVerShare.mk
                 (PubShare.mk (PubShare.I (PubVerShare.S encShare)) V) P),
         None), r')) /\
  (forall (decShare : PubVerShare) (err : option error) (r' : Stream),
     DecShare H X poly x encShare r = ((Some decShare, err), r') ->
     VerifyEncShare H X poly encShare = None /\
     PubShare.I (PubVerShare.S decShare)
     = PubShare.I (PubVerShare.S encShare) /\
     PubShare.V (PubVerShare.S decShare) = V).
Proof.
  intros V. split; [|split].
  - unfold DecShare.
    destruct (VerifyEncShare H X poly encShare) as [err|] eqn:Ev;
      [|congruence].
    intros _. now rewrite (VerifyEncShare_error H X poly encShare err Ev).
  - intros Hv P xG xV r' E.
    now apply DecShare_verified with (xG := xG) (xV := xV).
  - unfold DecShare. fold V.
    destruct (VerifyEncShare H X poly encShare) as [err|] eqn:Ev.
    + unfold ret. intros; congruence.
    + intros decShare err r'. unfold bind.
      destruct (NewDLEQProof Point_Base V x r) as [[[[P ?] ?]|e] r1];
        unfold ret; intros E; inversion E; subst. simpl. auto.
Qed.

(** C4. A batch operation whose input sequences do not all have the same
    length returns [errorDifferentLengths] and nil output sequences. No
    share is verified and no proof is generated: the result is this one
    whatever the verifier of the proof package answers, [DecShareBatch]
    leaves the random stream where it was, and, on the store, the call
    returns in the store it was started in, whose record of the calls
    into package [proof] is what it was. *)
Theorem batch_different_lengths (H G : Point) (X : list Point)
    (polys : list PubPoly) (x : Scalar)
    (encShares decShares : list PubVerShare) (r : Stream) :
  (~ (length X = length polys /\ length polys = length encShares) ->
   VerifyEncShareBatch H X polys encShares
   = ([], [], Some errorDifferentLengths) /\
   DecShareBatch H X polys x encShares r
   = (([], [], [], Some errorDifferentLengths), r)) /\
  (~ (length X = length encShares /\ length encShares = length decShares) ->
   VerifyDecShareBatch G X encShares decShares
   = ([], Some errorDifferentLengths)) /\
  (forall (st : Store) (H' G' x' : nat) (X' : list nat)
          (polys' : list PubPolyObj)
          (encShares' decShares' : list PubVerShareObj.t),
     (~ (length X' = length polys' /\ length polys' = length encShares') ->
      Heap.VerifyEncShareBatch H' X' polys' encShares' st
      = (([], [], Some errorDifferentLengths), st) /\
      Heap.DecShareBatch H' X' polys' x' encShares' st
      = (([], [], [], Some errorDifferentLengths), st)) /\
     (~ (length X' = length encShares' /\
         length encShares' = length decShares') ->
      Heap.VerifyDecShareBatch G' X' encShares' decShares' st
      = (([], Some errorDifferentLengths), st))).
Proof.
  split; [|split]; [intros Hne | intros Hne |].
  - unfold VerifyEncShareBatch, DecShareBatch.
    rewrite (lengths_mismatch _ _ _ Hne). split; reflexivity.
  - unfold VerifyDecShareBatch.
    rewrite (lengths_mismatch _ _ _ Hne). reflexivity.
  - intros st H' G' x' X' polys' encShares' decShares'. split; intros Hne.
    + unfold Heap.VerifyEncShareBatch, Heap.DecShareBatch.
      rewrite (lengths_mismatch _ _ _ Hne). split; reflexivity.
    + unfold Heap.VerifyDecShareBatch.
      rewrite (lengths_mismatch _ _ _ Hne). reflexivity.
Qed.

(** C5. On inputs of equal lengths the batch verifiers return a nil error;
    their outputs are the co-indexed entries whose share passes its
    verification, so that an entry whose share fails is left out and the
    call does not fail. *)
Theorem batch_verifiers_nil_error (H G : Point) (X : list Point)
    (polys : list PubPoly) (encShares decShares : list PubVerShare) :
  (length X = length polys -> length polys = length encShares ->
   VerifyEncShareBatch H X polys encShares
   = (map fst (filter (enc_ok H) (enc_rows X polys encShares)),
      map (fun row => snd (snd row))
        (filter (enc_ok H) (enc_rows X polys encShares)),
      None)) /\
  (length X = length encShares -> length encShares = length decShares ->
   VerifyDecShareBatch G X encShares decShares
   = (map (fun row => snd (snd row))
        (filter (dec_ok G) (dec_rows X encShares decShares)),
      None)).
Proof.
  split.
  - apply VerifyEncShareBatch_equal_lengths.
  - apply VerifyDecShareBatch_equal_lengths.
Qed.

(** C6. On inputs of equal lengths, the two sequences that
    [VerifyEncShareBatch] returns have the same length, and pairing them
    entry by entry gives input pairs [(X[i], encShares[i])] in their input
    order: the pairs whose share passes its verification, the others
    removed from both. *)
Theorem VerifyEncShareBatch_aligned (H : Point) (X : list Point)
    (polys : list PubPoly) (encShares : list PubVerShare) :
  length X = length polys -> length polys = length encShares ->
  let K := fst (fst (VerifyEncShareBatch H X polys encShares)) in
  let E := snd (fst (VerifyEncShareBatch H X polys encShares)) in
  length K = length E /\
  subseq (combine K E) (combine X encShares) /\
  combine K E
  = map (fun row => (fst row, snd (snd row)))
      (filter (enc_ok H) (enc_rows X polys encShares)).
Proof.
  intros Hlen1 Hlen2 K E. subst K E.
  rewrite (VerifyEncShareBatch_equal_lengths H X polys encShares Hlen1 Hlen2).
  simpl.
  assert (Ecomb : forall rows : list (Point * (PubPoly * PubVerShare)),
             combine (map fst rows) (map (fun row => snd (snd row)) rows)
             = map (fun row => (fst row, snd (snd row))) rows).
  { induction rows as [|row rows IH]; simpl; [reflexivity | now rewrite IH]. }
  split; [now rewrite !length_map|]. split; [|apply Ecomb].
  rewrite Ecomb.
  replace (combine X encShares)
    with (map (fun row : Point * (PubPoly * PubVerShare) =>
                 (fst row, snd (snd row))) (enc_rows X polys encShares)).
  - apply subseq_map, subseq_filter.
  - unfold enc_rows. clear Ecomb. revert polys encShares Hlen1 Hlen2.
    induction X as [|Xi X IH]; intros [|poly polys] [|encShare encShares]
      Hlen1 Hlen2; simpl in *; try discriminate; [reflexivity|].
    rewrite IH by lia. reflexivity.
Qed.

(** C3. On inputs of equal lengths [RecoverSecret] runs
    [VerifyDecShareBatch] and, when fewer than [t] shares survive it,
    returns [errorTooFewShares] and no secret; so it does with exactly
    [t-1] surviving shares, and with no share at all for a threshold of at
    least one. *)
Theorem RecoverSecret_too_few (G : Point) (X : list Point)
    (encShares decShares : list PubVerShare) (t n : Z) :
  length X = length encShares -> length encShares = length decShares ->
  let D := fst (VerifyDecShareBatch G X encShares decShares) in
  snd (VerifyDecShareBatch G X encShares decShares) = None /\
  (Z.of_nat (length D) < t ->
   RecoverSecret G X encShares decShares t n
   = (None, Some errorTooFewShares)) /\
  (Z.of_nat (length D) = t - 1 ->
   RecoverSecret G X encShares decShares t n
   = (None, Some errorTooFewShares)) /\
  (length D = 0%nat -> 1 <= t ->
   RecoverSecret G X encShares decShares t n
   = (None, Some errorTooFewShares)) /\
  (t <= Z.of_nat (length D) ->
   RecoverSecret G X encShares decShares t n
   = RecoverCommit (map PubVerShare.S D) t n).
Proof.
  intros Hlen1 Hlen2 D. subst D. unfold RecoverSecret.
  rewrite (VerifyDecShareBatch_equal_lengths G X encShares decShares
             Hlen1 Hlen2).
  simpl. split; [reflexivity|].
  repeat split; intros; match goal with
    | |- context [(?a <? ?b)] => destruct (Z.ltb_spec a b)
    end; try reflexivity; lia.
Qed.

End Operations.

(** ** Issue, decrypt, recover *)

Section RoundTrip.

Context {g : Group} {gl : GroupLaws g} {pp : ProofPkg g}
        {ppl : ProofPkgLaws g pp}.

Local Open Scope Z_scope.

Add Field ScalarFieldRT : Scalar_field.

Lemma Scalar_Picks_length (k : nat) (r : Stream) :
  length (fst (Scalar_Picks k r)) = k.
Proof.
  revert r. induction k as [|k IH]; intros r; simpl.
  - reflexivity.
  - unfold bind, Scalar_Pick. specialize (IH (fun i => r (S i))).
    destruct (Scalar_Picks k (fun i => r (S i))). simpl in *. now rewrite IH.
Qed.

Lemma indices_upto_length (n : Z) : length (indices_upto n) = Z.to_nat n.
Proof. unfold indices_upto. now rewrite length_map, length_seq. Qed.

Lemma indices_upto_range (n i : Z) : In i (indices_upto n) -> 1 <= i <= n.
Proof.
  unfold indices_upto. intros Hin. apply in_map_iff in Hin.
  destruct Hin as (k & <- & Hk). apply in_seq in Hk. lia.
Qed.

Lemma indices_upto_NoDup (n : Z) : NoDup (indices_upto n).
Proof.
  unfold indices_upto. apply Injective_map_NoDup.
  - intros a b E. lia.
  - apply seq_NoDup.
Qed.

Lemma EncShares_pack_ok (H : Point) (cs : list Scalar) (idx : list Z) :
  forall (X : list Point) (proofs : list DLEQProof),
    length idx = length X ->
    Forall2 (fun p GHx =>
               DLEQProof_Verify p (fst (fst GHx)) (snd (fst GHx))
                 (fst (fst GHx) * snd GHx)%P
                 (snd (fst GHx) * snd GHx)%P = true)
      proofs
      (combine (combine (map (fun _ => H) idx) X)
         (map (fun i => horner cs (Scalar_SetInt64 i)) idx)) ->
    Forall2 (enc_share_ok H cs) (combine idx X)
      (EncShares_pack idx
         (map (fun Xv => (fst Xv * snd Xv)%P)
            (combine X (map (fun i => horner cs (Scalar_SetInt64 i)) idx)))
         proofs).
Proof.
  induction idx as [|i idx IH]; intros [|Xi X] proofs Hlen Hver;
    simpl in *; try discriminate.
  - constructor.
  - inversion Hver as [|p GHx proofs' rest Hp Hrest]; subst. simpl in *.
    constructor.
    + repeat split; assumption.
    + apply IH; [lia | assumption].
Qed.

(** [EncShares] succeeds, and every encrypted share is the encryption of
    the value of one polynomial with constant term [secret] and [t]
    coefficients, with a proof that verifies. *)
Lemma EncShares_ok (H : Point) (X : list Point) (secret : Scalar) (t : Z)
    (r : Stream) :
  1 <= t ->
  exists cs encShares r',
    length cs = Z.to_nat (t - 1) /\
    EncShares H X secret t r
    = ((encShares, Some (PriPoly_Commit {| coeffs := secret :: cs |} H), None),
       r') /\
    Forall2 (enc_share_ok H (secret :: cs))
      (combine (indices_upto (Z.of_nat (length X))) X) encShares.
Proof.
  intros Ht. unfold EncShares, NewPriPoly.
  unfold bind at 1. unfold bind at 1.
  pose proof (Scalar_Picks_length (Z.to_nat (t - 1)) r) as Hcs.
  destruct (Scalar_Picks (Z.to_nat (t - 1)) r) as [cs r1]. simpl in Hcs.
  unfold ret at 1.
  set (idx := indices_upto (Z.of_nat (length X))).
  set (p := {| coeffs := secret :: cs |}).
  unfold PriPoly_Shares. fold idx. rewrite !map_map.
  unfold PriPoly_Eval. cbn [PriShare.I PriShare.V coeffs].
  assert (Hidx : length idx = length X).
  { unfold idx. rewrite indices_upto_length. lia. }
  destruct (NewDLEQProofBatch_complete
              (map (fun _ => H) idx) X
              (map (fun i => horner (secret :: cs) (Scalar_SetInt64 i)) idx) r1)
    as (proofs & r2 & E & Hver).
  { now rewrite length_map. }
  { now rewrite length_map. }
  exists cs.
  eexists. exists r2. split; [exact Hcs|].
  unfold bind. unfold p. cbn [coeffs]. rewrite E. unfold ret.
  split; [reflexivity|].
  rewrite map_id. apply EncShares_pack_ok; assumption.
Qed.

Lemma VerifyEncShare_ok (H : Point) (cs : list Scalar) (iX : Z * Point)
    (encShare : PubVerShare) :
  enc_share_ok H cs iX encShare ->
  VerifyEncShare H (snd iX) (PriPoly_Commit {| coeffs := cs |} H) encShare
  = None.
Proof.
  intros (HI & _ & Hver). unfold VerifyEncShare, PubPoly_Eval, PriPoly_Commit.
  cbn [commits coeffs PubShare.V]. rewrite commit_horner, HI, Hver.
  reflexivity.
Qed.

(** A recipient whose key pair is [(xi, Base * xi)] with [xi <> 0] decrypts
    its share, and what it obtains is the commitment to the value of the
    polynomial under the base point, with a proof that verifies. *)
Lemma DecShare_ok (H : Point) (cs : list Scalar) (n i : Z) (xi : Scalar)
    (encShare : PubVerShare) :
  enc_share_ok H cs (i, (Point_Base * xi)%P) encShare ->
  xi <> 0%F -> 1 <= i <= n ->
  forall r : Stream,
    (exists decShare r',
       DecShare H (Point_Base * xi)%P (PriPoly_Commit {| coeffs := cs |} H)
         xi encShare r = ((Some decShare, None), r')) /\
    (forall decShare r',
       DecShare H (Point_Base * xi)%P (PriPoly_Commit {| coeffs := cs |} H)
         xi encShare r = ((Some decShare, None), r') ->
       dec_row_ok cs n ((Point_Base * xi)%P, (encShare, decShare)) /\
       row_index ((Point_Base * xi)%P, (encShare, decShare)) = i).
Proof.
  intros Henc Hxi Hi r.
  pose proof (VerifyEncShare_ok H cs _ encShare Henc) as Hv. simpl in Hv.
  destruct Henc as (HI & HV & _). simpl in HI, HV.
  set (V := (PubShare.V (PubVerShare.S encShare) * Scalar_Inv xi)%P).
  destruct (NewDLEQProof_complete Point_Base V xi r) as (P & r1 & E & HP).
  pose proof (DecShare_verified H (Point_Base * xi)%P
                (PriPoly_Commit {| coeffs := cs |} H) xi encShare r r1 P
                _ _ Hv E) as Hdec.
  cbv zeta in Hdec. fold V in Hdec.
  split.
  - eauto.
  - intros decShare r' E'. rewrite Hdec in E'. inversion E'; subst decShare r'.
    unfold dec_row_ok, row_index, VerifyDecShare. cbn [fst snd PubVerShare.S
      PubVerShare.P PubShare.I PubShare.V].
    split; [|exact HI].
    assert (EV : (V * xi)%P = PubShare.V (PubVerShare.S encShare)).
    { unfold V. now apply Point_Mul_Inv_Mul. }
    rewrite <- EV, HP, HI.
    split; [exact Hi|]. split; [|reflexivity].
    unfold V. rewrite HV, !Point_Mul_Mul. f_equal. field. exact Hxi.
Qed.

Lemma dec_rows_maps (rows : list (Point * (PubVerShare * PubVerShare))) :
  dec_rows (map fst rows) (map (fun row => fst (snd row)) rows)
    (map (fun row => snd (snd row)) rows) = rows.
Proof.
  unfold dec_rows. induction rows as [|[X [e d]] rows IH]; simpl.
  - reflexivity.
  - now rewrite IH.
Qed.

Lemma filter_all {A : Type} (f : A -> bool) (l : list A) :
  Forall (fun a => f a = true) l -> filter f l = l.
Proof.
  induction 1 as [|a l Ha _ IH]; simpl.
  - reflexivity.
  - now rewrite Ha, IH.
Qed.

Lemma picks_map {A B : Type} (f : A -> B) (l pre : list A) :
  picks (map f pre) (map f l)
  = map (fun ao => (f (fst ao), map f (snd ao))) (picks pre l).
Proof.
  revert pre. induction l as [|a l IH]; intros pre; simpl.
  - reflexivity.
  - rewrite <- map_app. f_equal.
    change [f a] with (map f [a]). rewrite <- map_app. apply IH.
Qed.

Lemma picks_In {A : Type} (l pre : list A) (ao : A * list A) :
  In ao (picks pre l) -> In (fst ao) l.
Proof.
  revert pre. induction l as [|a l IH]; intros pre Hin; simpl in *.
  - contradiction.
  - destruct Hin as [<- | Hin]; [now left | right; eapply IH; eauto].
Qed.

(** The accumulation of [RecoverCommit] over shares that commit to the
    values of a polynomial commits to the interpolated value. *)
Lemma RecoverCommit_fold (cs : list Scalar)
    (ps : list (PubShare * list PubShare)) (a : Scalar) :
  (forall so, In so ps ->
     PubShare.V (fst so)
     = (Point_Base * horner cs (share_node (fst so)))%P) ->
  fold_left
    (fun Acc so =>
       (Acc + PubShare.V (fst so)
              * lagrange_coeff (share_node (fst so))
                  (map share_node (snd so)))%P)
    ps (Point_Base * a)%P
  = (Point_Base
     * (a + ssum (map (fun xo =>
                         horner cs (fst xo)
                         * (sprod (snd xo)
                            / sprod (map (fun xj => xj - fst xo) (snd xo))))
                    (map (fun so => (share_node (fst so),
                                     map share_node (snd so))) ps)))%F)%P.
Proof.
  revert a. induction ps as [|so ps IH]; intros a Hps; simpl.
  - f_equal. ring.
  - rewrite (Hps so (or_introl eq_refl)), Point_Mul_Mul, <- Point_Mul_Add_r.
    rewrite IH by (intros so' Hso'; apply Hps; now right).
    f_equal. rewrite lagrange_coeff_sprod. ring.
Qed.

(** Recovery from distinct entries, at least [t] of them, whose decrypted
    shares commit to the values of a polynomial with at most [t]
    coefficients gives the commitment to its constant term. *)
Lemma RecoverSecret_rows (cs : list Scalar) (t n : Z)
    (rows : list (Point * (PubVerShare * PubVerShare))) :
  distinct_nodes n ->
  Forall (dec_row_ok cs n) rows ->
  NoDup (map row_index rows) ->
  (length cs <= Z.to_nat t)%nat -> t <= Z.of_nat (length rows) ->
  RecoverSecret Point_Base (map fst rows)
    (map (fun row => fst (snd row)) rows)
    (map (fun row => snd (snd row)) rows) t n
  = (Some (Point_Base * horner cs 0%F)%P, None).
Proof.
  intros Hnodes Hrows Hnd Hcs Ht. unfold RecoverSecret.
  rewrite VerifyDecShareBatch_equal_lengths by (now rewrite !length_map).
  rewrite dec_rows_maps, filter_all.
  2:{ eapply Forall_impl; [|exact Hrows]. intros row (_ & _ & Hv).
      unfold dec_ok. now rewrite Hv. }
  rewrite length_map.
  destruct (Z.ltb_spec (Z.of_nat (length rows)) t) as [Hlt|_]; [lia|].
  unfold RecoverCommit. rewrite !length_map.
  destruct (Z.ltb_spec (Z.of_nat (length rows)) t) as [Hlt|_]; [lia|].
  f_equal. f_equal.
  set (shares := map PubVerShare.S (map (fun row => snd (snd row)) rows)).
  assert (Hshares : forall s, In s shares ->
            1 <= PubShare.I s <= n /\
            PubShare.V s = (Point_Base * horner cs (share_node s))%P).
  { intros s Hs. unfold shares in Hs. rewrite map_map in Hs.
    apply in_map_iff in Hs. destruct Hs as (row & <- & Hrow).
    rewrite Forall_forall in Hrows. destruct (Hrows row Hrow) as (Hr & HV & _).
    split; assumption. }
  rewrite <- (Point_Mul_Zero Point_Base).
  rewrite (RecoverCommit_fold cs).
  2:{ intros so Hso. apply Hshares. eapply picks_In; eauto. }
  f_equal.
  rewrite <- (picks_map share_node shares []).
  change (map share_node []) with (@nil Scalar).
  rewrite lagrange_at_0.
  - ring.
  - replace (map share_node shares)
      with (map Scalar_SetInt64 (map row_index rows))
      by (unfold shares; now rewrite !map_map).
    assert (Hrange : forall i, In i (map row_index rows) -> 1 <= i <= n).
    { intros i Hi. apply in_map_iff in Hi. destruct Hi as (row & <- & Hrow).
      rewrite Forall_forall in Hrows. now destruct (Hrows row Hrow). }
    apply Injective_map_NoDup_in; [|exact Hnd].
    intros i j Hi Hj E. apply Hnodes; auto.
  - unfold shares. rewrite !length_map. lia.
Qed.

Lemma run_result {A S : Type} (m : A * S) (a : A) :
  fst m = a -> exists s, m = (a, s).
Proof. intros <-. exists (snd m). now destruct m. Qed.

Lemma DecShare_each_Decrypted (H : Point) (pubPoly : PubPoly)
    (r : Stream) (X : list Point) :
  forall (x : list Scalar) (encShares decShares : list PubVerShare),
    DecShare_each H pubPoly X x encShares r = Some decShares ->
    Decrypted H pubPoly X x encShares decShares.
Proof.
  induction X as [|Xi X IH]; intros [|xi x] [|e encShares] decShares E;
    simpl in E; try discriminate.
  - inversion E. constructor.
  - destruct (fst (DecShare H Xi pubPoly xi e r)) as [[d|] [err|]] eqn:Ed;
      try discriminate.
    destruct (DecShare_each H pubPoly X x encShares r) as [ds|] eqn:Eds;
      try discriminate.
    inversion E; subst decShares.
    destruct (run_result _ _ Ed) as (r' & Er).
    econstructor; eauto.
Qed.

Lemma Decrypted_lengths (H : Point) (pubPoly : PubPoly) (X : list Point)
    (x : list Scalar) (encShares decShares : list PubVerShare) :
  Decrypted H pubPoly X x encShares decShares ->
  length X = length encShares /\ length encShares = length decShares.
Proof. induction 1; simpl; [auto | lia]. Qed.

Lemma dec_rows_projections (X : list Point) :
  forall encShares decShares : list PubVerShare,
    length X = length encShares -> length encShares = length decShares ->
    map fst (dec_rows X encShares decShares) = X /\
    map (fun row => fst (snd row)) (dec_rows X encShares decShares)
    = encShares /\
    map (fun row => snd (snd row)) (dec_rows X encShares decShares)
    = decShares.
Proof.
  unfold dec_rows.
  induction X as [|Xi X IH]; intros [|e encShares] [|d decShares] Hlen1 Hlen2;
    simpl in *; try discriminate; [auto|].
  destruct (IH encShares decShares) as (E1 & E2 & E3); [lia | lia |].
  now rewrite E1, E2, E3.
Qed.

(** Every recipient can decrypt its share of an issue run. *)
Lemma Decrypted_exists (H : Point) (cs : list Scalar) (n : Z)
    (idx : list Z) :
  forall (x : list Scalar) (encShares : list PubVerShare),
    length idx = length x ->
    (forall i, In i idx -> 1 <= i <= n) ->
    Forall (fun xi => xi <> 0%F) x ->
    Forall2 (enc_share_ok H cs)
      (combine idx (map (fun xi => (Point_Base * xi)%P) x)) encShares ->
    exists decShares,
      Decrypted H (PriPoly_Commit {| coeffs := cs |} H)
        (map (fun xi => (Point_Base * xi)%P) x) x encShares decShares.
Proof.
  induction idx as [|i idx IH]; intros [|xi x] encShares Hlen Hidx Hx Henc;
    simpl in *; try discriminate.
  - inversion Henc; subst. exists []. constructor.
  - inversion Henc as [|iX e rest encShares' He Hrest]; subst.
    inversion Hx as [|? ? Hxi Hx']; subst.
    destruct (IH x encShares') as (decShares & Hdec); auto.
    destruct (DecShare_ok H cs n i xi e He Hxi (Hidx i (or_introl eq_refl))
                (fun _ => xi)) as ((d & r' & E) & _).
    exists (d :: decShares). econstructor; eauto.
Qed.

(** What the recipients decrypt are entries that [RecoverSecret] accepts,
    with the indices of the issue run. *)
Lemma Decrypted_rows_ok (H : Point) (cs : list Scalar) (n : Z)
    (idx : list Z) :
  forall (x : list Scalar) (encShares decShares : list PubVerShare),
    length idx = length x ->
    (forall i, In i idx -> 1 <= i <= n) ->
    Forall (fun xi => xi <> 0%F) x ->
    Forall2 (enc_share_ok H cs)
      (combine idx (map (fun xi => (Point_Base * xi)%P) x)) encShares ->
    Decrypted H (PriPoly_Commit {| coeffs := cs |} H)
      (map (fun xi => (Point_Base * xi)%P) x) x encShares decShares ->
    Forall (dec_row_ok cs n)
      (dec_rows (map (fun xi => (Point_Base * xi)%P) x) encShares decShares) /\
    map row_index
      (dec_rows (map (fun xi => (Point_Base * xi)%P) x) encShares decShares)
    = idx.
Proof.
  induction idx as [|i idx IH];
    intros [|xi x] encShares decShares Hlen Hidx Hx Henc Hdec;
    simpl in *; try discriminate.
  - inversion Hdec; subst. split; [constructor | reflexivity].
  - inversion Henc as [|iX e rest encShares' He Hrest]; subst.
    inversion Hx as [|? ? Hxi Hx']; subst.
    inversion Hdec as [|? ? ? d ? ? ? decShares' r r' E Hdec']; subst.
    destruct (IH x encShares' decShares') as (Hrows & Hindex); auto.
    destruct (DecShare_ok H cs n i xi e He Hxi (Hidx i (or_introl eq_refl)) r)
      as (_ & Hd).
    destruct (Hd d r' E) as (Hrow & Hi).
    unfold dec_rows in *. simpl. split.
    + constructor; assumption.
    + now rewrite Hi, Hindex.
Qed.

Lemma NoDup_map_incl {A B : Type} (f : A -> B) (l l' : list A) :
  NoDup (map f l) -> incl l' l -> NoDup l' -> NoDup (map f l').
Proof.
  intros Hnd Hincl Hnd'. apply Injective_map_NoDup_in; [|exact Hnd'].
  intros a a' Ha Ha' E. apply Hincl in Ha. apply Hincl in Ha'.
  clear Hincl Hnd' l'. induction l as [|c l IH]; simpl in *.
  - contradiction.
  - inversion Hnd as [|? ? Hnotin Hnd1]; subst.
    destruct Ha as [-> | Ha], Ha' as [-> | Ha']; auto.
    + exfalso. apply Hnotin. rewrite E. now apply in_map.
    + exfalso. apply Hnotin. rewrite <- E. now apply in_map.
Qed.

Lemma horner_constant_term (secret : Scalar) (cs : list Scalar) :
  horner (secret :: cs) 0%F = secret.
Proof. simpl. ring. Qed.

(** Recovery from any distinct entries of an issue run, at least [t] of
    them and in any order, gives the commitment to the secret. *)
Lemma RecoverSecret_issued (H : Point) (x : list Scalar) (secret : Scalar)
    (t : Z) (cs : list Scalar) (encShares decShares : list PubVerShare)
    (rows : list (Point * (PubVerShare * PubVerShare))) :
  let X := map (fun xi => (Point_Base * xi)%P) x in
  let n := Z.of_nat (length x) in
  1 <= t ->
  Forall (fun xi => xi <> 0%F) x ->
  distinct_nodes n ->
  length cs = Z.to_nat (t - 1) ->
  Forall2 (enc_share_ok H (secret :: cs)) (combine (indices_upto n) X)
    encShares ->
  Decrypted H (PriPoly_Commit {| coeffs := secret :: cs |} H) X x encShares
    decShares ->
  NoDup rows -> incl rows (dec_rows X encShares decShares) ->
  t <= Z.of_nat (length rows) ->
  RecoverSecret Point_Base (map fst rows)
    (map (fun row => fst (snd row)) rows)
    (map (fun row => snd (snd row)) rows) t n
  = (Some (Point_Base * secret)%P, None).
Proof.
  intros X n Ht Hx Hnodes Hcs Henc Hdec Hnd Hincl Hlen.
  assert (Hidx : length (indices_upto n) = length x).
  { rewrite indices_upto_length. unfold n. lia. }
  destruct (Decrypted_rows_ok H (secret :: cs) n (indices_upto n) x
              encShares decShares Hidx (indices_upto_range n) Hx Henc Hdec)
    as (Hrows & Hindex).
  rewrite <- (horner_constant_term secret cs).
  apply RecoverSecret_rows; auto.
  - rewrite Forall_forall in *. intros row Hrow. apply Hrows, Hincl, Hrow.
  - apply NoDup_map_incl with (l := dec_rows X encShares decShares); auto.
    fold X in Hindex. rewrite Hindex. apply indices_upto_NoDup.
  - simpl. rewrite Hcs. lia.
Qed.

(** Issue, decryption by every recipient and recovery on all shares. *)
Lemma issue_decrypt_recover (H : Point) (x : list Scalar)
    (secret : Scalar) (t : Z) (r : Stream) :
  let X := map (fun xi => (Point_Base * xi)%P) x in
  let n := Z.of_nat (length x) in
  1 <= t <= n ->
  Forall (fun xi => xi <> 0%F) x ->
  distinct_nodes n ->
  exists encShares pubPoly r',
    EncShares H X secret t r = ((encShares, Some pubPoly, None), r') /\
    (exists decShares, Decrypted H pubPoly X x encShares decShares) /\
    (forall decShares,
       Decrypted H pubPoly X x encShares decShares ->
       RecoverSecret Point_Base X encShares decShares t n
       = (Some (Point_Base * secret)%P, None)).
Proof.
  intros X n Ht Hx Hnodes.
  destruct (EncShares_ok H X secret t r)
    as (cs & encShares & r' & Hcs & E & Henc);
    [lia|].
  assert (HlenX : length X = length x) by (unfold X; now rewrite length_map).
  rewrite HlenX in Henc. fold n in Henc.
  exists encShares, (PriPoly_Commit {| coeffs := secret :: cs |} H), r'.
  split; [exact E|].
  assert (Hidx : length (indices_upto n) = length x).
  { rewrite indices_upto_length. unfold n. lia. }
  split.
  - apply (Decrypted_exists H (secret :: cs) n (indices_upto n) x encShares);
      auto using indices_upto_range.
  - intros decShares Hdec.
    destruct (Decrypted_lengths _ _ _ _ _ _ Hdec) as (Hlen1 & Hlen2).
    destruct (dec_rows_projections X encShares decShares Hlen1 Hlen2)
      as (E1 & E2 & E3).
    destruct (Decrypted_rows_ok H (secret :: cs) n (indices_upto n) x
                encShares decShares Hidx (indices_upto_range n) Hx Henc Hdec)
      as (_ & Hindex).
    assert (Hrec :
      RecoverSecret Point_Base (map fst (dec_rows X encShares decShares))
        (map (fun row => fst (snd row)) (dec_rows X encShares decShares))
        (map (fun row => snd (snd row)) (dec_rows X encShares decShares)) t n
      = (Some (Point_Base * secret)%P, None)).
    { apply RecoverSecret_issued
        with (H := H) (cs := cs) (encShares := encShares)
             (decShares := decShares); auto; try lia.
      - apply (NoDup_map_inv row_index). fold X in Hindex. rewrite Hindex.
        apply indices_upto_NoDup.
      - apply incl_refl.
      - unfold dec_rows. rewrite !length_combine. unfold n. lia. }
    now rewrite E1, E2, E3 in Hrec.
Qed.

(** C1. In a lawful group whose indices [1..n] are distinct scalars, for
    every [t] and [n] with [1 <= t <= n], every secret, and key pairs
    [(x_i, X_i = Base * x_i)] with invertible private scalars: [EncShares]
    returns encrypted shares and the commitment polynomial with a nil
    error, every recipient obtains a decrypted share from [DecShare], and
    [RecoverSecret] on all [n] decrypted shares returns the point
    [Base * secret] with a nil error. *)
Theorem EncShares_DecShare_RecoverSecret (H : Point) (x : list Scalar)
    (secret : Scalar) (t : Z) (r : Stream) :
  let X := map (fun xi => (Point_Base * xi)%P) x in
  let n := Z.of_nat (length x) in
  1 <= t <= n ->
  Forall (fun xi => xi <> 0%F) x ->
  distinct_nodes n ->
  exists encShares pubPoly r',
    EncShares H X secret t r = ((encShares, Some pubPoly, None), r') /\
    (exists decShares, Decrypted H pubPoly X x encShares decShares) /\
    (forall decShares,
       Decrypted H pubPoly X x encShares decShares ->
       RecoverSecret Point_Base X encShares decShares t n
       = (Some (Point_Base * secret)%P, None)).
Proof. exact (issue_decrypt_recover H x secret t r). Qed.

(** C2. Of the [n] decrypted shares of one issue run, under the
    conditions of C1, [RecoverSecret] applied to any at least [t] distinct
    ones with their public keys and encrypted shares, in any order, returns
    the same point as on all [n]: the point [Base * secret]. *)
Theorem RecoverSecret_any_subset (H : Point) (x : list Scalar)
    (secret : Scalar) (t : Z) (r r' : Stream)
    (encShares decShares : list PubVerShare) (pubPoly : PubPoly)
    (rows : list (Point * (PubVerShare * PubVerShare))) :
  let X := map (fun xi => (Point_Base * xi)%P) x in
  let n := Z.of_nat (length x) in
  1 <= t <= n ->
  Forall (fun xi => xi <> 0%F) x ->
  distinct_nodes n ->
  EncShares H X secret t r = ((encShares, Some pubPoly, None), r') ->
  Decrypted H pubPoly X x encShares decShares ->
  NoDup rows -> incl rows (dec_rows X encShares decShares) ->
  t <= Z.of_nat (length rows) ->
  RecoverSecret Point_Base (map fst rows)
    (map (fun row => fst (snd row)) rows)
    (map (fun row => snd (snd row)) rows) t n
  = RecoverSecret Point_Base X encShares decShares t n /\
  RecoverSecret Point_Base X encShares decShares t n
  = (Some (Point_Base * secret)%P, None).
Proof.
  intros X n Ht Hx Hnodes E Hdec Hnd Hincl Hlen.
  destruct (EncShares_ok H X secret t r)
    as (cs & encShares0 & r0 & Hcs & E0 & Henc); [lia|].
  rewrite E in E0. inversion E0; subst encShares0 pubPoly r0. clear E0.
  assert (HlenX : length X = length x) by (unfold X; now rewrite length_map).
  rewrite HlenX in Henc. fold n in Henc.
  assert (Hsub :
    RecoverSecret Point_Base (map fst rows)
      (map (fun row => fst (snd row)) rows)
      (map (fun row => snd (snd row)) rows) t n
    = (Some (Point_Base * secret)%P, None)).
  { apply RecoverSecret_issued
      with (H := H) (cs := cs) (encShares := encShares)
           (decShares := decShares); auto; try lia. }
  assert (Hall :
    RecoverSecret Point_Base X encShares decShares t n
    = (Some (Point_Base * secret)%P, None)).
  { destruct (issue_decrypt_recover H x secret t r)
      as (encShares1 & pubPoly1 & r1 & E1 & _ & Hrec); auto.
    fold X in E1. rewrite E in E1. inversion E1; subst encShares1 pubPoly1 r1.
    now apply Hrec. }
  rewrite Hsub, Hall. split; reflexivity.
Qed.

End RoundTrip.

Lemma F7_distinct_nodes : @distinct_nodes F7_group 3.
Proof.
  intros i j Hi Hj E.
  assert (Ei : (i = 1 \/ i = 2 \/ i = 3)%Z) by lia.
  assert (Ej : (j = 1 \/ j = 2 \/ j = 3)%Z) by lia.
  destruct Ei as [-> | [-> | ->]], Ej as [-> | [-> | ->]];
    try reflexivity; discriminate E.
Qed.

Lemma F7_x_invertible : Forall (fun xi : F7 => xi <> f0) F7_x.
Proof. repeat constructor; discriminate. Qed.

Lemma F7_issue_eq :
  exists r',
    @EncShares F7_group F7_proofs F7_H F7_X f4 2 F7_stream
    = ((F7_encShares, Some F7_pubPoly, None), r').
Proof. apply run_result. reflexivity. Qed.

Lemma F7_Decrypted :
  @Decrypted F7_group F7_proofs F7_H F7_pubPoly F7_X F7_x F7_encShares
    F7_decShares.
Proof. apply DecShare_each_Decrypted with (r := F7_stream). reflexivity. Qed.

Lemma F7_subset_indices :
  map (@row_index F7_group F7_proofs) F7_subset = [3; 1]%Z.
Proof. reflexivity. Qed.

Lemma F7_subset_NoDup : NoDup F7_subset.
Proof.
  apply (NoDup_map_inv (@row_index F7_group F7_proofs)).
  rewrite F7_subset_indices.
  constructor; [simpl; intuition discriminate|].
  constructor; [simpl; tauto | constructor].
Qed.

Lemma In_firstn_list {A : Type} (k : nat) (l : list A) (a : A) :
  In a (firstn k l) -> In a l.
Proof.
  intros Hin. rewrite <- (firstn_skipn k l). apply in_or_app. now left.
Qed.

Lemma In_skipn_list {A : Type} (k : nat) (l : list A) (a : A) :
  In a (skipn k l) -> In a l.
Proof.
  intros Hin. rewrite <- (firstn_skipn k l). apply in_or_app. now right.
Qed.

Lemma F7_subset_incl : incl F7_subset F7_rows.
Proof.
  unfold F7_subset. apply incl_app.
  - intros row Hrow. apply (In_skipn_list 2), (In_firstn_list 1). exact Hrow.
  - intros row Hrow. apply (In_firstn_list 1). exact Hrow.
Qed.

Lemma F7_subset_length : (2 <= Z.of_nat (length F7_subset))%Z.
Proof. change (2 <= 2)%Z. lia. Qed.

Lemma EncShares_DecShare_RecoverSecret_witness :
  (1 <= 2 <= Z.of_nat (length F7_x))%Z /\
  exists encShares pubPoly r',
    @EncShares F7_group F7_proofs F7_H F7_X f4 2 F7_stream
    = ((encShares, Some pubPoly, None), r') /\
    (exists decShares,
       @Decrypted F7_group F7_proofs F7_H pubPoly F7_X F7_x encShares
         decShares) /\
    (forall decShares,
       @Decrypted F7_group F7_proofs F7_H pubPoly F7_X F7_x encShares
         decShares ->
       @RecoverSecret F7_group F7_proofs f1 F7_X encShares decShares 2
         (Z.of_nat (length F7_x))
       = (Some (F7_mul f1 f4), None)).
Proof.
  split; [simpl; lia|].
  apply (@EncShares_DecShare_RecoverSecret F7_group F7_laws F7_proofs
           F7_proofs_laws F7_H F7_x f4 2%Z F7_stream).
  - simpl. lia.
  - exact F7_x_invertible.
  - exact F7_distinct_nodes.
Defined.

Lemma RecoverSecret_any_subset_witness :
  NoDup F7_subset /\
  (2 <= Z.of_nat (length F7_subset))%Z /\
  @RecoverSecret F7_group F7_proofs f1 (map fst F7_subset)
    (map (fun row => fst (snd row)) F7_subset)
    (map (fun row => snd (snd row)) F7_subset) 2 (Z.of_nat (length F7_x))
  = @RecoverSecret F7_group F7_proofs f1 F7_X F7_encShares F7_decShares 2
      (Z.of_nat (length F7_x)) /\
  @RecoverSecret F7_group F7_proofs f1 F7_X F7_encShares F7_decShares 2
    (Z.of_nat (length F7_x))
  = (Some (F7_mul f1 f4), None).
Proof.
  split; [exact F7_subset_NoDup|]. split; [exact F7_subset_length|].
  destruct F7_issue_eq as (r' & E).
  apply (@RecoverSecret_any_subset F7_group F7_laws F7_proofs F7_proofs_laws
           F7_H F7_x f4 2%Z F7_stream r' F7_encShares F7_decShares F7_pubPoly
           F7_subset).
  - simpl. lia.
  - exact F7_x_invertible.
  - exact F7_distinct_nodes.
  - exact E.
  - exact F7_Decrypted.
  - exact F7_subset_NoDup.
  - exact F7_subset_incl.
  - exact F7_subset_length.
Defined.

Lemma RecoverSecret_too_few_witness :
  length F7_X = length F7_encShares /\
  @RecoverSecret F7_group F7_proofs f1 F7_X F7_encShares F7_decShares 4 3
  = (None, Some errorTooFewShares) /\
  @RecoverSecret F7_group F7_proofs f1 [] [] [] 1 3
  = (None, Some errorTooFewShares).
Proof.
  split; [reflexivity|]. split.
  - apply (proj1 (proj2 (@RecoverSecret_too_few F7_group F7_proofs f1 F7_X
                           F7_encShares F7_decShares 4%Z 3%Z
                           eq_refl eq_refl))).
    reflexivity.
  - apply (proj1 (proj2 (proj2 (proj2
             (@RecoverSecret_too_few F7_group F7_proofs f1 [] [] [] 1%Z 3%Z
                eq_refl eq_refl))))).
    + reflexivity.
    + lia.
Defined.

Lemma batch_different_lengths_witness :
  @VerifyEncShareBatch F7_group F7_proofs F7_H F7_X F7_polys
    (tl F7_encShares)
  = ([], [], Some errorDifferentLengths) /\
  @DecShareBatch F7_group F7_proofs F7_H F7_X F7_polys f2 (tl F7_encShares)
    F7_stream
  = (([], [], [], Some errorDifferentLengths), F7_stream) /\
  @VerifyDecShareBatch F7_group F7_proofs f1 F7_X F7_encShares
    (tl F7_decShares)
  = ([], Some errorDifferentLengths) /\
  @Heap.VerifyEncShareBatch F7_group F7_proofs 0 [1; 2; 3]%nat [] [] F7_store
  = (([], [], Some errorDifferentLengths), F7_store) /\
  @Heap.VerifyDecShareBatch F7_group F7_proofs 0 [1; 2; 3]%nat [] [] F7_store
  = (([], Some errorDifferentLengths), F7_store).
Proof.
  destruct (@batch_different_lengths F7_group F7_proofs F7_H f1 F7_X F7_polys
              f2 (tl F7_encShares) F7_decShares F7_stream)
    as (Henc & _ & Hstore).
  destruct (@batch_different_lengths F7_group F7_proofs F7_H f1 F7_X F7_polys
              f2 F7_encShares (tl F7_decShares) F7_stream)
    as (_ & Hdec & _).
  destruct (Hstore F7_store 0%nat 0%nat 0%nat [1; 2; 3]%nat [] [] [])
    as (Henc' & Hdec').
  split; [|split; [|split; [|split]]].
  - apply Henc. intros [_ E]. change (3 = 2)%nat in E. discriminate E.
  - apply Henc. intros [_ E]. change (3 = 2)%nat in E. discriminate E.
  - apply Hdec. intros [_ E]. change (3 = 2)%nat in E. discriminate E.
  - apply Henc'. intros [E _]. discriminate E.
  - apply Hdec'. intros [E _]. discriminate E.
Defined.

Lemma batch_verifiers_nil_error_witness :
  snd (@VerifyEncShareBatch F7_group F7_proofs F7_H F7_X F7_polys F7_tampered)
  = None /\
  map (fun e => PubShare.I (PubVerShare.S e))
    (snd (fst (@VerifyEncShareBatch F7_group F7_proofs F7_H F7_X F7_polys
                 F7_tampered)))
  = [1; 2]%Z /\
  snd (@VerifyDecShareBatch F7_group F7_proofs f1 F7_X F7_tampered
         F7_decShares)
  = None /\
  map (fun d => PubShare.I (PubVerShare.S d))
    (fst (@VerifyDecShareBatch F7_group F7_proofs f1 F7_X F7_tampered
            F7_decShares))
  = [1; 2]%Z.
Proof.
  destruct (@batch_verifiers_nil_error F7_group F7_proofs F7_H f1 F7_X
              F7_polys F7_tampered F7_decShares) as (Henc & Hdec).
  rewrite (Henc eq_refl eq_refl), (Hdec eq_refl eq_refl).
  repeat split; reflexivity.
Defined.

Lemma VerifyEncShareBatch_aligned_witness :
  length F7_X = length F7_polys /\
  length (fst (fst (@VerifyEncShareBatch F7_group F7_proofs F7_H F7_X
                      F7_polys F7_tampered)))
  = length (snd (fst (@VerifyEncShareBatch F7_group F7_proofs F7_H F7_X
                        F7_polys F7_tampered))) /\
  subseq
    (combine
       (fst (fst (@VerifyEncShareBatch F7_group F7_proofs F7_H F7_X F7_polys
                    F7_tampered)))
       (snd (fst (@VerifyEncShareBatch F7_group F7_proofs F7_H F7_X F7_polys
                    F7_tampered))))
    (combine F7_X F7_tampered).
Proof.
  split; [reflexivity|].
  destruct (@VerifyEncShareBatch_aligned F7_group F7_proofs F7_H F7_X
              F7_polys F7_tampered eq_refl eq_refl) as (Hlen & Hsub & _).
  split; [exact Hlen | exact Hsub].
Defined.

(** ** abstract/marshal.go: the empty encoding *)

(** C10. With an empty byte slice, [UnmarshalBinary] of a [Secret] and of
    a [Point] returns a nil error and leaves the receiver as it was; no
    call is made: nothing is scanned, no suite is looked up and nothing is
    decoded. *)
Theorem UnmarshalBinary_empty (env : marshal.Env) (s : marshal.Secret env)
    (p : marshal.Point env) :
  marshal.Secret_UnmarshalBinary env s [] = marshal.Returns (s, None) [] /\
  marshal.Point_UnmarshalBinary env p [] = marshal.Returns (p, None) [].
Proof. split; reflexivity. Qed.

(** ** The operations leave the objects they are given as they are *)

Section Frame.

Context {g : Group} {pp : ProofPkg g}.

Lemma preserved_refl (st : Store) : preserved st st.
Proof. split; exists []; now rewrite app_nil_r. Qed.

Lemma preserved_trans (st1 st2 st3 : Store) :
  preserved st1 st2 -> preserved st2 st3 -> preserved st1 st3.
Proof.
  intros ((Ps & HP) & (ss & HS)) ((Ps' & HP') & (ss' & HS')). split.
  - exists (Ps ++ Ps'). now rewrite HP', HP, app_assoc.
  - exists (ss ++ ss'). now rewrite HS', HS, app_assoc.
Qed.

Lemma preserved_same (st st' : Store) :
  points st' = points st -> scalars st' = scalars st -> preserved st st'.
Proof. intros EP ES. split; exists []; now rewrite app_nil_r. Qed.

Lemma update_new {A : Type} (l m : list A) (a c : A) :
  update (length l) a (l ++ c :: m) = l ++ a :: m.
Proof. induction l as [|d l IH]; simpl; [reflexivity | now rewrite IH]. Qed.

Lemma Preserving_ret {A : Type} (a : A) : Preserving (ret a).
Proof. intros st. apply preserved_refl. Qed.

Lemma Preserving_bind {A B : Type} (m : Heap.St A) (k : A -> Heap.St B) :
  Preserving m -> (forall a, Preserving (k a)) -> Preserving (bind m k).
Proof.
  intros Hm Hk st. unfold bind. specialize (Hm st).
  destruct (m st) as [a st1]. simpl in Hm.
  eapply preserved_trans; [exact Hm | apply Hk].
Qed.

Lemma Drawless_ret {A : Type} (a : A) : Drawless (ret (S := Store) a).
Proof. intros st. reflexivity. Qed.

Lemma Drawless_bind {A B : Type} (m : Heap.St A) (k : A -> Heap.St B) :
  Drawless m -> (forall a, Drawless (k a)) -> Drawless (bind m k).
Proof.
  intros Hm Hk st. unfold bind. specialize (Hm st).
  destruct (m st) as [a st1]. simpl in Hm. now rewrite Hk.
Qed.

Lemma Preserving_new_point (P : Point) : Preserving (Heap.new_point P).
Proof.
  intros st. split; simpl; [exists [P] | exists []]; auto using app_nil_r.
Qed.

Lemma Preserving_new_scalar (s : Scalar) : Preserving (Heap.new_scalar s).
Proof.
  intros st. split; simpl; [exists [] | exists [s]]; auto using app_nil_r.
Qed.

Lemma Preserving_get_point (r : nat) : Preserving (Heap.get_point r).
Proof. intros st. apply preserved_refl. Qed.

Lemma Preserving_get_scalar (r : nat) : Preserving (Heap.get_scalar r).
Proof. intros st. apply preserved_refl. Qed.

Lemma Preserving_get_points (rs : list nat) : Preserving (Heap.get_points rs).
Proof. intros st. apply preserved_refl. Qed.

Lemma Preserving_get_scalars (rs : list nat) :
  Preserving (Heap.get_scalars rs).
Proof. intros st. apply preserved_refl. Qed.

Lemma Preserving_draw {A : Type} (m : Rand A) : Preserving (Heap.draw m).
Proof.
  intros st. unfold Heap.draw. destruct (m (random st)).
  now apply preserved_same.
Qed.

Lemma Preserving_record (c : call) : Preserving (Heap.record c).
Proof. intros st. now apply preserved_same. Qed.

Lemma Drawless_new_point (P : Point) : Drawless (Heap.new_point P).
Proof. intros st. reflexivity. Qed.

Lemma Drawless_get_point (r : nat) : Drawless (Heap.get_point r).
Proof. intros st. reflexivity. Qed.

Lemma Drawless_get_points (rs : list nat) : Drawless (Heap.get_points rs).
Proof. intros st. reflexivity. Qed.

Lemma Drawless_record (c : call) : Drawless (Heap.record c).
Proof. intros st. reflexivity. Qed.

Create HintDb frame.
#[local] Hint Resolve Preserving_ret Preserving_new_point
  Preserving_new_scalar Preserving_get_point Preserving_get_scalar
  Preserving_get_points Preserving_get_scalars Preserving_draw
  Preserving_record Drawless_ret Drawless_new_point Drawless_get_point
  Drawless_get_points Drawless_record : frame.

(** One step of a proof that a computation built from [bind], [ret] and
    case distinctions has a property that the steps have. *)
Ltac frame_step :=
  match goal with
  | |- _ => solve [auto with frame]
  | |- Preserving (bind _ _) => apply Preserving_bind; [|intros ?]
  | |- Drawless (bind _ _) => apply Drawless_bind; [|intros ?]
  | |- _ (match ?x with _ => _ end) => destruct x
  end.

Ltac frame := repeat frame_step.

Lemma Preserving_new_points (Ps : list Point) :
  Preserving (Heap.new_points Ps).
Proof. induction Ps; simpl; frame. Qed.

Lemma Preserving_new_scalars (ss : list Scalar) :
  Preserving (Heap.new_scalars ss).
Proof. induction ss; simpl; frame. Qed.

Lemma Drawless_new_points (Ps : list Point) : Drawless (Heap.new_points Ps).
Proof. induction Ps; simpl; frame. Qed.

#[local] Hint Resolve Preserving_new_points Preserving_new_scalars
  Drawless_new_points : frame.
Lemma Preserving_get_PubShare (s : PubShareObj.t) :
  Preserving (Heap.get_PubShare s).
Proof. unfold Heap.get_PubShare. frame. Qed.

Lemma Drawless_get_PubShare (s : PubShareObj.t) :
  Drawless (Heap.get_PubShare s).
Proof. unfold Heap.get_PubShare. frame. Qed.

#[local] Hint Resolve Preserving_get_PubShare Drawless_get_PubShare : frame.

Lemma Preserving_get_PubShares (shares : list PubShareObj.t) :
  Preserving (Heap.get_PubShares shares).
Proof. induction shares; simpl; frame. Qed.

Lemma Drawless_get_PubShares (shares : list PubShareObj.t) :
  Drawless (Heap.get_PubShares shares).
Proof. induction shares; simpl; frame. Qed.

Lemma Preserving_get_PubPoly (p : PubPolyObj) :
  Preserving (Heap.get_PubPoly p).
Proof. unfold Heap.get_PubPoly. frame. Qed.

Lemma Drawless_get_PubPoly (p : PubPolyObj) : Drawless (Heap.get_PubPoly p).
Proof. unfold Heap.get_PubPoly. frame. Qed.

Lemma Preserving_get_PriPoly (p : PriPolyObj) :
  Preserving (Heap.get_PriPoly p).
Proof. unfold Heap.get_PriPoly. frame. Qed.

#[local] Hint Resolve Preserving_get_PubShares Drawless_get_PubShares
  Preserving_get_PubPoly Drawless_get_PubPoly Preserving_get_PriPoly : frame.

(** The calls into the packages [share] and [proof]. *)

Lemma Preserving_NewPriPoly (t : Z) (s : nat) :
  Preserving (Heap.NewPriPoly t s).
Proof. unfold Heap.NewPriPoly. frame. Qed.

Lemma Preserving_PriPoly_Shares (p : PriPolyObj) (n : Z) :
  Preserving (Heap.PriPoly_Shares p n).
Proof. unfold Heap.PriPoly_Shares. frame. Qed.

Lemma Preserving_PriPoly_Commit (p : PriPolyObj) (base : nat) :
  Preserving (Heap.PriPoly_Commit p base).
Proof. unfold Heap.PriPoly_Commit. frame. Qed.

Lemma Preserving_PubPoly_Eval (p : PubPolyObj) (i : Z) :
  Preserving (Heap.PubPoly_Eval p i).
Proof. unfold Heap.PubPoly_Eval. frame. Qed.

Lemma Drawless_PubPoly_Eval (p : PubPolyObj) (i : Z) :
  Drawless (Heap.PubPoly_Eval p i).
Proof. unfold Heap.PubPoly_Eval. frame. Qed.

Lemma Preserving_RecoverCommit (shares : list PubShareObj.t) (t n : Z) :
  Preserving (Heap.RecoverCommit shares t n).
Proof. unfold Heap.RecoverCommit. frame. Qed.

Lemma Drawless_RecoverCommit (shares : list PubShareObj.t) (t n : Z) :
  Drawless (Heap.RecoverCommit shares t n).
Proof. unfold Heap.RecoverCommit. frame. Qed.

Lemma Preserving_NewDLEQProof (G H x : nat) :
  Preserving (Heap.NewDLEQProof G H x).
Proof. unfold Heap.NewDLEQProof. frame. Qed.

Lemma Preserving_NewDLEQProofBatch (G H secrets : list nat) :
  Preserving (Heap.NewDLEQProofBatch G H secrets).
Proof. unfold Heap.NewDLEQProofBatch. frame. Qed.

Lemma Preserving_DLEQProof_Verify (p : DLEQProof) (G H xG xHc : nat) :
  Preserving (Heap.DLEQProof_Verify p G H xG xHc).
Proof. unfold Heap.DLEQProof_Verify. frame. Qed.

Lemma Drawless_DLEQProof_Verify (p : DLEQProof) (G H xG xHc : nat) :
  Drawless (Heap.DLEQProof_Verify p G H xG xHc).
Proof. unfold Heap.DLEQProof_Verify. frame. Qed.

#[local] Hint Resolve Preserving_NewPriPoly Preserving_PriPoly_Shares
  Preserving_PriPoly_Commit Preserving_PubPoly_Eval Drawless_PubPoly_Eval
  Preserving_RecoverCommit Drawless_RecoverCommit Preserving_NewDLEQProof
  Preserving_NewDLEQProofBatch Preserving_DLEQProof_Verify
  Drawless_DLEQProof_Verify : frame.

(** The methods that write their receiver are called on new objects. *)

Lemma Preserving_new_Base :
  Preserving (r <- Heap.Point_new ;; Heap.Point_Base r).
Proof.
  intros st. split; simpl.
  - exists [Point_Base]. apply (update_new (points st) []).
  - exists []. now rewrite app_nil_r.
Qed.

Lemma Preserving_new_Mul (v x : nat) :
  Preserving
    (r <- Heap.Point_new ;;
     xinv <- (r' <- Heap.Scalar_new ;; Heap.Scalar_Inv r' x) ;;
     Heap.Point_Mul r v xinv).
Proof.
  intros st. split; simpl.
  - eexists. apply (update_new (points st) []).
  - eexists. apply (update_new (scalars st) []).
Qed.

#[local] Hint Resolve Preserving_new_Base Preserving_new_Mul : frame.

(** The operations of [pvss.go]. *)

Lemma Preserving_EncShares (H : nat) (X : list nat) (secret : nat) (t : Z) :
  Preserving (Heap.EncShares H X secret t).
Proof. unfold Heap.EncShares. frame. Qed.

Lemma Preserving_VerifyEncShare (H X : nat) (poly : PubPolyObj)
    (encShare : PubVerShareObj.t) :
  Preserving (Heap.VerifyEncShare H X poly encShare).
Proof. unfold Heap.VerifyEncShare. frame. Qed.

Lemma Drawless_VerifyEncShare (H X : nat) (poly : PubPolyObj)
    (encShare : PubVerShareObj.t) :
  Drawless (Heap.VerifyEncShare H X poly encShare).
Proof. unfold Heap.VerifyEncShare. frame. Qed.

#[local] Hint Resolve Preserving_VerifyEncShare Drawless_VerifyEncShare
  : frame.

Lemma Preserving_VerifyEncShareBatch_loop (H : nat) (X : list nat) :
  forall (polys : list PubPolyObj) (encShares : list PubVerShareObj.t)
         (K : list nat) (E : list PubVerShareObj.t),
    Preserving (Heap.VerifyEncShareBatch_loop H X polys encShares K E).
Proof.
  induction X as [|Xi X IH]; intros [|poly polys] [|e encShares] K E; simpl;
    frame; apply IH.
Qed.

Lemma Drawless_VerifyEncShareBatch_loop (H : nat) (X : list nat) :
  forall (polys : list PubPolyObj) (encShares : list PubVerShareObj.t)
         (K : list nat) (E : list PubVerShareObj.t),
    Drawless (Heap.VerifyEncShareBatch_loop H X polys encShares K E).
Proof.
  induction X as [|Xi X IH]; intros [|poly polys] [|e encShares] K E; simpl;
    frame; apply IH.
Qed.

Lemma Preserving_DecShare (H X : nat) (poly : PubPolyObj) (x : nat)
    (encShare : PubVerShareObj.t) :
  Preserving (Heap.DecShare H X poly x encShare).
Proof. unfold Heap.DecShare. frame. Qed.

#[local] Hint Resolve Preserving_DecShare : frame.

Lemma Preserving_DecShareBatch_loop (H : nat) (X : list nat) :
  forall (polys : list PubPolyObj) (x : nat)
         (encShares : list PubVerShareObj.t)
         (K : list nat) (E D : list PubVerShareObj.t),
    Preserving (Heap.DecShareBatch_loop H X polys x encShares K E D).
Proof.
  induction X as [|Xi X IH]; intros [|poly polys] x [|e encShares] K E D;
    simpl; frame; apply IH.
Qed.

Lemma Preserving_VerifyDecShare (G X : nat)
    (encShare decShare : PubVerShareObj.t) :
  Preserving (Heap.VerifyDecShare G X encShare decShare).
Proof. unfold Heap.VerifyDecShare. frame. Qed.

Lemma Drawless_VerifyDecShare (G X : nat)
    (encShare decShare : PubVerShareObj.t) :
  Drawless (Heap.VerifyDecShare G X encShare decShare).
Proof. unfold Heap.VerifyDecShare. frame. Qed.

#[local] Hint Resolve Preserving_VerifyDecShare Drawless_VerifyDecShare
  : frame.

Lemma Preserving_VerifyDecShareBatch_loop (G : nat) (X : list nat) :
  forall (encShares decShares D : list PubVerShareObj.t),
    Preserving (Heap.VerifyDecShareBatch_loop G X encShares decShares D).
Proof.
  induction X as [|Xi X IH]; intros [|e encShares] [|d decShares] D; simpl;
    frame; apply IH.
Qed.

Lemma Drawless_VerifyDecShareBatch_loop (G : nat) (X : list nat) :
  forall (encShares decShares D : list PubVerShareObj.t),
    Drawless (Heap.VerifyDecShareBatch_loop G X encShares decShares D).
Proof.
  induction X as [|Xi X IH]; intros [|e encShares] [|d decShares] D; simpl;
    frame; apply IH.
Qed.

#[local] Hint Resolve Preserving_VerifyEncShareBatch_loop
  Drawless_VerifyEncShareBatch_loop Preserving_DecShareBatch_loop
  Preserving_VerifyDecShareBatch_loop Drawless_VerifyDecShareBatch_loop
  : frame.

Lemma Preserving_VerifyDecShareBatch (G : nat) (X : list nat)
    (encShares decShares : list PubVerShareObj.t) :
  Preserving (Heap.VerifyDecShareBatch G X encShares decShares).
Proof. unfold Heap.VerifyDecShareBatch. frame. Qed.

Lemma Drawless_VerifyDecShareBatch (G : nat) (X : list nat)
    (encShares decShares : list PubVerShareObj.t) :
  Drawless (Heap.VerifyDecShareBatch G X encShares decShares).
Proof. unfold Heap.VerifyDecShareBatch. frame. Qed.

#[local] Hint Resolve Preserving_VerifyDecShareBatch
  Drawless_VerifyDecShareBatch : frame.

Lemma Preserving_VerifyEncShareBatch (H : nat) (X : list nat)
    (polys : list PubPolyObj) (encShares : list PubVerShareObj.t) :
  Preserving (Heap.VerifyEncShareBatch H X polys encShares).
Proof. unfold Heap.VerifyEncShareBatch. frame. Qed.

Lemma Drawless_VerifyEncShareBatch (H : nat) (X : list nat)
    (polys : list PubPolyObj) (encShares : list PubVerShareObj.t) :
  Drawless (Heap.VerifyEncShareBatch H X polys encShares).
Proof. unfold Heap.VerifyEncShareBatch. frame. Qed.

Lemma Preserving_DecShareBatch (H : nat) (X : list nat)
    (polys : list PubPolyObj) (x : nat) (encShares : list PubVerShareObj.t) :
  Preserving (Heap.DecShareBatch H X polys x encShares).
Proof. unfold Heap.DecShareBatch. frame. Qed.

Lemma Preserving_RecoverSecret (G : nat) (X : list nat)
    (encShares decShares : list PubVerShareObj.t) (t n : Z) :
  Preserving (Heap.RecoverSecret G X encShares decShares t n).
Proof. unfold Heap.RecoverSecret. frame. Qed.

Lemma Drawless_RecoverSecret (G : nat) (X : list nat)
    (encShares decShares : list PubVerShareObj.t) (t n : Z) :
  Drawless (Heap.RecoverSecret G X encShares decShares t n).
Proof. unfold Heap.RecoverSecret. frame. Qed.

#[local] Hint Resolve Preserving_EncShares Preserving_VerifyEncShareBatch
  Drawless_VerifyEncShareBatch Preserving_DecShareBatch
  Preserving_RecoverSecret Drawless_RecoverSecret : frame.

End Frame.

(** ** The operations on the store compute what the operations on values
    compute *)

Section Refinement.

Context {g : Group} {pp : ProofPkg g}.

Local Open Scope Z_scope.

Lemma nth_app_default {A : Type} (l : list A) (d : A) (r : nat) :
  nth r (l ++ [d]) d = nth r l d.
Proof.
  destruct (Nat.lt_ge_cases r (length l)) as [Hlt | Hge].
  - now apply app_nth1.
  - rewrite app_nth2 by exact Hge. rewrite (nth_overflow l) by exact Hge.
    destruct (r - length l)%nat as [|[|k]]; reflexivity.
Qed.

Lemma nth_new {A : Type} (l m : list A) (a d : A) :
  nth (length l) (l ++ a :: m) d = a.
Proof. apply nth_middle. Qed.

Lemma nth_older {A : Type} (l m n : list A) (a d : A) :
  nth (length l) ((l ++ a :: m) ++ n) d = a.
Proof. rewrite <- app_assoc. apply nth_middle. Qed.

Lemma point_at_preserved (st st' : Store) (r : nat) :
  preserved st st' -> live_point st r ->
  Heap.point_at st' r = Heap.point_at st r.
Proof.
  intros ((Ps & E) & _) Hr. unfold Heap.point_at. rewrite E.
  now apply app_nth1.
Qed.

Lemma scalar_at_preserved (st st' : Store) (r : nat) :
  preserved st st' -> live_scalar st r ->
  Heap.scalar_at st' r = Heap.scalar_at st r.
Proof.
  intros (_ & (ss & E)) Hr. unfold Heap.scalar_at. rewrite E.
  now apply app_nth1.
Qed.

Lemma live_point_preserved (st st' : Store) (r : nat) :
  preserved st st' -> live_point st r -> live_point st' r.
Proof.
  intros ((Ps & E) & _) Hr. unfold live_point in *. rewrite E, length_app. lia.
Qed.

Lemma live_scalar_preserved (st st' : Store) (r : nat) :
  preserved st st' -> live_scalar st r -> live_scalar st' r.
Proof.
  intros (_ & (ss & E)) Hr. unfold live_scalar in *. rewrite E, length_app. lia.
Qed.

Lemma points_at_preserved (st st' : Store) (rs : list nat) :
  preserved st st' -> Forall (live_point st) rs ->
  map (Heap.point_at st') rs = map (Heap.point_at st) rs.
Proof.
  intros Hp Hrs. apply map_ext_in. intros r Hr.
  apply point_at_preserved; [exact Hp|]. rewrite Forall_forall in Hrs. auto.
Qed.

Lemma scalars_at_preserved (st st' : Store) (rs : list nat) :
  preserved st st' -> Forall (live_scalar st) rs ->
  map (Heap.scalar_at st') rs = map (Heap.scalar_at st) rs.
Proof.
  intros Hp Hrs. apply map_ext_in. intros r Hr.
  apply scalar_at_preserved; [exact Hp|]. rewrite Forall_forall in Hrs. auto.
Qed.

Lemma value_of_PubVerShare_preserved (st st' : Store) (s : PubVerShareObj.t) :
  preserved st st' -> live_PubVerShare st s ->
  value_of_PubVerShare st' s = value_of_PubVerShare st s.
Proof.
  intros Hp Hs. unfold value_of_PubVerShare, value_of_PubShare.
  now rewrite (point_at_preserved st st' _ Hp Hs).
Qed.

Lemma value_of_PubPoly_preserved (st st' : Store) (p : PubPolyObj) :
  preserved st st' -> live_PubPoly st p ->
  value_of_PubPoly st' p = value_of_PubPoly st p.
Proof.
  intros Hp (Hb & Hc). unfold value_of_PubPoly.
  now rewrite (point_at_preserved st st' _ Hp Hb),
              (points_at_preserved st st' _ Hp Hc).
Qed.

Lemma live_PubVerShare_preserved (st st' : Store) (s : PubVerShareObj.t) :
  preserved st st' -> live_PubVerShare st s -> live_PubVerShare st' s.
Proof. apply live_point_preserved. Qed.

Lemma live_PubPoly_preserved (st st' : Store) (p : PubPolyObj) :
  preserved st st' -> live_PubPoly st p -> live_PubPoly st' p.
Proof.
  intros Hp (Hb & Hc). split.
  - now apply (live_point_preserved st).
  - eapply Forall_impl; [|exact Hc]. intros r. now apply live_point_preserved.
Qed.

(** Running a computation on the store: the definitions of the store
    embedding are unfolded, those of the value embedding are not. *)
Ltac run :=
  cbv beta iota zeta delta
    [bind ret Heap.get_point Heap.get_scalar Heap.get_points Heap.get_scalars
     Heap.new_point Heap.new_scalar Heap.set_point Heap.set_scalar
     Heap.record Heap.Point_new Heap.Scalar_new Heap.Point_Base Heap.Point_Mul
     Heap.Scalar_Inv Heap.get_PubShare Heap.get_PubVerShare Heap.get_PubPoly
     Heap.get_PriPoly Heap.PubPoly_Eval Heap.DLEQProof_Verify
     Heap.VerifyEncShare Heap.VerifyDecShare];
  cbn [fst snd points scalars random calls PubShareObj.I PubShareObj.V
       PubVerShareObj.S PubVerShareObj.P b_cell commit_cells coeff_cells].

(** [VerifyEncShare] on the store returns what [VerifyEncShare] returns on
    the values. *)
Lemma VerifyEncShare_refines (st : Store) (H X : nat) (poly : PubPolyObj)
    (encShare : PubVerShareObj.t) :
  live_point st H -> live_point st X -> live_PubVerShare st encShare ->
  fst (Heap.VerifyEncShare H X poly encShare st)
  = VerifyEncShare (Heap.point_at st H) (Heap.point_at st X)
      (value_of_PubPoly st poly) (value_of_PubVerShare st encShare).
Proof.
  intros HH HX He. run.
  unfold VerifyEncShare, value_of_PubVerShare, value_of_PubShare,
    value_of_PubPoly.
  cbn [PubVerShare.S PubVerShare.P PubShare.I PubShare.V]. cbv zeta.
  unfold Heap.point_at. cbn [points].
  unfold live_PubVerShare, live_point in *.
  rewrite nth_new. rewrite !app_nth1 by assumption.
  match goal with |- context [negb ?c] => destruct c end; reflexivity.
Qed.

Lemma VerifyDecShare_refines (st : Store) (G X : nat)
    (encShare decShare : PubVerShareObj.t) :
  fst (Heap.VerifyDecShare G X encShare decShare st)
  = VerifyDecShare (Heap.point_at st G) (Heap.point_at st X)
      (value_of_PubVerShare st encShare) (value_of_PubVerShare st decShare).
Proof.
  run. unfold VerifyDecShare, value_of_PubVerShare, value_of_PubShare.
  cbn [PubVerShare.S PubVerShare.P PubShare.I PubShare.V].
  unfold Heap.point_at. cbn [points].
  match goal with |- context [negb ?c] => destruct c end; reflexivity.
Qed.

Lemma Forall_preserved {A : Type} (live : Store -> A -> Prop)
    (st st' : Store) (l : list A) :
  (forall a, live st a -> live st' a) ->
  Forall (live st) l -> Forall (live st') l.
Proof. intros Hmono. apply Forall_impl. exact Hmono. Qed.

Lemma values_of_PubVerShare_preserved (st st' : Store)
    (l : list PubVerShareObj.t) :
  preserved st st' -> Forall (live_PubVerShare st) l ->
  map (value_of_PubVerShare st') l = map (value_of_PubVerShare st) l.
Proof.
  intros Hp Hl. apply map_ext_in. intros s Hs.
  apply value_of_PubVerShare_preserved; [exact Hp|].
  rewrite Forall_forall in Hl. auto.
Qed.

Lemma values_of_PubPoly_preserved (st st' : Store) (l : list PubPolyObj) :
  preserved st st' -> Forall (live_PubPoly st) l ->
  map (value_of_PubPoly st') l = map (value_of_PubPoly st) l.
Proof.
  intros Hp Hl. apply map_ext_in. intros p Hin.
  apply value_of_PubPoly_preserved; [exact Hp|].
  rewrite Forall_forall in Hl. auto.
Qed.

(** The loop of [VerifyEncShareBatch] on the store collects the keys and
    the shares whose values the loop on values collects. *)
Lemma VerifyEncShareBatch_loop_refines (H : nat) (X : list nat) :
  forall (polys : list PubPolyObj) (encShares : list PubVerShareObj.t)
         (K : list nat) (E : list PubVerShareObj.t) (st : Store),
    live_point st H -> Forall (live_point st) X ->
    Forall (live_PubPoly st) polys ->
    Forall (live_PubVerShare st) encShares ->
    Forall (live_point st) K -> Forall (live_PubVerShare st) E ->
    let res := Heap.VerifyEncShareBatch_loop H X polys encShares K E st in
    (map (Heap.point_at (snd res)) (fst (fst res)),
     map (value_of_PubVerShare (snd res)) (snd (fst res)))
    = VerifyEncShareBatch_loop (Heap.point_at st H)
        (map (Heap.point_at st) X) (map (value_of_PubPoly st) polys)
        (map (value_of_PubVerShare st) encShares)
        (map (Heap.point_at st) K) (map (value_of_PubVerShare st) E).
Proof.
  induction X as [|Xi X IH]; intros [|poly polys] [|e encShares] K E st
    HH HX Hpolys Hencs HK HE; try reflexivity.
  inversion HX as [|? ? HXi HX']; subst.
  inversion Hpolys as [|? ? Hpoly Hpolys']; subst.
  inversion Hencs as [|? ? He Hencs']; subst.
  cbn [Heap.VerifyEncShareBatch_loop VerifyEncShareBatch_loop map].
  cbv zeta. unfold bind.
  pose proof (VerifyEncShare_refines st H Xi poly e HH HXi He) as Ev.
  pose proof (Preserving_VerifyEncShare H Xi poly e st) as Hp.
  destruct (Heap.VerifyEncShare H Xi poly e st) as [err st1].
  cbn [fst snd] in Ev, Hp. rewrite <- Ev.
  assert (Hvals :
    Heap.point_at st1 H = Heap.point_at st H /\
    map (Heap.point_at st1) X = map (Heap.point_at st) X /\
    map (value_of_PubPoly st1) polys = map (value_of_PubPoly st) polys /\
    map (value_of_PubVerShare st1) encShares
    = map (value_of_PubVerShare st) encShares /\
    map (Heap.point_at st1) K = map (Heap.point_at st) K /\
    map (value_of_PubVerShare st1) E = map (value_of_PubVerShare st) E /\
    Heap.point_at st1 Xi = Heap.point_at st Xi /\
    value_of_PubVerShare st1 e = value_of_PubVerShare st e).
  { repeat split;
      auto using point_at_preserved, points_at_preserved,
        values_of_PubPoly_preserved, values_of_PubVerShare_preserved,
        value_of_PubVerShare_preserved. }
  destruct Hvals as (EH & EX & Epolys & Eencs & EK & EE & EXi & Ee).
  assert (Hlive :
    live_point st1 H /\ Forall (live_point st1) X /\
    Forall (live_PubPoly st1) polys /\
    Forall (live_PubVerShare st1) encShares /\
    Forall (live_point st1) K /\ Forall (live_PubVerShare st1) E /\
    live_point st1 Xi /\ live_PubVerShare st1 e).
  { repeat split;
      eauto using live_point_preserved, live_PubVerShare_preserved,
        live_PubPoly_preserved, Forall_preserved. }
  destruct Hlive as (LH & LX & Lpolys & Lencs & LK & LE & LXi & Le).
  destruct err as [err|].
  - rewrite IH by assumption. now rewrite EH, EX, Epolys, Eencs, EK, EE.
  - rewrite IH; try assumption.
    + rewrite !map_app. cbn [map].
      now rewrite EH, EX, Epolys, Eencs, EK, EE, EXi, Ee.
    + apply Forall_app. split; [assumption | now constructor].
    + apply Forall_app. split; [assumption | now constructor].
Qed.

(** [VerifyEncShareBatch] on the store returns the keys and the shares
    whose values [VerifyEncShareBatch] on values returns, and its error. *)
Lemma VerifyEncShareBatch_refines (st : Store) (H : nat) (X : list nat)
    (polys : list PubPolyObj) (encShares : list PubVerShareObj.t) :
  live_point st H -> Forall (live_point st) X ->
  Forall (live_PubPoly st) polys ->
  Forall (live_PubVerShare st) encShares ->
  let res := Heap.VerifyEncShareBatch H X polys encShares st in
  (map (Heap.point_at (snd res)) (fst (fst (fst res))),
   map (value_of_PubVerShare (snd res)) (snd (fst (fst res))),
   snd (fst res))
  = VerifyEncShareBatch (Heap.point_at st H) (map (Heap.point_at st) X)
      (map (value_of_PubPoly st) polys)
      (map (value_of_PubVerShare st) encShares).
Proof.
  intros HH HX Hpolys Hencs. cbv zeta.
  unfold Heap.VerifyEncShareBatch, VerifyEncShareBatch.
  rewrite !length_map.
  destruct (negb (length X =? length polys)%nat
            || negb (length polys =? length encShares)%nat).
  - reflexivity.
  - pose proof (VerifyEncShareBatch_loop_refines H X polys encShares [] [] st
                  HH HX Hpolys Hencs (Forall_nil _) (Forall_nil _)) as Hl.
    cbv zeta in Hl. cbn [map] in Hl. unfold bind, ret.
    destruct (Heap.VerifyEncShareBatch_loop H X polys encShares [] [] st)
      as [[K E] st1].
    cbn [fst snd] in *. rewrite <- Hl. reflexivity.
Qed.

Lemma VerifyDecShareBatch_loop_refines (G : nat) (X : list nat) :
  forall (encShares decShares D : list PubVerShareObj.t) (st : Store),
    live_point st G -> Forall (live_point st) X ->
    Forall (live_PubVerShare st) encShares ->
    Forall (live_PubVerShare st) decShares ->
    Forall (live_PubVerShare st) D ->
    let res := Heap.VerifyDecShareBatch_loop G X encShares decShares D st in
    map (value_of_PubVerShare (snd res)) (fst res)
    = VerifyDecShareBatch_loop (Heap.point_at st G)
        (map (Heap.point_at st) X)
        (map (value_of_PubVerShare st) encShares)
        (map (value_of_PubVerShare st) decShares)
        (map (value_of_PubVerShare st) D).
Proof.
  induction X as [|Xi X IH]; intros [|e encShares] [|d decShares] D st
    HG HX Hencs Hdecs HD; try reflexivity.
  inversion HX as [|? ? HXi HX']; subst.
  inversion Hencs as [|? ? He Hencs']; subst.
  inversion Hdecs as [|? ? Hd Hdecs']; subst.
  cbn [Heap.VerifyDecShareBatch_loop VerifyDecShareBatch_loop map].
  cbv zeta. unfold bind.
  pose proof (VerifyDecShare_refines st G Xi e d) as Ev.
  pose proof (Preserving_VerifyDecShare G Xi e d st) as Hp.
  destruct (Heap.VerifyDecShare G Xi e d st) as [err st1].
  cbn [fst snd] in Ev, Hp. rewrite <- Ev.
  assert (Hvals :
    Heap.point_at st1 G = Heap.point_at st G /\
    map (Heap.point_at st1) X = map (Heap.point_at st) X /\
    map (value_of_PubVerShare st1) encShares
    = map (value_of_PubVerShare st) encShares /\
    map (value_of_PubVerShare st1) decShares
    = map (value_of_PubVerShare st) decShares /\
    map (value_of_PubVerShare st1) D = map (value_of_PubVerShare st) D /\
    value_of_PubVerShare st1 d = value_of_PubVerShare st d).
  { repeat split;
      auto using point_at_preserved, points_at_preserved,
        values_of_PubVerShare_preserved, value_of_PubVerShare_preserved. }
  destruct Hvals as (EG & EX & Eencs & Edecs & ED & Ed).
  assert (Hlive :
    live_point st1 G /\ Forall (live_point st1) X /\
    Forall (live_PubVerShare st1) encShares /\
    Forall (live_PubVerShare st1) decShares /\
    Forall (live_PubVerShare st1) D /\ live_PubVerShare st1 d).
  { repeat split;
      eauto using live_point_preserved, live_PubVerShare_preserved,
        Forall_preserved. }
  destruct Hlive as (LG & LX & Lencs & Ldecs & LD & Ld).
  destruct err as [err|].
  - rewrite IH by assumption. now rewrite EG, EX, Eencs, Edecs, ED.
  - rewrite IH; try assumption.
    + rewrite !map_app. cbn [map]. now rewrite EG, EX, Eencs, Edecs, ED, Ed.
    + apply Forall_app. split; [assumption | now constructor].
Qed.

Lemma VerifyDecShareBatch_refines (st : Store) (G : nat) (X : list nat)
    (encShares decShares : list PubVerShareObj.t) :
  live_point st G -> Forall (live_point st) X ->
  Forall (live_PubVerShare st) encShares ->
  Forall (live_PubVerShare st) decShares ->
  let res := Heap.VerifyDecShareBatch G X encShares decShares st in
  (map (value_of_PubVerShare (snd res)) (fst (fst res)), snd (fst res))
  = VerifyDecShareBatch (Heap.point_at st G) (map (Heap.point_at st) X)
      (map (value_of_PubVerShare st) encShares)
      (map (value_of_PubVerShare st) decShares).
Proof.
  intros HG HX Hencs Hdecs. cbv zeta.
  unfold Heap.VerifyDecShareBatch, VerifyDecShareBatch.
  rewrite !length_map.
  destruct (negb (length X =? length encShares)%nat
            || negb (length encShares =? length decShares)%nat).
  - reflexivity.
  - pose proof (VerifyDecShareBatch_loop_refines G X encShares decShares []
                  st HG HX Hencs Hdecs (Forall_nil _)) as Hl.
    cbv zeta in Hl. cbn [map] in Hl. unfold bind, ret.
    destruct (Heap.VerifyDecShareBatch_loop G X encShares decShares [] st)
      as [D st1].
    cbn [fst snd] in *. rewrite <- Hl. reflexivity.
Qed.

Lemma get_PubShares_run (st : Store) (shares : list PubShareObj.t) :
  Heap.get_PubShares shares st = (map (value_of_PubShare st) shares, st).
Proof.
  induction shares as [|s shares IH]; [reflexivity|].
  cbn [Heap.get_PubShares map]. unfold bind at 1.
  unfold Heap.get_PubShare at 1. unfold bind at 1, Heap.get_point, ret at 1.
  cbn [fst snd]. unfold bind. rewrite IH. reflexivity.
Qed.

Lemma RecoverCommit_run (st : Store) (shares : list PubShareObj.t)
    (t n : Z) :
  Heap.RecoverCommit shares t n st
  = match RecoverCommit (map (value_of_PubShare st) shares) t n with
    | (Some Acc, err) =>
        (Some (length (points st)), err, snd (Heap.new_point Acc st))
    | (None, err) => (None, err, st)
    end.
Proof.
  unfold Heap.RecoverCommit, bind. rewrite get_PubShares_run.
  destruct (RecoverCommit (map (value_of_PubShare st) shares) t n)
    as [[Acc|] err]; reflexivity.
Qed.

(** [RecoverSecret] on the store returns the error that [RecoverSecret] on
    values returns, and the address of a point holding the secret that it
    returns. *)
Lemma RecoverSecret_refines (st : Store) (G : nat) (X : list nat)
    (encShares decShares : list PubVerShareObj.t) (t n : Z) :
  live_point st G -> Forall (live_point st) X ->
  Forall (live_PubVerShare st) encShares ->
  Forall (live_PubVerShare st) decShares ->
  let res := Heap.RecoverSecret G X encShares decShares t n st in
  (option_map (Heap.point_at (snd res)) (fst (fst res)), snd (fst res))
  = RecoverSecret (Heap.point_at st G) (map (Heap.point_at st) X)
      (map (value_of_PubVerShare st) encShares)
      (map (value_of_PubVerShare st) decShares) t n.
Proof.
  intros HG HX Hencs Hdecs. cbv zeta.
  unfold Heap.RecoverSecret, RecoverSecret, bind.
  pose proof (VerifyDecShareBatch_refines st G X encShares decShares
                HG HX Hencs Hdecs) as Hv.
  cbv zeta in Hv.
  destruct (Heap.VerifyDecShareBatch G X encShares decShares st)
    as [[D err] st1].
  cbn [fst snd] in Hv. rewrite <- Hv.
  destruct err as [err|]; [reflexivity|].
  rewrite length_map.
  destruct (Z.of_nat (length D) <? t)%Z; [reflexivity|].
  rewrite RecoverCommit_run.
  replace (map PubVerShare.S (map (value_of_PubVerShare st1) D))
    with (map (value_of_PubShare st1) (map PubVerShareObj.S D))
    by (rewrite !map_map; reflexivity).
  destruct (RecoverCommit (map (value_of_PubShare st1)
                             (map PubVerShareObj.S D)) t n)
    as [[Acc|] err'].
  - cbn [fst snd option_map Heap.new_point].
    unfold Heap.new_point, Heap.point_at. cbn [snd points].
    rewrite nth_new. reflexivity.
  - reflexivity.
Qed.

(** [DecShare] on the store returns the error that [DecShare] on values
    returns and a share that holds the value that it returns, and takes
    from the random stream what it takes. The share it returns is in the
    store. *)
Lemma DecShare_refines (st : Store) (H X : nat) (poly : PubPolyObj)
    (x : nat) (encShare : PubVerShareObj.t) :
  live_point st H -> live_point st X -> live_PubVerShare st encShare ->
  live_scalar st x ->
  let res := Heap.DecShare H X poly x encShare st in
  let val := DecShare (Heap.point_at st H) (Heap.point_at st X)
               (value_of_PubPoly st poly) (Heap.scalar_at st x)
               (value_of_PubVerShare st encShare) (random st) in
  (option_map (value_of_PubVerShare (snd res)) (fst (fst res)),
   snd (fst res)) = fst val
  /\ random (snd res) = snd val
  /\ (forall ds, fst (fst res) = Some ds -> live_PubVerShare (snd res) ds).
Proof.
  intros HH HX He Hx. cbv zeta.
  unfold Heap.DecShare, DecShare, bind.
  pose proof (VerifyEncShare_refines st H X poly encShare HH HX He) as Ev.
  pose proof (Preserving_VerifyEncShare H X poly encShare st) as Hp.
  pose proof (Drawless_VerifyEncShare H X poly encShare st) as Hd.
  destruct (Heap.VerifyEncShare H X poly encShare st) as [err st1].
  cbn [fst snd] in Ev, Hp, Hd. rewrite <- Ev.
  destruct err as [err|].
  { split; [reflexivity | split; [exact Hd | intros ds E; discriminate E]]. }
  pose proof (point_at_preserved st st1 _ Hp He) as EV.
  pose proof (scalar_at_preserved st st1 _ Hp Hx) as Ex.
  pose proof (live_point_preserved st st1 _ Hp He) as LV.
  pose proof (live_scalar_preserved st st1 _ Hp Hx) as Lx.
  unfold live_PubVerShare in *. unfold live_point, live_scalar in LV, Lx.
  unfold Heap.point_at in EV. unfold Heap.scalar_at in Ex.
  unfold value_of_PubVerShare, value_of_PubShare.
  cbn [PubVerShare.S PubVerShare.P PubShare.I PubShare.V].
  unfold Heap.point_at, Heap.scalar_at. rewrite <- EV, <- Ex, <- Hd.
  clear Ev Hp Hd EV Ex HH HX He Hx.
  destruct st1 as [P1 s1 r1 c1]. cbn [points scalars random calls] in *.
  cbv beta iota zeta delta
    [bind ret Heap.get_point Heap.get_scalar Heap.new_point Heap.new_scalar
     Heap.set_point Heap.set_scalar Heap.record Heap.Point_new
     Heap.Scalar_new Heap.Point_Base Heap.Point_Mul Heap.Scalar_Inv
     Heap.NewDLEQProof Heap.draw Heap.point_at Heap.scalar_at].
  cbn [fst snd points scalars random calls PubShareObj.I PubShareObj.V
       PubVerShareObj.S PubVerShareObj.P].
  rewrite !update_new. rewrite !nth_app_default. rewrite !nth_new.
  rewrite !(app_nth1 P1) by exact LV. rewrite !(app_nth1 s1) by exact Lx.
  rewrite !nth_older.
  destruct (NewDLEQProof Point_Base
              (nth (PubShareObj.V (PubVerShareObj.S encShare)) P1 Point_Null
               * (/ nth x s1 0)%F)%P (nth x s1 0%F) r1)
    as [[[[P xG] xHv]|err] r'].
  - cbn [fst snd option_map points random]. split; [|split].
    + unfold value_of_PubVerShare, value_of_PubShare, Heap.point_at.
      cbn [PubShareObj.I PubShareObj.V PubVerShareObj.S PubVerShareObj.P
           points].
      rewrite <- (app_assoc _ [xG] [xHv]). rewrite nth_older. reflexivity.
    + reflexivity.
    + intros ds E. injection E as <-. unfold live_point.
      cbn [PubShareObj.V PubVerShareObj.S points].
      rewrite !length_app. simpl. lia.
  - split; [reflexivity | split; [reflexivity|]].
    intros ds E. discriminate E.
Qed.

Lemma DecShareBatch_loop_refines (H : nat) (X : list nat) (x : nat) :
  forall (polys : list PubPolyObj) (encShares : list PubVerShareObj.t)
         (K : list nat) (E D : list PubVerShareObj.t) (st : Store),
    live_point st H -> Forall (live_point st) X -> live_scalar st x ->
    Forall (live_PubPoly st) polys ->
    Forall (live_PubVerShare st) encShares ->
    Forall (live_point st) K -> Forall (live_PubVerShare st) E ->
    Forall (live_PubVerShare st) D ->
    let res := Heap.DecShareBatch_loop H X polys x encShares K E D st in
    let val := DecShareBatch_loop (Heap.point_at st H)
                 (map (Heap.point_at st) X) (map (value_of_PubPoly st) polys)
                 (Heap.scalar_at st x)
                 (map (value_of_PubVerShare st) encShares)
                 (map (Heap.point_at st) K) (map (value_of_PubVerShare st) E)
                 (map (value_of_PubVerShare st) D) (random st) in
    (map (Heap.point_at (snd res)) (fst (fst (fst res))),
     map (value_of_PubVerShare (snd res)) (snd (fst (fst res))),
     map (value_of_PubVerShare (snd res)) (snd (fst res))) = fst val
    /\ random (snd res) = snd val.
Proof.
  induction X as [|Xi X IH]; intros [|poly polys] [|e encShares] K E D st
    HH HX Hx Hpolys Hencs HK HE HD; try (split; reflexivity).
  inversion HX as [|? ? HXi HX']; subst.
  inversion Hpolys as [|? ? Hpoly Hpolys']; subst.
  inversion Hencs as [|? ? He Hencs']; subst.
  cbn [Heap.DecShareBatch_loop DecShareBatch_loop map].
  cbv zeta. unfold bind.
  pose proof (DecShare_refines st H Xi poly x e HH HXi He Hx) as Hr.
  pose proof (Preserving_DecShare H Xi poly x e st) as Hp.
  cbv zeta in Hr.
  destruct (Heap.DecShare H Xi poly x e st) as [[ods oerr] st1].
  destruct (DecShare (Heap.point_at st H) (Heap.point_at st Xi)
              (value_of_PubPoly st poly) (Heap.scalar_at st x)
              (value_of_PubVerShare st e) (random st)) as [[ovs oe] r1].
  cbn [fst snd] in Hr, Hp. destruct Hr as (Hres & Hrand & Hlive).
  injection Hres as <- <-. subst r1.
  assert (Hvals :
    Heap.point_at st1 H = Heap.point_at st H /\
    map (Heap.point_at st1) X = map (Heap.point_at st) X /\
    Heap.scalar_at st1 x = Heap.scalar_at st x /\
    map (value_of_PubPoly st1) polys = map (value_of_PubPoly st) polys /\
    map (value_of_PubVerShare st1) encShares
    = map (value_of_PubVerShare st) encShares /\
    map (Heap.point_at st1) K = map (Heap.point_at st) K /\
    map (value_of_PubVerShare st1) E = map (value_of_PubVerShare st) E /\
    map (value_of_PubVerShare st1) D = map (value_of_PubVerShare st) D /\
    Heap.point_at st1 Xi = Heap.point_at st Xi /\
    value_of_PubVerShare st1 e = value_of_PubVerShare st e).
  { repeat split;
      auto using point_at_preserved, points_at_preserved,
        scalar_at_preserved, values_of_PubPoly_preserved,
        values_of_PubVerShare_preserved, value_of_PubVerShare_preserved. }
  destruct Hvals as (EH & EX & Ex & Epolys & Eencs & EK & EE & ED & EXi & Ee).
  assert (Hlives :
    live_point st1 H /\ Forall (live_point st1) X /\ live_scalar st1 x /\
    Forall (live_PubPoly st1) polys /\
    Forall (live_PubVerShare st1) encShares /\
    Forall (live_point st1) K /\ Forall (live_PubVerShare st1) E /\
    Forall (live_PubVerShare st1) D /\
    live_point st1 Xi /\ live_PubVerShare st1 e).
  { repeat split;
      eauto using live_point_preserved, live_scalar_preserved,
        live_PubVerShare_preserved, live_PubPoly_preserved,
        Forall_preserved. }
  destruct Hlives as (LH & LX & Lx & Lpolys & Lencs & LK & LE & LD & LXi & Le).
  rewrite <- EH, <- EX, <- Ex, <- Epolys, <- Eencs, <- EK, <- EE, <- ED,
    <- EXi, <- Ee.
  destruct ods as [ds|]; [destruct oerr as [err|]|]; cbn [option_map].
  - apply IH; assumption.
  - specialize (IH polys encShares (K ++ [Xi]) (E ++ [e]) (D ++ [ds]) st1).
    rewrite !map_app in IH. cbn [map] in IH.
    apply IH; try assumption.
    + apply Forall_app. split; [assumption | now constructor].
    + apply Forall_app. split; [assumption | now constructor].
    + apply Forall_app. split; [assumption|]. constructor; [|constructor].
      apply Hlive. reflexivity.
  - apply IH; assumption.
Qed.

(** [DecShareBatch] on the store returns the keys and the shares whose
    values [DecShareBatch] on values returns, and its error, and takes from
    the random stream what it takes. *)
Lemma DecShareBatch_refines (st : Store) (H : nat) (X : list nat)
    (polys : list PubPolyObj) (x : nat) (encShares : list PubVerShareObj.t) :
  live_point st H -> Forall (live_point st) X -> live_scalar st x ->
  Forall (live_PubPoly st) polys ->
  Forall (live_PubVerShare st) encShares ->
  let res := Heap.DecShareBatch H X polys x encShares st in
  let val := DecShareBatch (Heap.point_at st H) (map (Heap.point_at st) X)
               (map (value_of_PubPoly st) polys) (Heap.scalar_at st x)
               (map (value_of_PubVerShare st) encShares) (random st) in
  (map (Heap.point_at (snd res)) (fst (fst (fst (fst res)))),
   map (value_of_PubVerShare (snd res)) (snd (fst (fst (fst res)))),
   map (value_of_PubVerShare (snd res)) (snd (fst (fst res))),
   snd (fst res)) = fst val
  /\ random (snd res) = snd val.
Proof.
  intros HH HX Hx Hpolys Hencs. cbv zeta.
  unfold Heap.DecShareBatch, DecShareBatch.
  rewrite !length_map.
  destruct (negb (length X =? length polys)%nat
            || negb (length polys =? length encShares)%nat).
  - split; reflexivity.
  - pose proof (DecShareBatch_loop_refines H X x polys encShares [] [] [] st
                  HH HX Hx Hpolys Hencs (Forall_nil _) (Forall_nil _)
                  (Forall_nil _)) as Hl.
    cbv zeta in Hl. cbn [map] in Hl. unfold bind, ret.
    destruct (Heap.DecShareBatch_loop H X polys x encShares [] [] [] st)
      as [[[K E] D] st1].
    destruct (DecShareBatch_loop (Heap.point_at st H)
                (map (Heap.point_at st) X) (map (value_of_PubPoly st) polys)
                (Heap.scalar_at st x)
                (map (value_of_PubVerShare st) encShares) [] [] []
                (random st)) as [[[Kv Ev] Dv] r1].
    cbn [fst snd] in *. destruct Hl as (Hres & Hrand).
    injection Hres as <- <- <-. subst r1. split; reflexivity.
Qed.

Lemma new_scalars_run (ss : list Scalar) :
  forall st : Store,
    Heap.new_scalars ss st
    = (seq (length (scalars st)) (length ss),
       {| points := points st;
          scalars := scalars st ++ ss;
          random := random st;
          calls := calls st |}).
Proof.
  induction ss as [|s ss IH]; intros [P0 s0 r0 c0].
  - cbn [Heap.new_scalars ret length seq points scalars random calls].
    now rewrite app_nil_r.
  - cbn [Heap.new_scalars]. unfold bind, Heap.new_scalar. rewrite IH.
    cbn [points scalars random calls length seq ret].
    rewrite length_app, Nat.add_1_r, <- app_assoc. reflexivity.
Qed.

Lemma new_points_run (Ps : list Point) :
  forall st : Store,
    Heap.new_points Ps st
    = (seq (length (points st)) (length Ps),
       {| points := points st ++ Ps;
          scalars := scalars st;
          random := random st;
          calls := calls st |}).
Proof.
  induction Ps as [|P Ps IH]; intros [P0 s0 r0 c0].
  - cbn [Heap.new_points ret length seq points scalars random calls].
    now rewrite app_nil_r.
  - cbn [Heap.new_points]. unfold bind, Heap.new_point. rewrite IH.
    cbn [points scalars random calls length seq ret].
    rewrite length_app, Nat.add_1_r, <- app_assoc. reflexivity.
Qed.

(** The new cells hold what they were created with, whatever is created
    after them. *)
Lemma nth_seq_new {A : Type} (d : A) (m : list A) :
  forall l k : list A,
    map (fun r => nth r ((l ++ m) ++ k) d) (seq (length l) (length m)) = m.
Proof.
  induction m as [|a m IH]; intros l k; [reflexivity|].
  cbn [length seq map]. rewrite nth_older. f_equal.
  replace (l ++ a :: m) with ((l ++ [a]) ++ m)
    by (rewrite <- app_assoc; reflexivity).
  replace (S (length l)) with (length (l ++ [a]))
    by (rewrite length_app; simpl; lia).
  apply IH.
Qed.

Lemma nth_seq_last {A : Type} (d : A) (l m : list A) :
  map (fun r => nth r (l ++ m) d) (seq (length l) (length m)) = m.
Proof.
  pose proof (nth_seq_new d m l []) as E. now rewrite app_nil_r in E.
Qed.

Lemma nth_older_cells {A : Type} (d : A) (l m : list A) (rs : list nat) :
  Forall (fun r => r < length l)%nat rs ->
  map (fun r => nth r (l ++ m) d) rs = map (fun r => nth r l d) rs.
Proof.
  intros Hrs. apply map_ext_in. intros r Hr.
  rewrite Forall_forall in Hrs. apply app_nth1. auto.
Qed.

Lemma map_fst_combine {A B : Type} (l : list A) :
  forall l' : list B, length l = length l' -> map fst (combine l l') = l.
Proof.
  induction l as [|a l IH]; intros [|c l'] E; try discriminate E;
    [reflexivity|].
  cbn [combine map fst]. f_equal. apply IH. now injection E.
Qed.

Lemma map_snd_combine {A B : Type} (l : list A) :
  forall l' : list B, length l = length l' -> map snd (combine l l') = l'.
Proof.
  induction l as [|a l IH]; intros [|c l'] E; try discriminate E;
    [reflexivity|].
  cbn [combine map snd]. f_equal. apply IH. now injection E.
Qed.

Lemma EncShares_pack_values (st : Store) (indices : list Z) :
  forall (sX : list nat) (proofs : list DLEQProof),
    map (value_of_PubVerShare st) (Heap.EncShares_pack indices sX proofs)
    = EncShares_pack indices (map (Heap.point_at st) sX) proofs.
Proof.
  induction indices as [|i indices IH]; intros [|sx sX] [|p proofs];
    try reflexivity.
  cbn [Heap.EncShares_pack EncShares_pack map]. now rewrite IH.
Qed.

(** [EncShares] on the store returns the error that [EncShares] on values
    returns, shares and a polynomial that hold the values that it returns,
    and takes from the random stream what it takes. *)
Lemma EncShares_refines (st : Store) (H : nat) (X : list nat) (secret : nat)
    (t : Z) :
  live_point st H -> Forall (live_point st) X ->
  let res := Heap.EncShares H X secret t st in
  let val := EncShares (Heap.point_at st H) (map (Heap.point_at st) X)
               (Heap.scalar_at st secret) t (random st) in
  (map (value_of_PubVerShare (snd res)) (fst (fst (fst res))),
   option_map (value_of_PubPoly (snd res)) (snd (fst (fst res))),
   snd (fst res)) = fst val
  /\ random (snd res) = snd val.
Proof.
  intros HH HX. cbv zeta. destruct st as [P0 s0 r0 c0].
  unfold live_point in HH, HX. cbn [points] in HH, HX.
  unfold Heap.EncShares, EncShares, Heap.NewPriPoly, Heap.PriPoly_Shares,
    Heap.PriPoly_Commit, Heap.NewDLEQProofBatch, Heap.get_PriPoly,
    Heap.get_scalars, Heap.get_points, Heap.get_scalar, Heap.get_point,
    Heap.draw, Heap.record, Heap.scalar_at, Heap.point_at, bind, ret.
  cbn [fst snd points scalars random calls coeff_cells].
  rewrite length_map.
  destruct (NewPriPoly t (nth secret s0 0%F) r0) as [[cs] r1].
  rewrite new_scalars_run. cbn [fst snd points scalars random calls coeffs
                                coeff_cells].
  rewrite nth_seq_last.
  set (shares := PriPoly_Shares {| coeffs := cs |} (Z.of_nat (length X))).
  rewrite new_scalars_run.
  cbn [fst snd points scalars random calls coeffs coeff_cells].
  rewrite nth_seq_new. rewrite new_points_run.
  cbn [fst snd points scalars random calls coeffs coeff_cells].
  set (objs := map (fun ic : Z * nat => PriShareObj.mk (fst ic) (snd ic))
                 (combine (map PriShare.I shares)
                    (seq (length (s0 ++ cs))
                       (length (map PriShare.V shares))))).
  assert (EI : map PriShareObj.I objs = map PriShare.I shares).
  { unfold objs. rewrite map_map. cbn [PriShareObj.I].
    apply map_fst_combine. now rewrite length_seq, !length_map. }
  assert (EV : map PriShareObj.V objs
               = seq (length (s0 ++ cs)) (length (map PriShare.V shares))).
  { unfold objs. rewrite map_map. cbn [PriShareObj.V].
    apply map_snd_combine. now rewrite length_seq, !length_map. }
  assert (EH : map (fun r => nth r (P0 ++ commits (PriPoly_Commit
                                 {| coeffs := cs |} (nth H P0 Point_Null)))
                                Point_Null)
                 (map (fun _ : PriShareObj.t => H) objs)
               = map (fun _ : PriShare => nth H P0 Point_Null) shares).
  { rewrite map_map, !map_const. rewrite app_nth1 by exact HH. f_equal.
    rewrite <- (length_map PriShareObj.I objs), EI. apply length_map. }
  rewrite EI, EV, EH. rewrite (nth_older_cells _ P0 _ X HX).
  rewrite nth_seq_last.
  set (pubPoly := PriPoly_Commit {| coeffs := cs |} (nth H P0 Point_Null)).
  destruct (NewDLEQProofBatch
              (map (fun _ : PriShare => nth H P0 Point_Null) shares)
              (map (fun r : nat => nth r P0 Point_Null) X)
              (map PriShare.V shares) r1)
    as [[[[ps xGv] xHv]|err] r2]; [|split; reflexivity].
  rewrite !new_points_run.
  cbn [fst snd points scalars random calls option_map].
  split; [|reflexivity].
  rewrite EncShares_pack_values. unfold value_of_PubPoly, Heap.point_at.
  cbn [points b_cell commit_cells].
  rewrite nth_seq_last.
  rewrite <- (app_assoc (P0 ++ commits pubPoly) xGv xHv).
  rewrite nth_seq_new.
  rewrite <- (app_assoc P0 (commits pubPoly) (xGv ++ xHv)).
  rewrite app_nth1 by exact HH. reflexivity.
Qed.

Lemma computes_ret {A B : Type} (st : Store) (m : Heap.St A)
    (value_of : Store -> A -> B) (v : B) :
  value_of (snd (m st)) (fst (m st)) = v -> Drawless m ->
  computes st m value_of (ret v).
Proof. intros Hv Hd. unfold computes, ret. now rewrite Hv, Hd. Qed.

Lemma computes_pair {A B : Type} (st : Store) (m : Heap.St A)
    (value_of : Store -> A -> B) (f : Rand B) :
  value_of (snd (m st)) (fst (m st)) = fst (f (random st)) /\
  random (snd (m st)) = snd (f (random st)) ->
  computes st m value_of f.
Proof.
  intros (Hv & Hr). unfold computes. rewrite Hv, Hr.
  symmetry. apply surjective_pairing.
Qed.

(** C9. Every operation of [pvss.go] leaves each point and each scalar
    that exists when it is called holding the value it held: the objects
    an operation writes are objects it has created. And no operation
    keeps a state: started on arguments that are in the store, it returns
    results whose values are those that the operation on values returns,
    on the values of the arguments and the random stream alone; the
    operations that verify and [RecoverSecret] leave the random stream
    where it was. *)
Theorem operations_preserve_inputs (st : Store) (H G Xi secret x : nat)
    (X : list nat) (poly : PubPolyObj) (polys : list PubPolyObj)
    (encShare decShare : PubVerShareObj.t)
    (encShares decShares : list PubVerShareObj.t) (t n : Z) :
  (preserved st (snd (Heap.EncShares H X secret t st)) /\
   preserved st (snd (Heap.VerifyEncShare H Xi poly encShare st)) /\
   preserved st (snd (Heap.VerifyEncShareBatch H X polys encShares st)) /\
   preserved st (snd (Heap.DecShare H Xi poly x encShare st)) /\
   preserved st (snd (Heap.DecShareBatch H X polys x encShares st)) /\
   preserved st (snd (Heap.VerifyDecShare G Xi encShare decShare st)) /\
   preserved st
     (snd (Heap.VerifyDecShareBatch G X encShares decShares st)) /\
   preserved st
     (snd (Heap.RecoverSecret G X encShares decShares t n st))) /\
  (live_point st H -> Forall (live_point st) X ->
   computes st (Heap.EncShares H X secret t) value_of_EncShares
     (EncShares (Heap.point_at st H) (map (Heap.point_at st) X)
        (Heap.scalar_at st secret) t)) /\
  (live_point st H -> live_point st Xi -> live_PubVerShare st encShare ->
   computes st (Heap.VerifyEncShare H Xi poly encShare) (fun _ err => err)
     (ret (VerifyEncShare (Heap.point_at st H) (Heap.point_at st Xi)
             (value_of_PubPoly st poly)
             (value_of_PubVerShare st encShare)))) /\
  (live_point st H -> Forall (live_point st) X ->
   Forall (live_PubPoly st) polys ->
   Forall (live_PubVerShare st) encShares ->
   computes st (Heap.VerifyEncShareBatch H X polys encShares)
     value_of_VerifyEncShareBatch
     (ret (VerifyEncShareBatch (Heap.point_at st H)
             (map (Heap.point_at st) X) (map (value_of_PubPoly st) polys)
             (map (value_of_PubVerShare st) encShares)))) /\
  (live_point st H -> live_point st Xi -> live_PubVerShare st encShare ->
   live_scalar st x ->
   computes st (Heap.DecShare H Xi poly x encShare) value_of_DecShare
     (DecShare (Heap.point_at st H) (Heap.point_at st Xi)
        (value_of_PubPoly st poly) (Heap.scalar_at st x)
        (value_of_PubVerShare st encShare))) /\
  (live_point st H -> Forall (live_point st) X -> live_scalar st x ->
   Forall (live_PubPoly st) polys ->
   Forall (live_PubVerShare st) encShares ->
   computes st (Heap.DecShareBatch H X polys x encShares)
     value_of_DecShareBatch
     (DecShareBatch (Heap.point_at st H) (map (Heap.point_at st) X)
        (map (value_of_PubPoly st) polys) (Heap.scalar_at st x)
        (map (value_of_PubVerShare st) encShares))) /\
  computes st (Heap.VerifyDecShare G Xi encShare decShare)
    (fun _ err => err)
    (ret (VerifyDecShare (Heap.point_at st G) (Heap.point_at st Xi)
            (value_of_PubVerShare st encShare)
            (value_of_PubVerShare st decShare))) /\
  (live_point st G -> Forall (live_point st) X ->
   Forall (live_PubVerShare st) encShares ->
   Forall (live_PubVerShare st) decShares ->
   computes st (Heap.VerifyDecShareBatch G X encShares decShares)
     value_of_VerifyDecShareBatch
     (ret (VerifyDecShareBatch (Heap.point_at st G)
             (map (Heap.point_at st) X)
             (map (value_of_PubVerShare st) encShares)
             (map (value_of_PubVerShare st) decShares)))) /\
  (live_point st G -> Forall (live_point st) X ->
   Forall (live_PubVerShare st) encShares ->
   Forall (live_PubVerShare st) decShares ->
   computes st (Heap.RecoverSecret G X encShares decShares t n)
     value_of_RecoverSecret
     (ret (RecoverSecret (Heap.point_at st G) (map (Heap.point_at st) X)
             (map (value_of_PubVerShare st) encShares)
             (map (value_of_PubVerShare st) decShares) t n))).
Proof.
  split; [|repeat first [ match goal with |- _ /\ _ => split end ]].
  - repeat first [ match goal with |- _ /\ _ => split end ].
    + apply Preserving_EncShares.
    + apply Preserving_VerifyEncShare.
    + apply Preserving_VerifyEncShareBatch.
    + apply Preserving_DecShare.
    + apply Preserving_DecShareBatch.
    + apply Preserving_VerifyDecShare.
    + apply Preserving_VerifyDecShareBatch.
    + apply Preserving_RecoverSecret.
  - intros HH HX. apply computes_pair.
    apply (EncShares_refines st H X secret t HH HX).
  - intros HH HX He. apply computes_ret.
    + now apply VerifyEncShare_refines.
    + apply Drawless_VerifyEncShare.
  - intros HH HX Hpolys Hencs. apply computes_ret.
    + now apply VerifyEncShareBatch_refines.
    + apply Drawless_VerifyEncShareBatch.
  - intros HH HX He Hx. apply computes_pair.
    destruct (DecShare_refines st H Xi poly x encShare HH HX He Hx)
      as (Hv & Hr & _).
    split; assumption.
  - intros HH HX Hx Hpolys Hencs. apply computes_pair.
    apply (DecShareBatch_refines st H X polys x encShares HH HX Hx Hpolys
             Hencs).
  - apply computes_ret.
    + apply VerifyDecShare_refines.
    + apply Drawless_VerifyDecShare.
  - intros HG HX Hencs Hdecs. apply computes_ret.
    + now apply VerifyDecShareBatch_refines.
    + apply Drawless_VerifyDecShareBatch.
  - intros HG HX Hencs Hdecs. apply computes_ret.
    + now apply RecoverSecret_refines.
    + apply Drawless_RecoverSecret.
Qed.

End Refinement.

(** On the store of the small instance: [EncShares] for the three public
    keys and a threshold of two, and [VerifyEncShare] of a share that is
    the first public key with a proof that does not verify. *)
Lemma operations_preserve_inputs_witness :
  preserved F7_store
    (snd (@Heap.EncShares F7_group F7_proofs 0 [1; 2; 3]%nat 0 2 F7_store)) /\
  computes F7_store
    (@Heap.EncShares F7_group F7_proofs 0 [1; 2; 3]%nat 0 2)
    value_of_EncShares
    (@EncShares F7_group F7_proofs F7_H F7_X f4 2) /\
  computes F7_store
    (@Heap.VerifyEncShare F7_group F7_proofs 0 1
       {| b_cell := 0; commit_cells := [] |}
       (@PubVerShareObj.mk F7_group F7_proofs (PubShareObj.mk 1 1)
          (@Build_CPProof F7_group f0 f0 f1 f0)))
    (fun _ err => err)
    (ret (Some errorEncVerification)).
Proof.
  destruct (@operations_preserve_inputs F7_group F7_proofs F7_store
              0%nat 0%nat 1%nat 0%nat 1%nat [1; 2; 3]%nat
              {| b_cell := 0; commit_cells := [] |} []
              (@PubVerShareObj.mk F7_group F7_proofs (PubShareObj.mk 1 1)
                 (@Build_CPProof F7_group f0 f0 f1 f0))
              (@PubVerShareObj.mk F7_group F7_proofs (PubShareObj.mk 1 1)
                 (@Build_CPProof F7_group f0 f0 f1 f0))
              [] [] 2 3)
    as ((Hpres & _) & Hissue & Hverify & _).
  assert (L0 : live_point F7_store 0) by (unfold live_point; simpl; lia).
  assert (L1 : live_point F7_store 1) by (unfold live_point; simpl; lia).
  assert (LX : Forall (live_point F7_store) [1; 2; 3]%nat).
  { repeat constructor; unfold live_point; simpl; lia. }
  split; [exact Hpres | split].
  - exact (Hissue L0 LX).
  - exact (Hverify L0 L1 L1).
Defined.

(** * More of [pvss.go]

    ** What a single decryption and its verification do *)

Section Decryption.

Context {g : Group} {pp : ProofPkg g}.

Local Open Scope Z_scope.

Lemma VerifyDecShare_reindex (f : Z -> Z) (G X : Point)
    (encShare decShare : PubVerShare) :
  VerifyDecShare G X encShare (reindex f decShare)
  = VerifyDecShare G X encShare decShare.
Proof. reflexivity. Qed.

Lemma VerifyDecShareBatch_loop_reindex (f : Z -> Z) (G : Point)
    (X : list Point) :
  forall encShares decShares D : list PubVerShare,
    VerifyDecShareBatch_loop G X encShares (map (reindex f) decShares)
      (map (reindex f) D)
    = map (reindex f) (VerifyDecShareBatch_loop G X encShares decShares D).
Proof.
  induction X as [|Xi X IH]; intros [|e encShares] [|d decShares] D;
    try reflexivity.
  cbn [map VerifyDecShareBatch_loop]. rewrite VerifyDecShare_reindex.
  destruct (VerifyDecShare G Xi e d).
  - apply IH.
  - rewrite <- IH. now rewrite map_app.
Qed.

(** X1. [VerifyDecShare] returns a nil error exactly when the proof of the
    decrypted share verifies over the bases [G] and the value of the
    decrypted share and the values [X] and the value of the encrypted
    share; its only error is [errorDecVerification]. No index is
    verified: [VerifyDecShareBatch] on decrypted shares that have been
    moved to other indices returns the shares that it returns on the
    given ones, moved likewise, with the same error. *)
Theorem VerifyDecShare_spec (G : Point) (X : list Point) (Xi : Point)
    (encShares decShares : list PubVerShare)
    (encShare decShare : PubVerShare) (f : Z -> Z) :
  let verified :=
    DLEQProof_Verify (PubVerShare.P decShare) G
      (PubShare.V (PubVerShare.S decShare)) Xi
      (PubShare.V (PubVerShare.S encShare)) in
  (VerifyDecShare G Xi encShare decShare = None <-> verified = true) /\
  (VerifyDecShare G Xi encShare decShare = Some errorDecVerification
   <-> verified = false) /\
  (forall err, VerifyDecShare G Xi encShare decShare = Some err ->
               err = errorDecVerification) /\
  VerifyDecShareBatch G X encShares (map (reindex f) decShares)
  = (map (reindex f) (fst (VerifyDecShareBatch G X encShares decShares)),
     snd (VerifyDecShareBatch G X encShares decShares)).
Proof.
  intros verified. split; [|split; [|split]].
  - unfold VerifyDecShare. fold verified.
    destruct verified; simpl; split; congruence.
  - unfold VerifyDecShare. fold verified.
    destruct verified; simpl; split; congruence.
  - unfold VerifyDecShare. fold verified.
    destruct verified; simpl; congruence.
  - unfold VerifyDecShareBatch. rewrite length_map.
    destruct (negb (length X =? length encShares)%nat
              || negb (length encShares =? length decShares)%nat);
      [reflexivity|].
    cbn [fst snd].
    now rewrite <- (VerifyDecShareBatch_loop_reindex f G X encShares
                      decShares []).
Qed.

(** What [DecShare] returns with a share. *)
Lemma DecShare_returned (H X : Point) (poly : PubPoly) (x : Scalar)
    (encShare decShare : PubVerShare) (err : option error) (r r' : Stream) :
  DecShare H X poly x encShare r = ((Some decShare, err), r') ->
  VerifyEncShare H X poly encShare = None /\
  err = None /\
  PubShare.I (PubVerShare.S decShare) = PubShare.I (PubVerShare.S encShare) /\
  PubShare.V (PubVerShare.S decShare)
  = (PubShare.V (PubVerShare.S encShare) * Scalar_Inv x)%P /\
  exists xG xV,
    NewDLEQProof Point_Base
      (PubShare.V (PubVerShare.S encShare) * Scalar_Inv x)%P x r
    = (Ok (PubVerShare.P decShare, xG, xV), r').
Proof.
  unfold DecShare.
  destruct (VerifyEncShare H X poly encShare) as [e|]; [discriminate|].
  unfold bind.
  destruct (NewDLEQProof Point_Base _ x r) as [[[[P xG] xV]|e] r1];
    unfold ret; intros E; inversion E; subst. simpl. eauto 8.
Qed.

(** X2. [DecShare] returns a share or an error, never both and never
    neither. Its error is that of the verification of the encrypted
    share, [errorEncVerification], in which case nothing is drawn from the
    random stream, or it is the error of the generation of the proof, the
    share having passed the verification. *)
Theorem DecShare_share_or_error (H X : Point) (poly : PubPoly) (x : Scalar)
    (encShare : PubVerShare) (r : Stream) :
  let V := (PubShare.V (PubVerShare.S encShare) * Scalar_Inv x)%P in
  let out := DecShare H X poly x encShare r in
  (fst (fst out) = None <-> snd (fst out) <> None) /\
  (forall err, snd (fst out) = Some err ->
     (VerifyEncShare H X poly encShare = Some errorEncVerification /\
      err = errorEncVerification /\ snd out = r) \/
     (VerifyEncShare H X poly encShare = None /\
      NewDLEQProof Point_Base V x r = (Err err, snd out))).
Proof.
  intros V out. subst out. unfold DecShare. fold V.
  destruct (VerifyEncShare H X poly encShare) as [e|] eqn:Ev.
  - rewrite (VerifyEncShare_error H X poly encShare e Ev). unfold ret.
    cbn [fst snd]. split; [split; [discriminate | reflexivity]|].
    intros err E. injection E as <-. left. auto.
  - unfold bind.
    destruct (NewDLEQProof Point_Base V x r) as [[[[P xG] xV]|e] r1];
      unfold ret; cbn [fst snd].
    + split; [split; [discriminate | congruence]|]. discriminate.
    + split; [split; [discriminate | reflexivity]|].
      intros err E. injection E as <-. right. auto.
Qed.

End Decryption.

Section DecryptionVerifies.

Context {g : Group} {gl : GroupLaws g} {pp : ProofPkg g}
        {ppl : ProofPkgLaws g pp}.

Local Open Scope Z_scope.

(** The share that [DecShare] returns to the holder of the key pair
    [(x, Base * x)] passes [VerifyDecShare]. *)
Lemma DecShare_dec_ok (H : Point) (poly : PubPoly) (x : Scalar)
    (encShare decShare : PubVerShare) (r r' : Stream) :
  x <> 0%F ->
  DecShare H (Point_Base * x)%P poly x encShare r
  = ((Some decShare, None), r') ->
  VerifyDecShare Point_Base (Point_Base * x)%P encShare decShare = None /\
  (PubShare.V (PubVerShare.S decShare) * x)%P
  = PubShare.V (PubVerShare.S encShare).
Proof.
  intros Hx E.
  destruct (DecShare_returned _ _ _ _ _ _ _ _ _ E)
    as (_ & _ & _ & HV & xG & xV & EP).
  set (V := (PubShare.V (PubVerShare.S encShare) * Scalar_Inv x)%P) in *.
  destruct (NewDLEQProof_complete Point_Base V x r) as (P & r1 & E1 & HP).
  rewrite E1 in EP. inversion EP; subst.
  assert (EV : (V * x)%P = PubShare.V (PubVerShare.S encShare)).
  { unfold V. now apply Point_Mul_Inv_Mul. }
  split.
  - unfold VerifyDecShare. rewrite HV, <- EV, HP. reflexivity.
  - now rewrite HV.
Qed.

(** X3. In a lawful group with a lawful proof package, the share that
    [DecShare] returns to the holder of a key pair [(x, Base * x)] with
    [x <> 0] passes [VerifyDecShare] for the base point, the public key
    and the encrypted share; it has the index of the encrypted share, and
    encrypting its value with [x] gives the value of the encrypted share
    back. *)
Theorem DecShare_passes_VerifyDecShare (H : Point) (poly : PubPoly)
    (x : Scalar) (encShare decShare : PubVerShare) (r r' : Stream) :
  x <> 0%F ->
  DecShare H (Point_Base * x)%P poly x encShare r
  = ((Some decShare, None), r') ->
  VerifyDecShare Point_Base (Point_Base * x)%P encShare decShare = None /\
  PubShare.I (PubVerShare.S decShare) = PubShare.I (PubVerShare.S encShare) /\
  (PubShare.V (PubVerShare.S decShare) * x)%P
  = PubShare.V (PubVerShare.S encShare).
Proof.
  intros Hx E.
  destruct (DecShare_dec_ok H poly x encShare decShare r r' Hx E)
    as (Hv & HV).
  destruct (DecShare_returned _ _ _ _ _ _ _ _ _ E) as (_ & _ & HI & _).
  auto.
Qed.

End DecryptionVerifies.

Lemma DecShare_passes_VerifyDecShare_witness :
  @VerifyDecShare F7_group F7_proofs f1 (F7_mul f1 f2) F7_encShare1
    F7_decShare1 = None /\
  PubShare.I (PubVerShare.S F7_decShare1)
  = PubShare.I (PubVerShare.S F7_encShare1) /\
  F7_mul (PubShare.V (PubVerShare.S F7_decShare1)) f2
  = PubShare.V (PubVerShare.S F7_encShare1).
Proof.
  assert (E : exists r',
             @DecShare F7_group F7_proofs F7_H (F7_mul f1 f2) F7_pubPoly f2
               F7_encShare1 F7_stream
             = ((Some F7_decShare1, None), r'))
    by (apply run_result; reflexivity).
  destruct E as (r' & E).
  apply (@DecShare_passes_VerifyDecShare F7_group F7_laws F7_proofs
           F7_proofs_laws F7_H F7_pubPoly f2 F7_encShare1 F7_decShare1
           F7_stream r').
  - discriminate.
  - exact E.
Defined.

(** ** What the batch operations keep *)

Section BatchDecryption.

Context {g : Group} {pp : ProofPkg g}.

Local Open Scope Z_scope.

(** The loop of [DecShareBatch] appends, to what it has collected, the
    entries for which [DecShare] returns a share, in their order, with
    these shares. *)
Lemma DecShareBatch_loop_kept (H : Point) (x : Scalar) (X : list Point) :
  forall (polys : list PubPoly) (encShares : list PubVerShare)
         (K : list Point) (E D : list PubVerShare) (r : Stream),
  exists (kept : list (Point * (PubPoly * PubVerShare) * PubVerShare))
         (r' : Stream),
    DecShareBatch_loop H X polys x encShares K E D r
    = ((K ++ map (fun k => fst (fst k)) kept,
        E ++ map (fun k => snd (snd (fst k))) kept,
        D ++ map snd kept), r') /\
    subseq (map fst kept) (enc_rows X polys encShares) /\
    Forall (kept_ok H x) kept.
Proof.
  induction X as [|Xi X IH]; intros [|poly polys] [|e encShares] K E D r;
    try (exists [], r; cbn [DecShareBatch_loop map ret];
         rewrite !app_nil_r; repeat split; constructor).
  cbn [DecShareBatch_loop]. unfold bind.
  destruct (DecShare H Xi poly x e r) as [[[d|] err] r1] eqn:Ed.
  - destruct (DecShare_returned _ _ _ _ _ _ _ _ _ Ed) as (_ & -> & _).
    destruct (IH polys encShares (K ++ [Xi]) (E ++ [e]) (D ++ [d]) r1)
      as (kept & r' & Eloop & Hsub & Hkept).
    exists ((Xi, (poly, e), d) :: kept), r'. split; [|split].
    + rewrite Eloop. cbn [map fst snd]. now rewrite <- !app_assoc.
    + cbn [map fst enc_rows combine]. now constructor.
    + constructor; [|exact Hkept]. exists r, r1. exact Ed.
  - destruct (IH polys encShares K E D r1)
      as (kept & r' & Eloop & Hsub & Hkept).
    exists kept, r'. split; [|split].
    + destruct err; exact Eloop.
    + cbn [enc_rows combine]. now constructor.
    + exact Hkept.
Qed.

Lemma kept_ok_enc_ok (H : Point) (x : Scalar)
    (k : Point * (PubPoly * PubVerShare) * PubVerShare) :
  kept_ok H x k ->
  enc_ok H (fst k) = true /\ decrypts x (snd (snd (fst k))) (snd k).
Proof.
  intros (r & r' & E).
  destruct (DecShare_returned _ _ _ _ _ _ _ _ _ E) as (Hv & _ & HI & HV & _).
  unfold enc_ok, decrypts. rewrite Hv. auto.
Qed.

(** X4. On inputs of equal lengths [DecShareBatch] returns a nil error
    and three sequences of one length: the public keys and the encrypted
    shares of a subsequence of the co-indexed input entries, each of which
    passes [VerifyEncShare], and for each of them, at the same position,
    a decrypted share with the index of the encrypted share and its value
    multiplied by the inverse of [x]. *)
Theorem DecShareBatch_aligned (H : Point) (X : list Point)
    (polys : list PubPoly) (x : Scalar) (encShares : list PubVerShare)
    (r : Stream) :
  length X = length polys -> length polys = length encShares ->
  exists (rows : list (Point * (PubPoly * PubVerShare)))
         (D : list PubVerShare) (r' : Stream),
    DecShareBatch H X polys x encShares r
    = ((map fst rows, map (fun row => snd (snd row)) rows, D, None), r') /\
    subseq rows (enc_rows X polys encShares) /\
    Forall (fun row => enc_ok H row = true) rows /\
    Forall2 (fun row d => decrypts x (snd (snd row)) d) rows D.
Proof.
  intros Hlen1 Hlen2. unfold DecShareBatch.
  rewrite (proj2 (lengths_checked _ _ _) (conj Hlen1 Hlen2)).
  destruct (DecShareBatch_loop_kept H x X polys encShares [] [] [] r)
    as (kept & r' & Eloop & Hsub & Hkept).
  exists (map fst kept), (map snd kept), r'. unfold bind, ret.
  rewrite Eloop. cbn [fst snd app]. rewrite !map_map.
  split; [reflexivity|]. split; [exact Hsub|]. split.
  - apply Forall_map. eapply Forall_impl; [|exact Hkept].
    intros k Hk. now apply kept_ok_enc_ok in Hk.
  - clear Eloop Hsub. induction Hkept as [|k kept Hk _ IH]; cbn [map].
    + constructor.
    + constructor; [|exact IH]. now apply kept_ok_enc_ok in Hk.
Qed.

End BatchDecryption.

Lemma DecShareBatch_aligned_witness :
  exists (rows : list (F7 * (@PubPoly F7_group
                             * @PubVerShare F7_group F7_proofs)))
         (D : list (@PubVerShare F7_group F7_proofs))
         (r' : @Stream F7_group),
    @DecShareBatch F7_group F7_proofs F7_H F7_X F7_polys f2 F7_tampered
      F7_stream
    = ((map fst rows, map (fun row => snd (snd row)) rows, D, None), r') /\
    subseq rows (@enc_rows F7_group F7_proofs F7_X F7_polys F7_tampered) /\
    Forall (fun row => @enc_ok F7_group F7_proofs F7_H row = true) rows /\
    Forall2 (fun row d => @decrypts F7_group F7_proofs f2 (snd (snd row)) d)
      rows D.
Proof.
  exact (@DecShareBatch_aligned F7_group F7_proofs F7_H F7_X F7_polys f2
           F7_tampered F7_stream eq_refl eq_refl).
Defined.

Section BatchDecryptionLaws.

Context {g : Group} {pp : ProofPkg g} {ppl : ProofPkgLaws g pp}.

Local Open Scope Z_scope.

(** With a proof package that generates a proof for every statement, the
    decryption of a share fails only when its verification does. *)
Lemma DecShareBatch_loop_verified (H : Point) (x : Scalar) (X : list Point) :
  forall (polys : list PubPoly) (encShares : list PubVerShare)
         (K : list Point) (E D : list PubVerShare) (r : Stream),
  exists (D' : list PubVerShare) (r' : Stream),
    DecShareBatch_loop H X polys x encShares K E D r
    = ((K ++ map fst (filter (enc_ok H) (enc_rows X polys encShares)),
        E ++ map (fun row => snd (snd row))
               (filter (enc_ok H) (enc_rows X polys encShares)),
        D ++ D'), r') /\
    length D'
    = length (filter (enc_ok H) (enc_rows X polys encShares)).
Proof.
  induction X as [|Xi X IH]; intros [|poly polys] [|e encShares] K E D r;
    try (exists [], r; cbn [DecShareBatch_loop enc_rows combine filter map
                            ret];
         rewrite !app_nil_r; split; reflexivity).
  cbn [DecShareBatch_loop enc_rows combine filter].
  fold (enc_rows X polys encShares).
  assert (Hok : enc_ok H (Xi, (poly, e))
                = is_nil (VerifyEncShare H Xi poly e)) by reflexivity.
  rewrite Hok. clear Hok. unfold bind.
  destruct (VerifyEncShare H Xi poly e) as [err|] eqn:Ev; cbn [is_nil].
  - assert (Ed : DecShare H Xi poly x e r = ((None, Some err), r)).
    { unfold DecShare. now rewrite Ev. }
    rewrite Ed. apply IH.
  - set (V := (PubShare.V (PubVerShare.S e) * Scalar_Inv x)%P).
    destruct (NewDLEQProof_complete Point_Base V x r) as (P & r1 & E1 & _).
    rewrite (DecShare_verified H Xi poly x e r r1 P _ _ Ev E1).
    destruct (IH polys encShares (K ++ [Xi]) (E ++ [e])
                (D ++ [PubVerShare.mk
                         (PubShare.mk (PubShare.I (PubVerShare.S e)) V) P])
                r1)
      as (D' & r' & Eloop & Hlen).
    exists (PubVerShare.mk (PubShare.mk (PubShare.I (PubVerShare.S e)) V) P
            :: D'), r'.
    split.
    + fold V. rewrite Eloop. cbn [map fst snd]. now rewrite <- !app_assoc.
    + cbn [length]. now rewrite Hlen.
Qed.

(** X5. With a proof package that generates a proof for every statement,
    [DecShareBatch] on inputs of equal lengths returns the public keys and
    the encrypted shares that [VerifyEncShareBatch] returns on them, and
    as many decrypted shares. *)
Theorem DecShareBatch_keeps_verified (H : Point) (X : list Point)
    (polys : list PubPoly) (x : Scalar) (encShares : list PubVerShare)
    (r : Stream) :
  length X = length polys -> length polys = length encShares ->
  exists (K : list Point) (E D : list PubVerShare) (r' : Stream),
    DecShareBatch H X polys x encShares r = ((K, E, D, None), r') /\
    VerifyEncShareBatch H X polys encShares = (K, E, None) /\
    length D = length E.
Proof.
  intros Hlen1 Hlen2.
  rewrite (VerifyEncShareBatch_equal_lengths H X polys encShares Hlen1 Hlen2).
  unfold DecShareBatch.
  rewrite (proj2 (lengths_checked _ _ _) (conj Hlen1 Hlen2)).
  destruct (DecShareBatch_loop_verified H x X polys encShares [] [] [] r)
    as (D & r' & Eloop & Hlen).
  unfold bind, ret. rewrite Eloop. cbn [fst snd app].
  eexists _, _, D, r'. split; [reflexivity|]. split; [reflexivity|].
  now rewrite length_map.
Qed.

End BatchDecryptionLaws.

Lemma DecShareBatch_keeps_verified_witness :
  exists (K : list F7) (E D : list (@PubVerShare F7_group F7_proofs))
         (r' : @Stream F7_group),
    @DecShareBatch F7_group F7_proofs F7_H F7_X F7_polys f2 F7_tampered
      F7_stream = ((K, E, D, None), r') /\
    @VerifyEncShareBatch F7_group F7_proofs F7_H F7_X F7_polys F7_tampered
    = (K, E, None) /\
    length D = length E.
Proof.
  exact (@DecShareBatch_keeps_verified F7_group F7_proofs F7_proofs_laws
           F7_H F7_X F7_polys f2 F7_tampered F7_stream eq_refl eq_refl).
Defined.

Section BatchDecryptionVerifies.

Context {g : Group} {gl : GroupLaws g} {pp : ProofPkg g}
        {ppl : ProofPkgLaws g pp}.

Local Open Scope Z_scope.

Lemma subseq_In {A : Type} (l1 l2 : list A) (a : A) :
  subseq l1 l2 -> In a l1 -> In a l2.
Proof.
  induction 1 as [|c l1 l2 _ IH|c l1 l2 _ IH]; simpl; intuition.
Qed.

(** X6. In a lawful group with a lawful proof package, what
    [DecShareBatch] returns to the holder of a key pair [(x, Base * x)]
    with [x <> 0], on inputs of equal lengths whose public keys are all
    this public key, passes [VerifyDecShareBatch] whole: the decrypted
    shares come back, all of them, with a nil error. *)
Theorem DecShareBatch_passes_VerifyDecShareBatch (H : Point)
    (X : list Point) (polys : list PubPoly) (x : Scalar)
    (encShares : list PubVerShare) (r : Stream) :
  x <> 0%F -> Forall (fun Xi => Xi = (Point_Base * x)%P) X ->
  length X = length polys -> length polys = length encShares ->
  exists (K : list Point) (E D : list PubVerShare) (r' : Stream),
    DecShareBatch H X polys x encShares r = ((K, E, D, None), r') /\
    VerifyDecShareBatch Point_Base K E D = (D, None).
Proof.
  intros Hx HX Hlen1 Hlen2. unfold DecShareBatch.
  rewrite (proj2 (lengths_checked _ _ _) (conj Hlen1 Hlen2)).
  destruct (DecShareBatch_loop_kept H x X polys encShares [] [] [] r)
    as (kept & r' & Eloop & Hsub & Hkept).
  unfold bind, ret. rewrite Eloop. cbn [fst snd app].
  eexists _, _, _, r'. split; [reflexivity|].
  rewrite VerifyDecShareBatch_equal_lengths by now rewrite !length_map.
  set (rows := map (fun k : Point * (PubPoly * PubVerShare) * PubVerShare =>
                      (fst (fst k), (snd (snd (fst k)), snd k))) kept).
  assert (Erows :
    dec_rows (map (fun k => fst (fst k)) kept)
      (map (fun k => snd (snd (fst k))) kept) (map snd kept) = rows).
  { unfold rows, dec_rows. clear.
    induction kept as [|k kept IH]; cbn [map combine];
      [reflexivity | now rewrite IH]. }
  rewrite Erows. rewrite filter_all.
  - unfold rows. now rewrite map_map.
  - unfold rows. apply Forall_map. rewrite Forall_forall in *.
    intros k Hk. destruct (Hkept k Hk) as (r1 & r2 & Ed).
    assert (EX : fst (fst k) = (Point_Base * x)%P).
    { apply HX. apply (in_map fst) in Hk.
      apply (subseq_In _ _ _ Hsub) in Hk.
      destruct (fst k) as [Xi pe]. now apply in_combine_l in Hk. }
    rewrite EX in Ed. unfold dec_ok. cbn [fst snd]. rewrite EX.
    now rewrite (proj1 (DecShare_dec_ok _ _ _ _ _ _ _ Hx Ed)).
Qed.

End BatchDecryptionVerifies.

Lemma DecShareBatch_passes_VerifyDecShareBatch_witness :
  exists (K : list F7) (E D : list (@PubVerShare F7_group F7_proofs))
         (r' : @Stream F7_group),
    @DecShareBatch F7_group F7_proofs F7_H [f2; f2; f2] F7_polys f2
      [F7_encShare1; F7_encShare1; F7_encShare1] F7_stream
    = ((K, E, D, None), r') /\
    @VerifyDecShareBatch F7_group F7_proofs f1 K E D = (D, None).
Proof.
  apply (@DecShareBatch_passes_VerifyDecShareBatch F7_group F7_laws
           F7_proofs F7_proofs_laws F7_H [f2; f2; f2] F7_polys f2
           [F7_encShare1; F7_encShare1; F7_encShare1] F7_stream).
  - discriminate.
  - repeat constructor.
  - reflexivity.
  - reflexivity.
Defined.

(** ** Verifying what has been verified *)

Section Survivors.

Context {g : Group} {pp : ProofPkg g}.

Local Open Scope Z_scope.

Lemma filter_filter_same {A : Type} (f : A -> bool) (l : list A) :
  filter f (filter f l) = filter f l.
Proof.
  apply filter_all. apply Forall_forall. intros a Ha.
  now apply filter_In in Ha.
Qed.

Lemma enc_rows_maps (rows : list (Point * (PubPoly * PubVerShare))) :
  enc_rows (map fst rows) (map (fun row => fst (snd row)) rows)
    (map (fun row => snd (snd row)) rows) = rows.
Proof.
  unfold enc_rows. induction rows as [|[X [p e]] rows IH]; simpl.
  - reflexivity.
  - now rewrite IH.
Qed.

(** X7. [VerifyEncShareBatch] on the entries that it returns, with their
    polynomials, returns them all: on inputs of equal lengths, the public
    keys and the encrypted shares it returns are those of the co-indexed
    entries that pass, and verifying these entries again removes none. *)
Theorem VerifyEncShareBatch_again (H : Point) (X : list Point)
    (polys : list PubPoly) (encShares : list PubVerShare) :
  length X = length polys -> length polys = length encShares ->
  let rows := filter (enc_ok H) (enc_rows X polys encShares) in
  VerifyEncShareBatch H X polys encShares
  = (map fst rows, map (fun row => snd (snd row)) rows, None) /\
  VerifyEncShareBatch H (map fst rows) (map (fun row => fst (snd row)) rows)
    (map (fun row => snd (snd row)) rows)
  = VerifyEncShareBatch H X polys encShares.
Proof.
  intros Hlen1 Hlen2 rows.
  rewrite (VerifyEncShareBatch_equal_lengths H X polys encShares Hlen1 Hlen2).
  fold rows. split; [reflexivity|].
  rewrite VerifyEncShareBatch_equal_lengths by now rewrite !length_map.
  rewrite enc_rows_maps. unfold rows. now rewrite filter_filter_same.
Qed.

(** X8. [RecoverSecret] on inputs of different lengths returns
    [errorDifferentLengths] and no point. On inputs of equal lengths it
    returns what it returns on the co-indexed entries that pass
    [VerifyDecShare] alone: the entries that fail have no part in the
    result. With at least [t] entries that pass, this is what
    [share.RecoverCommit] returns on their decrypted shares, in their
    order. *)
Theorem RecoverSecret_survivors (G : Point) (X : list Point)
    (encShares decShares : list PubVerShare) (t n : Z) :
  let rows := filter (dec_ok G) (dec_rows X encShares decShares) in
  (~ (length X = length encShares /\ length encShares = length decShares) ->
   RecoverSecret G X encShares decShares t n
   = (None, Some errorDifferentLengths)) /\
  (length X = length encShares -> length encShares = length decShares ->
   RecoverSecret G (map fst rows) (map (fun row => fst (snd row)) rows)
     (map (fun row => snd (snd row)) rows) t n
   = RecoverSecret G X encShares decShares t n /\
   (t <= Z.of_nat (length rows) ->
    RecoverSecret G X encShares decShares t n
    = RecoverCommit
        (map (fun row => PubVerShare.S (snd (snd row))) rows) t n)).
Proof.
  intros rows. split.
  - intros Hne. unfold RecoverSecret, VerifyDecShareBatch.
    now rewrite (lengths_mismatch _ _ _ Hne).
  - intros Hlen1 Hlen2. unfold RecoverSecret.
    rewrite (VerifyDecShareBatch_equal_lengths G X encShares decShares
               Hlen1 Hlen2).
    fold rows.
    rewrite VerifyDecShareBatch_equal_lengths by now rewrite !length_map.
    rewrite dec_rows_maps.
    replace (filter (dec_ok G) rows) with rows
      by (unfold rows; now rewrite filter_filter_same).
    split; [reflexivity|].
    intros Ht. rewrite length_map.
    destruct (Z.of_nat (length rows) <? t) eqn:E; [lia|].
    now rewrite map_map.
Qed.

End Survivors.

Lemma VerifyEncShareBatch_again_witness :
  @VerifyEncShareBatch F7_group F7_proofs F7_H F7_X F7_polys F7_tampered
  = (map fst F7_enc_kept, map (fun row => snd (snd row)) F7_enc_kept, None) /\
  @VerifyEncShareBatch F7_group F7_proofs F7_H (map fst F7_enc_kept)
    (map (fun row => fst (snd row)) F7_enc_kept)
    (map (fun row => snd (snd row)) F7_enc_kept)
  = @VerifyEncShareBatch F7_group F7_proofs F7_H F7_X F7_polys F7_tampered.
Proof.
  exact (@VerifyEncShareBatch_again F7_group F7_proofs F7_H F7_X F7_polys
           F7_tampered eq_refl eq_refl).
Defined.

Lemma RecoverSecret_survivors_witness :
  @RecoverSecret F7_group F7_proofs f1 F7_X F7_tampered (tl F7_decShares) 2 3
  = (None, Some errorDifferentLengths) /\
  @RecoverSecret F7_group F7_proofs f1 (map fst F7_dec_kept)
    (map (fun row => fst (snd row)) F7_dec_kept)
    (map (fun row => snd (snd row)) F7_dec_kept) 2 3
  = @RecoverSecret F7_group F7_proofs f1 F7_X F7_tampered F7_decShares 2 3 /\
  @RecoverSecret F7_group F7_proofs f1 F7_X F7_tampered F7_decShares 2 3
  = @RecoverCommit F7_group
      (map (fun row => PubVerShare.S (snd (snd row))) F7_dec_kept) 2 3.
Proof.
  destruct (@RecoverSecret_survivors F7_group F7_proofs f1 F7_X F7_tampered
              (tl F7_decShares) 2 3) as (Hdiff & _).
  destruct (@RecoverSecret_survivors F7_group F7_proofs f1 F7_X F7_tampered
              F7_decShares 2 3) as (_ & Heq).
  destruct (Heq eq_refl eq_refl) as (Hagain & Hcommit).
  split; [|split].
  - apply Hdiff. intros [_ E]. change (3 = 2)%nat in E. discriminate E.
  - exact Hagain.
  - apply Hcommit. change (2 <= 2)%Z. lia.
Defined.

(** ** Issuing and verifying *)

Section Issued.

Context {g : Group} {gl : GroupLaws g} {pp : ProofPkg g}
        {ppl : ProofPkgLaws g pp}.

Local Open Scope Z_scope.

Lemma issued_rows_ok (H : Point) (cs : list Scalar) (idx : list Z) :
  forall (X : list Point) (encShares : list PubVerShare),
    length idx = length X ->
    Forall2 (enc_share_ok H cs) (combine idx X) encShares ->
    map (fun e => PubShare.I (PubVerShare.S e)) encShares = idx /\
    filter (enc_ok H)
      (enc_rows X
         (repeat (PriPoly_Commit {| coeffs := cs |} H) (length X)) encShares)
    = combine X
        (combine (repeat (PriPoly_Commit {| coeffs := cs |} H) (length X))
           encShares) /\
    map fst
      (combine X
         (combine (repeat (PriPoly_Commit {| coeffs := cs |} H) (length X))
            encShares)) = X /\
    map (fun row => snd (snd row))
      (combine X
         (combine (repeat (PriPoly_Commit {| coeffs := cs |} H) (length X))
            encShares)) = encShares.
Proof.
  induction idx as [|i idx IH]; intros [|Xi X] encShares Hlen Hall;
    try discriminate Hlen; cbn [combine] in Hall.
  - inversion Hall. repeat split; reflexivity.
  - inversion Hall as [|iX e rest encs' He Hrest]; subst.
    destruct (IH X encs') as (EI & Ef & EK & EE);
      [now injection Hlen | exact Hrest |].
    pose proof (VerifyEncShare_ok H cs (i, Xi) e He) as Hv.
    destruct He as (HI & _). cbn [fst snd] in HI, Hv.
    cbn [length repeat combine enc_rows map filter fst snd].
    unfold enc_rows in Ef. unfold enc_ok at 1. cbn [fst snd].
    rewrite Hv. cbn [is_nil map fst snd]. rewrite Ef, EI, EK, EE, HI.
    repeat split; reflexivity.
Qed.

(** X9. In a lawful group with a lawful proof package, for a threshold
    of at least one, [EncShares] returns for the public keys [X] a
    commitment polynomial and encrypted shares with the indices [1..n] in
    order, and [VerifyEncShareBatch] on the public keys, this polynomial
    for each of them, and these shares returns all the keys and all the
    shares. The polynomials are those of package [share] as the
    specification describes it. *)
Theorem EncShares_passes_VerifyEncShareBatch (H : Point) (X : list Point)
    (secret : Scalar) (t : Z) (r : Stream) :
  1 <= t ->
  exists (encShares : list PubVerShare) (pubPoly : PubPoly) (r' : Stream),
    EncShares H X secret t r = ((encShares, Some pubPoly, None), r') /\
    map (fun e => PubShare.I (PubVerShare.S e)) encShares
    = indices_upto (Z.of_nat (length X)) /\
    VerifyEncShareBatch H X (repeat pubPoly (length X)) encShares
    = (X, encShares, None).
Proof.
  intros Ht.
  destruct (EncShares_ok H X secret t r Ht)
    as (cs & encShares & r' & _ & E & Hall).
  assert (Hidx : length (indices_upto (Z.of_nat (length X))) = length X).
  { rewrite indices_upto_length. lia. }
  destruct (issued_rows_ok H (secret :: cs) _ X encShares Hidx Hall)
    as (EI & Ef & EK & EE).
  exists encShares, (PriPoly_Commit {| coeffs := secret :: cs |} H), r'.
  split; [exact E|]. split; [exact EI|].
  assert (Hlen : length encShares = length X).
  { rewrite <- (length_map (fun e => PubShare.I (PubVerShare.S e))), EI.
    exact Hidx. }
  rewrite VerifyEncShareBatch_equal_lengths
    by (rewrite ?repeat_length; congruence).
  now rewrite Ef, EK, EE.
Qed.

End Issued.

Lemma EncShares_passes_VerifyEncShareBatch_witness :
  exists (encShares : list (@PubVerShare F7_group F7_proofs))
         (pubPoly : @PubPoly F7_group) (r' : @Stream F7_group),
    @EncShares F7_group F7_proofs F7_H F7_X f4 2 F7_stream
    = ((encShares, Some pubPoly, None), r') /\
    map (fun e => PubShare.I (PubVerShare.S e)) encShares
    = indices_upto (Z.of_nat (length F7_X)) /\
    @VerifyEncShareBatch F7_group F7_proofs F7_H F7_X
      (repeat pubPoly (length F7_X)) encShares
    = (F7_X, encShares, None).
Proof.
  apply (@EncShares_passes_VerifyEncShareBatch F7_group F7_laws F7_proofs
           F7_proofs_laws F7_H F7_X f4 2%Z F7_stream).
  lia.
Defined.

(** * More on the store

    ** The calls into package proof *)

Section Calls.

Context {g : Group} {pp : ProofPkg g}.

Local Open Scope Z_scope.

Lemma calls_VerifyEncShare (st : Store) (H X : nat) (poly : PubPolyObj)
    (encShare : PubVerShareObj.t) :
  calls (snd (Heap.VerifyEncShare H X poly encShare st))
  = calls st ++ [Verify_called].
Proof.
  unfold Heap.VerifyEncShare, Heap.PubPoly_Eval, Heap.DLEQProof_Verify,
    Heap.get_PubPoly, Heap.get_points, Heap.get_point, Heap.new_point,
    Heap.record, bind, ret.
  cbn [fst snd calls].
  match goal with |- context [negb ?c] => destruct c end; reflexivity.
Qed.

Lemma calls_VerifyDecShare (st : Store) (G X : nat)
    (encShare decShare : PubVerShareObj.t) :
  calls (snd (Heap.VerifyDecShare G X encShare decShare st))
  = calls st ++ [Verify_called].
Proof.
  unfold Heap.VerifyDecShare, Heap.DLEQProof_Verify, Heap.get_point,
    Heap.record, bind, ret.
  cbn [fst snd calls].
  match goal with |- context [negb ?c] => destruct c end; reflexivity.
Qed.

Lemma calls_VerifyEncShareBatch_loop (H : nat) (X : list nat) :
  forall (polys : list PubPolyObj) (encShares : list PubVerShareObj.t)
         (K : list nat) (E : list PubVerShareObj.t) (st : Store),
    length X = length polys -> length polys = length encShares ->
    calls (snd (Heap.VerifyEncShareBatch_loop H X polys encShares K E st))
    = calls st ++ repeat Verify_called (length X).
Proof.
  induction X as [|Xi X IH]; intros [|poly polys] [|e encShares] K E st
    Hlen1 Hlen2; try discriminate.
  - cbn. now rewrite app_nil_r.
  - cbn [Heap.VerifyEncShareBatch_loop]. unfold bind.
    pose proof (calls_VerifyEncShare st H Xi poly e) as Hc.
    destruct (Heap.VerifyEncShare H Xi poly e st) as [err st1].
    cbn [snd] in Hc. cbn [length repeat].
    destruct err; rewrite IH by (simpl in *; lia);
      now rewrite Hc, <- app_assoc.
Qed.

Lemma calls_VerifyDecShareBatch_loop (G : nat) (X : list nat) :
  forall (encShares decShares D : list PubVerShareObj.t) (st : Store),
    length X = length encShares -> length encShares = length decShares ->
    calls (snd (Heap.VerifyDecShareBatch_loop G X encShares decShares D st))
    = calls st ++ repeat Verify_called (length X).
Proof.
  induction X as [|Xi X IH]; intros [|e encShares] [|d decShares] D st
    Hlen1 Hlen2; try discriminate.
  - cbn. now rewrite app_nil_r.
  - cbn [Heap.VerifyDecShareBatch_loop]. unfold bind.
    pose proof (calls_VerifyDecShare st G Xi e d) as Hc.
    destruct (Heap.VerifyDecShare G Xi e d st) as [err st1].
    cbn [snd] in Hc. cbn [length repeat].
    destruct err; rewrite IH by (simpl in *; lia);
      now rewrite Hc, <- app_assoc.
Qed.

Lemma calls_VerifyDecShareBatch (st : Store) (G : nat) (X : list nat)
    (encShares decShares : list PubVerShareObj.t) :
  length X = length encShares -> length encShares = length decShares ->
  calls (snd (Heap.VerifyDecShareBatch G X encShares decShares st))
  = calls st ++ repeat Verify_called (length X).
Proof.
  intros Hlen1 Hlen2. unfold Heap.VerifyDecShareBatch.
  rewrite (proj2 (lengths_checked _ _ _) (conj Hlen1 Hlen2)).
  unfold bind, ret.
  pose proof (calls_VerifyDecShareBatch_loop G X encShares decShares [] st
                Hlen1 Hlen2) as Hc.
  destruct (Heap.VerifyDecShareBatch_loop G X encShares decShares [] st).
  exact Hc.
Qed.

Lemma calls_RecoverCommit (st : Store) (shares : list PubShareObj.t)
    (t n : Z) :
  calls (snd (Heap.RecoverCommit shares t n st)) = calls st.
Proof.
  rewrite RecoverCommit_run.
  destruct (RecoverCommit (map (value_of_PubShare st) shares) t n)
    as [[Acc|] err]; reflexivity.
Qed.

(** X10. On inputs of equal lengths, [VerifyEncShareBatch],
    [VerifyDecShareBatch] and [RecoverSecret] verify one proof for each
    entry, whatever the verifications answer, and generate none: the
    calls into package [proof] that they add to the record are as many
    verifications as there are public keys. [RecoverSecret] verifies them
    all also when it returns [errorTooFewShares]. *)
Theorem batch_verifies_every_entry (st : Store) (H G : nat) (X : list nat)
    (polys : list PubPolyObj) (encShares decShares : list PubVerShareObj.t)
    (t n : Z) :
  (length X = length polys -> length polys = length encShares ->
   calls (snd (Heap.VerifyEncShareBatch H X polys encShares st))
   = calls st ++ repeat Verify_called (length X)) /\
  (length X = length encShares -> length encShares = length decShares ->
   calls (snd (Heap.VerifyDecShareBatch G X encShares decShares st))
   = calls st ++ repeat Verify_called (length X) /\
   calls (snd (Heap.RecoverSecret G X encShares decShares t n st))
   = calls st ++ repeat Verify_called (length X)).
Proof.
  split.
  - intros Hlen1 Hlen2. unfold Heap.VerifyEncShareBatch.
    rewrite (proj2 (lengths_checked _ _ _) (conj Hlen1 Hlen2)).
    unfold bind, ret.
    pose proof (calls_VerifyEncShareBatch_loop H X polys encShares [] [] st
                  Hlen1 Hlen2) as Hc.
    destruct (Heap.VerifyEncShareBatch_loop H X polys encShares [] [] st).
    exact Hc.
  - intros Hlen1 Hlen2. split.
    + now apply calls_VerifyDecShareBatch.
    + unfold Heap.RecoverSecret, bind.
      pose proof (calls_VerifyDecShareBatch st G X encShares decShares
                    Hlen1 Hlen2) as Hc.
      destruct (Heap.VerifyDecShareBatch G X encShares decShares st)
        as [[D err] st1].
      cbn [snd] in Hc. destruct err as [err|]; [exact Hc|].
      destruct (Z.of_nat (length D) <? t); [exact Hc|].
      now rewrite calls_RecoverCommit.
Qed.

End Calls.

Section Objects.

Context {g : Group} {pp : ProofPkg g}.

Local Open Scope Z_scope.

(** X11. [DecShare] verifies before it decrypts. When the verification of
    the encrypted share fails, [DecShare] returns its error and no share,
    and it has verified one proof, generated none and drawn nothing from
    the random stream. When the verification passes, it has verified one
    proof and then generated one. *)
Theorem DecShare_verifies_first (st : Store) (H X : nat) (poly : PubPolyObj)
    (x : nat) (encShare : PubVerShareObj.t) :
  let out := Heap.DecShare H X poly x encShare st in
  match fst (Heap.VerifyEncShare H X poly encShare st) with
  | Some err =>
      fst out = (None, Some err) /\
      calls (snd out) = calls st ++ [Verify_called] /\
      random (snd out) = random st
  | None =>
      calls (snd out) = calls st ++ [Verify_called; NewDLEQProof_called]
  end.
Proof.
  intros out.
  assert (Eout : out = Heap.DecShare H X poly x encShare st) by reflexivity.
  clearbody out. unfold Heap.DecShare in Eout. unfold bind at 1 in Eout.
  pose proof (calls_VerifyEncShare st H X poly encShare) as Hc.
  pose proof (Drawless_VerifyEncShare H X poly encShare st) as Hd.
  revert Eout Hc Hd.
  destruct (Heap.VerifyEncShare H X poly encShare st) as [[err|] st1];
    cbn [fst snd]; intros Eout Hc Hd; subst out.
  - unfold ret. cbn [fst snd]. auto.
  - destruct st1 as [P1 s1 r1 c1]. cbn [calls] in Hc. subst c1.
    cbv beta iota zeta delta
      [bind ret Heap.get_point Heap.get_scalar Heap.new_point
       Heap.new_scalar Heap.set_point Heap.set_scalar Heap.record
       Heap.Point_new Heap.Scalar_new Heap.Point_Base Heap.Point_Mul
       Heap.Scalar_Inv Heap.NewDLEQProof Heap.draw].
    cbn [fst snd points scalars random calls].
    match goal with
    | |- context [NewDLEQProof ?a ?b ?c ?d] =>
        destruct (NewDLEQProof a b c d) as [[[[P xG] xV]|e] r']
    end; cbn [fst snd calls]; now rewrite <- app_assoc.
Qed.

(** The keys and the shares that the loop of [VerifyEncShareBatch]
    collects are objects of the inputs. *)
Lemma VerifyEncShareBatch_loop_objects (H : nat) (X : list nat) :
  forall (polys : list PubPolyObj) (encShares : list PubVerShareObj.t)
         (K : list nat) (E : list PubVerShareObj.t) (st : Store),
  exists rows : list (nat * PubVerShareObj.t),
    fst (Heap.VerifyEncShareBatch_loop H X polys encShares K E st)
    = (K ++ map fst rows, E ++ map snd rows) /\
    subseq rows (combine X encShares).
Proof.
  induction X as [|Xi X IH]; intros [|poly polys] [|e encShares] K E st;
    try (exists []; cbn [Heap.VerifyEncShareBatch_loop ret fst map combine];
         rewrite !app_nil_r; split; [reflexivity|];
         match goal with
         | |- subseq [] ?l => induction l; constructor; assumption
         end).
  cbn [Heap.VerifyEncShareBatch_loop]. unfold bind.
  destruct (Heap.VerifyEncShare H Xi poly e st) as [[err|] st1].
  - destruct (IH polys encShares K E st1) as (rows & Er & Hsub).
    exists rows. split; [exact Er|]. cbn [combine]. now constructor.
  - destruct (IH polys encShares (K ++ [Xi]) (E ++ [e]) st1)
      as (rows & Er & Hsub).
    exists ((Xi, e) :: rows). split.
    + rewrite Er. cbn [map fst snd]. now rewrite <- !app_assoc.
    + cbn [combine]. now constructor.
Qed.

Lemma subseq_nil_l {A : Type} (l : list A) : subseq [] l.
Proof. induction l; now constructor. Qed.

Lemma VerifyDecShareBatch_loop_objects (G : nat) (X : list nat) :
  forall (encShares decShares D : list PubVerShareObj.t) (st : Store),
  exists rows : list (nat * PubVerShareObj.t),
    fst (Heap.VerifyDecShareBatch_loop G X encShares decShares D st)
    = D ++ map snd rows /\
    subseq rows (combine X decShares).
Proof.
  induction X as [|Xi X IH]; intros [|e encShares] [|d decShares] D st;
    try (exists []; cbn [Heap.VerifyDecShareBatch_loop ret fst map combine];
         rewrite !app_nil_r; split; [reflexivity | apply subseq_nil_l]).
  cbn [Heap.VerifyDecShareBatch_loop]. unfold bind.
  destruct (Heap.VerifyDecShare G Xi e d st) as [[err|] st1].
  - destruct (IH encShares decShares D st1) as (rows & Er & Hsub).
    exists rows. split; [exact Er|]. cbn [combine]. now constructor.
  - destruct (IH encShares decShares (D ++ [d]) st1) as (rows & Er & Hsub).
    exists ((Xi, d) :: rows). split.
    + rewrite Er. cbn [map fst snd]. now rewrite <- !app_assoc.
    + cbn [combine]. now constructor.
Qed.

(** X12. The batch verifiers return the objects they are given, not
    copies: the public keys and the encrypted shares that
    [VerifyEncShareBatch] returns are, position by position, the addresses
    and the shares of a subsequence of the co-indexed input keys and
    shares, and the decrypted shares that [VerifyDecShareBatch] returns
    are those of a subsequence of the input. *)
Theorem batch_verifiers_return_inputs (st : Store) (H G : nat)
    (X : list nat) (polys : list PubPolyObj)
    (encShares decShares : list PubVerShareObj.t) :
  (exists rows : list (nat * PubVerShareObj.t),
     fst (fst (fst (Heap.VerifyEncShareBatch H X polys encShares st)))
     = map fst rows /\
     snd (fst (fst (Heap.VerifyEncShareBatch H X polys encShares st)))
     = map snd rows /\
     subseq rows (combine X encShares)) /\
  (exists rows : list (nat * PubVerShareObj.t),
     fst (fst (Heap.VerifyDecShareBatch G X encShares decShares st))
     = map snd rows /\
     subseq rows (combine X decShares)).
Proof.
  split.
  - unfold Heap.VerifyEncShareBatch.
    destruct (negb (length X =? length polys)%nat
              || negb (length polys =? length encShares)%nat).
    + exists []. repeat split; try reflexivity. apply subseq_nil_l.
    + destruct (VerifyEncShareBatch_loop_objects H X polys encShares [] []
                  st) as (rows & Er & Hsub).
      exists rows. unfold bind, ret.
      destruct (Heap.VerifyEncShareBatch_loop H X polys encShares [] [] st)
        as [[K E] st1].
      cbn [fst snd app] in *. injection Er as -> ->. auto.
  - unfold Heap.VerifyDecShareBatch.
    destruct (negb (length X =? length encShares)%nat
              || negb (length encShares =? length decShares)%nat).
    + exists []. split; [reflexivity | apply subseq_nil_l].
    + destruct (VerifyDecShareBatch_loop_objects G X encShares decShares []
                  st) as (rows & Er & Hsub).
      exists rows. unfold bind, ret.
      destruct (Heap.VerifyDecShareBatch_loop G X encShares decShares [] st)
        as [D st1].
      cbn [fst snd app] in *. subst D. auto.
Qed.

(** X13. The decrypted share that [DecShare] returns holds a point that
    the call has created: its address is the address of no object of the
    store in which [DecShare] is called, and of an object of the store in
    which it returns. The share has the index of the encrypted share. *)
Theorem DecShare_returns_new_point (st : Store) (H X : nat)
    (poly : PubPolyObj) (x : nat) (encShare : PubVerShareObj.t) :
  let out := Heap.DecShare H X poly x encShare st in
  match fst (fst out) with
  | Some decShare =>
      ~ live_point st (PubShareObj.V (PubVerShareObj.S decShare)) /\
      live_point (snd out) (PubShareObj.V (PubVerShareObj.S decShare)) /\
      PubShareObj.I (PubVerShareObj.S decShare)
      = PubShareObj.I (PubVerShareObj.S encShare)
  | None => True
  end.
Proof.
  intros out.
  assert (Eout : out = Heap.DecShare H X poly x encShare st) by reflexivity.
  clearbody out. unfold Heap.DecShare in Eout. unfold bind at 1 in Eout.
  pose proof (Preserving_VerifyEncShare H X poly encShare st) as Hp.
  revert Eout Hp.
  destruct (Heap.VerifyEncShare H X poly encShare st) as [[err|] st1];
    cbn [fst snd]; intros Eout Hp; subst out.
  - exact I.
  - destruct Hp as ((Ps & EP) & _). unfold live_point.
    destruct st1 as [P1 s1 r1 c1]. cbn [points] in EP. subst P1.
    cbv beta iota zeta delta
      [bind ret Heap.get_point Heap.get_scalar Heap.new_point
       Heap.new_scalar Heap.set_point Heap.set_scalar Heap.record
       Heap.Point_new Heap.Scalar_new Heap.Point_Base Heap.Point_Mul
       Heap.Scalar_Inv Heap.NewDLEQProof Heap.draw].
    cbn [fst snd points scalars random calls].
    rewrite !update_new.
    match goal with
    | |- context [NewDLEQProof ?a ?b ?c ?d] =>
        destruct (NewDLEQProof a b c d) as [[[[P xG] xV]|e] r']
    end; cbn [fst snd points PubShareObj.I PubShareObj.V PubVerShareObj.S];
      [|exact I].
    rewrite !length_app. cbn [length]. repeat split; lia.
Qed.

End Objects.


(** * More of [marshal.go]

    ** The encoders and the decoders *)

Section Marshaling.

Variable env : marshal.Env.
Variable enc : Encoders env.

Lemma Fprintln_length (suiteStr : string) (n : nat) :
  length (Fprintln suiteStr n)
  = (length (list_byte_of_string suiteStr) + length (digits n) + 2)%nat.
Proof. unfold Fprintln. rewrite !length_app. simpl. lia. Qed.

Lemma read_bvalue_exact (bvalue : list Byte.byte) :
  marshal.read_bvalue (Z.of_nat (length bvalue)) bvalue = bvalue.
Proof.
  unfold marshal.read_bvalue. rewrite Nat2Z.id, firstn_all, Nat.sub_diag.
  apply app_nil_r.
Qed.

(** The decoders scan every input that is not empty. *)
Lemma Secret_UnmarshalBinary_scans (s : marshal.Secret env)
    (data : list Byte.byte) :
  data <> [] ->
  forall (res : marshal.Secret env * option error),
    marshal.Secret_UnmarshalBinary env s data <> marshal.Returns res [].
Proof.
  intros Hdata res. unfold marshal.Secret_UnmarshalBinary.
  destruct data as [|c data]; [contradiction|]. cbn [length Nat.eqb].
  destruct (marshal.Fscanln env (c :: data)) as [[suiteStr len] rest].
  destruct (len <? 0)%Z; [discriminate|].
  destruct (marshal.StringToSuite env suiteStr); [|discriminate].
  destruct (marshal.Suite_Secret env a); discriminate.
Qed.

Lemma Point_UnmarshalBinary_scans (p : marshal.Point env)
    (data : list Byte.byte) :
  data <> [] ->
  forall (res : marshal.Point env * option error),
    marshal.Point_UnmarshalBinary env p data <> marshal.Returns res [].
Proof.
  intros Hdata res. unfold marshal.Point_UnmarshalBinary.
  destruct data as [|c data]; [contradiction|]. cbn [length Nat.eqb].
  destruct (marshal.Fscanln env (c :: data)) as [[suiteStr len] rest].
  destruct (len <? 0)%Z; [discriminate|].
  destruct (marshal.StringToSuite env suiteStr); [|discriminate].
  destruct (marshal.Suite_Point env a); [|discriminate].
  destruct (marshal.PointInterface p); discriminate.
Qed.

Lemma Fprintln_not_nil (suiteStr : string) (n : nat)
    (bvalue : list Byte.byte) :
  Fprintln suiteStr n ++ bvalue <> [].
Proof.
  intros E. apply (f_equal (@length Byte.byte)) in E.
  rewrite length_app, Fprintln_length in E. simpl in E. lia.
Qed.

(** X14. What [MarshalBinary] of a secret or a point returns with a nil
    error is the header line, made of the name of the suite, a space, the
    decimal digits of the length of the binary representation and a
    newline, followed by the binary representation. It is never empty:
    [UnmarshalBinary] does not take its return for empty data on it, for
    any receiver. With an error of the embedded [MarshalBinary] it returns
    this error and nil data. *)
Theorem MarshalBinary_header (s : marshal.Secret env)
    (p : marshal.Point env) :
  (forall data err log,
     Secret_MarshalBinary enc s = marshal.Returns (data, err) log ->
     match err with
     | Some e =>
         data = [] /\
         exists impl,
           marshal.SecretInterface s = Some impl /\
           snd (Secret_MarshalBinary_impl enc impl) = Some e
     | None =>
         (exists impl suite,
            marshal.SecretInterface s = Some impl /\
            Secret_GetSuite enc impl = Some suite /\
            data
            = Fprintln (Suite_String enc suite)
                (length (fst (Secret_MarshalBinary_impl enc impl)))
              ++ fst (Secret_MarshalBinary_impl enc impl)) /\
         forall s' res,
           marshal.Secret_UnmarshalBinary env s' data
           <> marshal.Returns res []
     end) /\
  (forall data err log,
     Point_MarshalBinary enc p = marshal.Returns (data, err) log ->
     match err with
     | Some e =>
         data = [] /\
         exists impl,
           marshal.PointInterface p = Some impl /\
           snd (Point_MarshalBinary_impl enc impl) = Some e
     | None =>
         (exists impl suite,
            marshal.PointInterface p = Some impl /\
            Point_GetSuite enc impl = Some suite /\
            data
            = Fprintln (Suite_String enc suite)
                (length (fst (Point_MarshalBinary_impl enc impl)))
              ++ fst (Point_MarshalBinary_impl enc impl)) /\
         forall p' res,
           marshal.Point_UnmarshalBinary env p' data
           <> marshal.Returns res []
     end).
Proof.
  split; intros data err log.
  - unfold Secret_MarshalBinary.
    destruct (marshal.SecretInterface s) as [impl|]; [|discriminate].
    destruct (Secret_MarshalBinary_impl enc impl) as [bvalue [e|]] eqn:Eb.
    + intros E. inversion E; subst. split; [reflexivity|].
      exists impl. now rewrite Eb.
    + destruct (Secret_GetSuite enc impl) as [suite|] eqn:Es;
        [|discriminate].
      intros E. inversion E; subst. split.
      * exists impl, suite. rewrite ?Eb. cbn [fst]. auto.
      * intros s' res. apply Secret_UnmarshalBinary_scans.
        apply Fprintln_not_nil.
  - unfold Point_MarshalBinary.
    destruct (marshal.PointInterface p) as [impl|]; [|discriminate].
    destruct (Point_MarshalBinary_impl enc impl) as [bvalue [e|]] eqn:Eb.
    + intros E. inversion E; subst. split; [reflexivity|].
      exists impl. now rewrite Eb.
    + destruct (Point_GetSuite enc impl) as [suite|] eqn:Es;
        [|discriminate].
      intros E. inversion E; subst. split.
      * exists impl, suite. rewrite ?Eb. cbn [fst]. auto.
      * intros p' res. apply Point_UnmarshalBinary_scans.
        apply Fprintln_not_nil.
Qed.

(** X15. Decoding what has been encoded. When the scan of what
    [MarshalBinary] of a secret returns reads back the name of the suite,
    the length and the binary representation, and the name is that of the
    suite for [StringToSuite], [UnmarshalBinary] on it returns a nil error
    for every receiver, and the receiver holds a new secret of the suite
    into which the embedded [UnmarshalBinary] has decoded exactly the
    binary representation that was encoded. *)
Theorem Secret_UnmarshalBinary_MarshalBinary (s s' : marshal.Secret env)
    (impl fresh : marshal.SecretInterface_impl env)
    (suite : marshal.Suite env) (bvalue : list Byte.byte) :
  let suiteStr := Suite_String enc suite in
  let data := Fprintln suiteStr (length bvalue) ++ bvalue in
  marshal.SecretInterface s = Some impl ->
  Secret_MarshalBinary_impl enc impl = (bvalue, None) ->
  Secret_GetSuite enc impl = Some suite ->
  marshal.Fscanln env data = (suiteStr, Z.of_nat (length bvalue), bvalue) ->
  marshal.StringToSuite env suiteStr = Ok suite ->
  marshal.Suite_Secret env suite = Some fresh ->
  Secret_MarshalBinary enc s = marshal.Returns (data, None) [] /\
  marshal.Secret_UnmarshalBinary env s' data
  = marshal.Returns
      ({| marshal.SecretInterface :=
            Some (marshal.Secret_UnmarshalBinary_impl env
                    (marshal.Secret_SetSuite env fresh suite) bvalue) |},
       None)
      [marshal.Fscanln_called data; marshal.StringToSuite_called suiteStr;
       marshal.Secret_UnmarshalBinary_called bvalue].
Proof.
  intros suiteStr data Hs Hb Hg Hscan Hsuite Hfresh. split.
  - unfold Secret_MarshalBinary. now rewrite Hs, Hb, Hg.
  - unfold marshal.Secret_UnmarshalBinary.
    destruct data as [|c data'] eqn:Ed.
    { exfalso. apply (Fprintln_not_nil suiteStr (length bvalue) bvalue).
      exact Ed. }
    cbn [length Nat.eqb]. rewrite Hscan.
    destruct (Z.ltb_spec (Z.of_nat (length bvalue)) 0) as [El|El]; [lia|].
    now rewrite Hsuite, Hfresh, read_bvalue_exact.
Qed.

(** X16. The same for a point. A receiver that holds no point takes the
    new point of the suite, decoded, with its suite set; a receiver that
    holds a point keeps it, set to null and then added the decoded
    point. *)
Theorem Point_UnmarshalBinary_MarshalBinary (p p' : marshal.Point env)
    (impl fresh : marshal.PointInterface_impl env)
    (suite : marshal.Suite env) (bvalue : list Byte.byte) :
  let suiteStr := Suite_String enc suite in
  let data := Fprintln suiteStr (length bvalue) ++ bvalue in
  let decoded := marshal.Point_UnmarshalBinary_impl env fresh bvalue in
  marshal.PointInterface p = Some impl ->
  Point_MarshalBinary_impl enc impl = (bvalue, None) ->
  Point_GetSuite enc impl = Some suite ->
  marshal.Fscanln env data = (suiteStr, Z.of_nat (length bvalue), bvalue) ->
  marshal.StringToSuite env suiteStr = Ok suite ->
  marshal.Suite_Point env suite = Some fresh ->
  Point_MarshalBinary enc p = marshal.Returns (data, None) [] /\
  marshal.Point_UnmarshalBinary env p' data
  = marshal.Returns
      ({| marshal.PointInterface :=
            Some match marshal.PointInterface p' with
                 | Some old =>
                     marshal.Point_Add_impl env
                       (marshal.Point_Null_impl env old) decoded
                 | None => marshal.Point_SetSuite env decoded suite
                 end |},
       None)
      [marshal.Fscanln_called data; marshal.StringToSuite_called suiteStr;
       marshal.Point_UnmarshalBinary_called bvalue].
Proof.
  intros suiteStr data decoded Hp Hb Hg Hscan Hsuite Hfresh. split.
  - unfold Point_MarshalBinary. now rewrite Hp, Hb, Hg.
  - unfold marshal.Point_UnmarshalBinary.
    destruct data as [|c data'] eqn:Ed.
    { exfalso. apply (Fprintln_not_nil suiteStr (length bvalue) bvalue).
      exact Ed. }
    cbn [length Nat.eqb]. rewrite Hscan.
    destruct (Z.ltb_spec (Z.of_nat (length bvalue)) 0) as [El|El]; [lia|].
    rewrite Hsuite, Hfresh, read_bvalue_exact. fold decoded.
    destruct (marshal.PointInterface p'); reflexivity.
Qed.

(** X17. [MarshalSize] of a secret is the size that the embedded
    [MarshalSize] reports plus eight. When this size is the length of the
    binary representation, [MarshalSize] is the length of what
    [MarshalBinary] returns exactly when the header line has eight
    bytes: when the name of the suite and the digits of the length have
    six bytes together. The same holds of a point. *)
Theorem MarshalSize_header (s : marshal.Secret env) (p : marshal.Point env)
    (simpl_ : marshal.SecretInterface_impl env)
    (pimpl : marshal.PointInterface_impl env)
    (suite : marshal.Suite env) (bvalue : list Byte.byte) :
  let header := Fprintln (Suite_String enc suite) (length bvalue) in
  (Z.of_nat (length bvalue) + 8 < 2 ^ 63)%Z ->
  (marshal.SecretInterface s = Some simpl_ ->
   Secret_MarshalBinary_impl enc simpl_ = (bvalue, None) ->
   Secret_GetSuite enc simpl_ = Some suite ->
   Secret_MarshalSize_impl enc simpl_ = Z.of_nat (length bvalue) ->
   Secret_MarshalSize enc s
   = marshal.Returns (Z.of_nat (length bvalue) + 8)%Z [] /\
   Secret_MarshalBinary enc s
   = marshal.Returns (header ++ bvalue, None) [] /\
   ((Z.of_nat (length bvalue) + 8)%Z = Z.of_nat (length (header ++ bvalue))
    <-> length header = 8%nat)) /\
  (marshal.PointInterface p = Some pimpl ->
   Point_MarshalBinary_impl enc pimpl = (bvalue, None) ->
   Point_GetSuite enc pimpl = Some suite ->
   Point_MarshalSize_impl enc pimpl = Z.of_nat (length bvalue) ->
   Point_MarshalSize enc p
   = marshal.Returns (Z.of_nat (length bvalue) + 8)%Z [] /\
   Point_MarshalBinary enc p
   = marshal.Returns (header ++ bvalue, None) [] /\
   ((Z.of_nat (length bvalue) + 8)%Z = Z.of_nat (length (header ++ bvalue))
    <-> length header = 8%nat)).
Proof.
  intros header Hrange.
  assert (Hint : int_of (Z.of_nat (length bvalue) + 8)
                 = (Z.of_nat (length bvalue) + 8)%Z).
  { unfold int_of.
    rewrite Z.mod_small by (change (2 ^ 64)%Z with (2 ^ 63 + 2 ^ 63)%Z; lia).
    lia. }
  split; intros Hi Hb Hg Hsize.
  - unfold Secret_MarshalSize, Secret_MarshalBinary.
    rewrite Hi, Hb, Hg, Hsize, Hint. fold header.
    split; [reflexivity|]. split; [reflexivity|].
    rewrite length_app. lia.
  - unfold Point_MarshalSize, Point_MarshalBinary.
    rewrite Hi, Hb, Hg, Hsize, Hint. fold header.
    split; [reflexivity|]. split; [reflexivity|].
    rewrite length_app. lia.
Qed.




End Marshaling.

Lemma MarshalBinary_header_witness :
  ((exists impl suite,
      marshal.SecretInterface T7_secret = Some impl /\
      Secret_GetSuite T7_enc impl = Some suite /\
      T7_data
      = Fprintln (Suite_String T7_enc suite)
          (length (fst (Secret_MarshalBinary_impl T7_enc impl)))
        ++ fst (Secret_MarshalBinary_impl T7_enc impl)) /\
   forall s' res,
     marshal.Secret_UnmarshalBinary T7_env s' T7_data
     <> marshal.Returns res []) /\
  ((exists impl suite,
      marshal.PointInterface T7_point = Some impl /\
      Point_GetSuite T7_enc impl = Some suite /\
      T7_data
      = Fprintln (Suite_String T7_enc suite)
          (length (fst (Point_MarshalBinary_impl T7_enc impl)))
        ++ fst (Point_MarshalBinary_impl T7_enc impl)) /\
   forall p' res,
     marshal.Point_UnmarshalBinary T7_env p' T7_data
     <> marshal.Returns res []).
Proof.
  destruct (MarshalBinary_header T7_env T7_enc T7_secret T7_point)
    as (Hs & Hp).
  split.
  - exact (Hs T7_data None [] eq_refl).
  - exact (Hp T7_data None [] eq_refl).
Defined.

Lemma Secret_UnmarshalBinary_MarshalBinary_witness :
  Secret_MarshalBinary T7_enc T7_secret
  = marshal.Returns (T7_data, None) [] /\
  marshal.Secret_UnmarshalBinary T7_env (@marshal.Build_Secret T7_env None)
    T7_data
  = marshal.Returns (T7_secret, None)
      [marshal.Fscanln_called T7_data; marshal.StringToSuite_called "T7";
       marshal.Secret_UnmarshalBinary_called T7_bytes].
Proof.
  exact (Secret_UnmarshalBinary_MarshalBinary T7_env T7_enc T7_secret
           (@marshal.Build_Secret T7_env None) T7_bytes [] tt T7_bytes
           eq_refl eq_refl eq_refl eq_refl eq_refl eq_refl).
Defined.

Lemma Point_UnmarshalBinary_MarshalBinary_witness :
  Point_MarshalBinary T7_enc T7_point
  = marshal.Returns (T7_data, None) [] /\
  marshal.Point_UnmarshalBinary T7_env T7_point T7_data
  = marshal.Returns (T7_point, None)
      [marshal.Fscanln_called T7_data; marshal.StringToSuite_called "T7";
       marshal.Point_UnmarshalBinary_called T7_bytes].
Proof.
  exact (Point_UnmarshalBinary_MarshalBinary T7_env T7_enc T7_point
           T7_point T7_bytes [] tt T7_bytes
           eq_refl eq_refl eq_refl eq_refl eq_refl eq_refl).
Defined.

Lemma MarshalSize_header_witness :
  Secret_MarshalSize T7_enc T7_secret = marshal.Returns 11%Z [] /\
  Secret_MarshalBinary T7_enc T7_secret
  = marshal.Returns (T7_data, None) [] /\
  (11%Z = Z.of_nat (length T7_data) <-> length (Fprintln "T7" 3) = 8%nat) /\
  Point_MarshalSize T7_enc T7_point = marshal.Returns 11%Z [] /\
  Point_MarshalBinary T7_enc T7_point
  = marshal.Returns (T7_data, None) [] /\
  (11%Z = Z.of_nat (length T7_data) <-> length (Fprintln "T7" 3) = 8%nat).
Proof.
  destruct (MarshalSize_header T7_env T7_enc T7_secret T7_point T7_bytes
              T7_bytes tt T7_bytes eq_refl) as (Hs & Hp).
  destruct (Hs eq_refl eq_refl eq_refl eq_refl) as (Hs1 & Hs2 & Hs3).
  destruct (Hp eq_refl eq_refl eq_refl eq_refl) as (Hp1 & Hp2 & Hp3).
  repeat split; first [exact Hs1 | exact Hs2 | apply Hs3 | exact Hp1
                      | exact Hp2 | apply Hp3].
Defined.


(** ** The operations on the store of the small instance *)

Lemma F7_store_run :
  length F7_shareObjs = 3%nat /\
  calls F7_store1 = [NewDLEQProofBatch_called] /\
  map (value_of_PubVerShare F7_store1) F7_shareObjs = F7_encShares /\
  option_map
    (fun d => PubShare.V (PubVerShare.S
       (value_of_PubVerShare
          (snd (@Heap.DecShare F7_group F7_proofs 0 1 F7_polyObj 1
                  F7_shareObj1 F7_store1)) d)))
    (fst (fst (@Heap.DecShare F7_group F7_proofs 0 1 F7_polyObj 1
                 F7_shareObj1 F7_store1)))
  = Some (PubShare.V (PubVerShare.S F7_decShare1)).
Proof. repeat split; reflexivity. Qed.

Lemma batch_verifies_every_entry_witness :
  calls (snd (@Heap.VerifyEncShareBatch F7_group F7_proofs 0 [1; 2; 3]%nat
                [F7_polyObj; F7_polyObj; F7_polyObj] F7_shareObjs
                F7_store1))
  = calls F7_store1 ++ repeat Verify_called 3 /\
  calls (snd (@Heap.RecoverSecret F7_group F7_proofs 0 [1; 2; 3]%nat
                F7_shareObjs F7_shareObjs 5 3 F7_store1))
  = calls F7_store1 ++ repeat Verify_called 3.
Proof.
  destruct (@batch_verifies_every_entry F7_group F7_proofs F7_store1
              0%nat 0%nat [1; 2; 3]%nat
              [F7_polyObj; F7_polyObj; F7_polyObj] F7_shareObjs
              F7_shareObjs 5 3) as (Henc & Hdec).
  split.
  - exact (Henc eq_refl eq_refl).
  - exact (proj2 (Hdec eq_refl eq_refl)).
Defined.


Section IssueCalls.

Context {g : Group} {pp : ProofPkg g}.

Local Open Scope Z_scope.

(** X20. [EncShares] generates the proofs of all the shares in one call
    of [NewDLEQProofBatch] and calls package [proof] for nothing else: it
    verifies no proof. *)
Theorem EncShares_one_batch (st : Store) (H : nat) (X : list nat)
    (secret : nat) (t : Z) :
  calls (snd (Heap.EncShares H X secret t st))
  = calls st ++ [NewDLEQProofBatch_called].
Proof.
  destruct st as [P0 s0 r0 c0].
  unfold Heap.EncShares, Heap.NewPriPoly, Heap.PriPoly_Shares,
    Heap.PriPoly_Commit, Heap.NewDLEQProofBatch, Heap.get_PriPoly,
    Heap.get_scalars, Heap.get_points, Heap.get_scalar, Heap.get_point,
    Heap.draw, Heap.record, bind, ret.
  cbn [fst snd points scalars random calls coeff_cells].
  destruct (NewPriPoly t (Heap.scalar_at _ secret) r0) as [[cs] r1].
  repeat (progress
            (rewrite ?new_scalars_run, ?new_points_run;
             cbn [fst snd points scalars random calls coeffs coeff_cells])).
  match goal with
  | |- context [NewDLEQProofBatch ?a ?b ?c ?d] =>
      destruct (NewDLEQProofBatch a b c d) as [[[[ps xGv] xHv]|err] r2]
  end; [|reflexivity].
  rewrite !new_points_run. reflexivity.
Qed.

End IssueCalls.
